(** * endedupe: the sequencer lock of [s3index.py]

    A shallow embedding of [endedupe/s3index.py]: the [S3Lock] class, which
    keeps one lock record per S3 key in a DynamoDB table, and
    [handle_notification_if_up_to_date], the retry loop that decides whether
    a notification is processed or skipped.

    The DynamoDB table is the one piece of shared mutable state.  It is
    modelled as a finite map from the partition key to the stored item, and
    the three boto3 calls the module makes ([get_item], conditional
    [put_item], [update_item]) act on it one item at a time, atomically, as
    the DynamoDB API documents them.

    The handler runs among other clients of the table.  Two views are given:
    - one invocation, with a schedule of what the others have written by the
      time each of its requests arrives ([World], [EnvStep]); the handler is
      a function of that world, written as the source is;
    - any number of invocations interleaved call by call on one table
      ([System], [sys_step]), each advancing through the program points of
      the handler ([Pc], [step]); [handle_steps] relates the two. *)

From Stdlib Require Import String Ascii ZArith List.
From stdpp Require Import base option strings gmap list.

Local Open Scope string_scope.
Local Open Scope Z_scope.
Local Open Scope list_scope.

(** ** Python values and exceptions *)

(** The exceptions that can travel through [s3index.py].  All of them are
    subclasses of Python's [Exception], so [except Exception] catches each. *)
Inductive Exception :=
| ItemLockedException
| ClientError (code : string)
| KeyError (key : string)
| OtherException (name : string).

Global Instance Exception_eq_dec : EqDecision Exception.
Proof. solve_decision. Defined.

(** The result of running a piece of Python: a value, a raised exception, or
    no result at all: the bound on the iterations of the [while True] loop
    was reached, or a callback never came back. *)
Inductive Res (A : Type) :=
| Return (a : A)
| Raise (e : Exception)
| OutOfFuel.
Arguments Return {A} a.
Arguments Raise {A} e.
Arguments OutOfFuel {A}.

(** ** DynamoDB items *)

(** Attribute values: the module stores Python [str] (DynamoDB type S) and,
    on a roll back to the unseen state, Python [None] (DynamoDB type NULL). *)
Inductive AttributeValue :=
| Str (s : string)
| Null.

Global Instance AttributeValue_eq_dec : EqDecision AttributeValue.
Proof. solve_decision. Defined.

Abbreviation Item := (gmap string AttributeValue).
Abbreviation Table := (gmap string (gmap string AttributeValue)).

(** Python truthiness of an attribute value: [if locked:]. *)
Definition truthy (v : AttributeValue) : bool :=
  match v with
  | Str s => negb (String.eqb s "")
  | Null => false
  end.

(** An attribute read back into Python: [Optional[str]]. *)
Definition to_python (v : AttributeValue) : option string :=
  match v with
  | Str s => Some s
  | Null => None
  end.

(** A Python [Optional[str]] serialised by boto3. *)
Definition to_attribute (o : option string) : AttributeValue :=
  match o with
  | Some s => Str s
  | None => Null
  end.

(** Condition expressions, as far as [lockForSequencer] uses them. *)
Inductive Condition :=
| attribute_not_exists (path : string)
| CondEq (path : string) (value : AttributeValue)
| CondAnd (a b : Condition)
| CondOr (a b : Condition).

(** A condition is evaluated against the item currently stored under the
    key; when there is none, against the empty item: no attribute exists and
    every comparison is false.  Two values are equal when they have the same
    type and the same content (so NULL equals NULL). *)
Fixpoint eval_condition (c : Condition) (current : Item) : bool :=
  match c with
  | attribute_not_exists path =>
      match current !! path with None => true | Some _ => false end
  | CondEq path value =>
      match current !! path with
      | Some v => bool_decide (v = value)
      | None => false
      end
  | CondAnd a b => eval_condition a current && eval_condition b current
  | CondOr a b => eval_condition a current || eval_condition b current
  end.

(** [SET a = :x, b = :y] with the values substituted, applied left to right. *)
Fixpoint apply_set (sets : list (string * AttributeValue)) (item : Item) : Item :=
  match sets with
  | [] => item
  | (a, v) :: rest => apply_set rest (<[a := v]> item)
  end.

(** ** The module's constants *)

Definition FIELD_SEQUENCER : string := "sequencer".
Definition FIELD_KEY : string := "s3key".
Definition FIELD_LOCK_STATUS : string := "lock_status".
Definition FIELD_UPDATED_BY : string := "updated_by".

Definition LOCK_VALUE_LOCKED : string := "locked".
Definition LOCK_VALUE_UNLOCKED : string := "".

Definition OUTCOME_OUT_OF_DATE : Z := 1.
Definition OUTCOME_PROCESSED : Z := 2.

(** ** Notifications *)

(** The three entries of the EventBridge event that the handler reads:
    [event['detail']['object']['sequencer']],
    [event['detail']['bucket']['name']] and
    [event['detail']['object']['key']]. *)
Record Event := {
  detail_object_sequencer : string;
  detail_bucket_name : string;
  detail_object_key : string;
}.

(** ** The world: the shared table, the other clients, the calls made *)

(** Store errors that are not a failed condition: boto3 raises them from any
    call, whatever the request. *)
Inductive ServiceFault :=
| Throttled
| InternalError
| ConnectionLost.

Definition fault_exception (f : ServiceFault) : Exception :=
  match f with
  | Throttled => ClientError "ProvisionedThroughputExceededException"
  | InternalError => ClientError "InternalServerError"
  | ConnectionLost => OtherException "EndpointConnectionError"
  end.

(** What has happened by the time a request of this worker reaches the
    table: the writes of the other clients since this worker's previous
    request, and whether the request itself fails in the service. *)
Record EnvStep := {
  others : Table → Table;
  fault : option ServiceFault;
}.

(** The calls this worker makes, in order (a ghost trace). *)
Inductive Call :=
| GetItem (key : string)
| PutItem (item : Item) (cond : Condition)
| UpdateItem (key : string) (sets : list (string * AttributeValue))
| Backoff
| Processing (event : Event).

Record World := {
  table : Table;
  env : list EnvStep;
  trace : list Call;
}.

(** The world as the worker's next request finds it.  When no step is
    scheduled the worker is alone and the service is healthy. *)
Definition arrive (w : World) : World * option ServiceFault :=
  match env w with
  | [] => (w, None)
  | s :: rest =>
      ({| table := others s (table w); env := rest; trace := trace w |},
       fault s)
  end.

Definition log (c : Call) (w : World) : World :=
  {| table := table w; env := env w; trace := trace w ++ [c] |}.

Definition with_table (t : Table) (w : World) : World :=
  {| table := t; env := env w; trace := trace w |}.

(** ** A state and exception monad over the world *)

Definition M (A : Type) : Type := World → Res A * World.

Definition ret {A} (a : A) : M A := λ w, (Return a, w).
Definition raise {A} (e : Exception) : M A := λ w, (Raise e, w).
Definition bind {A B} (m : M A) (k : A → M B) : M B := λ w,
  match m w with
  | (Return a, w1) => k a w1
  | (Raise e, w1) => (Raise e, w1)
  | (OutOfFuel, w1) => (OutOfFuel, w1)
  end.

Global Instance M_ret : MRet M := @ret.
Global Instance M_bind : MBind M := λ A B k m, bind m k.

(** Lifting a pure outcome (a callback that returns or raises). *)
Definition lift {A} (r : Res A) : M A := λ w, (r, w).

(** ** The DynamoDB table resource *)

(** The item stored under [key], as DynamoDB hands it out: an item always
    carries its own partition key. *)
Definition lookup_item (t : Table) (key : string) : option Item :=
  (λ item, <[FIELD_KEY := Str key]> item) <$> t !! key.

(** One request: the other clients have moved on, the call is recorded, the
    service may fail, otherwise the operation runs atomically on the table. *)
Definition request {A} (c : Call) (op : Table → Res A * Table) : M A := λ w,
  let '(w1, f) := arrive w in
  let w2 := log c w1 in
  match f with
  | Some f => (Raise (fault_exception f), w2)
  | None => let '(r, t) := op (table w2) in (r, with_table t w2)
  end.

(** [table.get_item(Key={FIELD_KEY: key}, ConsistentRead=True)]: the
    response has an ['Item'] exactly when an item is stored. *)
Definition get_item (key : string) : M (option Item) :=
  request (GetItem key) (λ t, (Return (lookup_item t key), t)).

(** [table.put_item(Item=item, ConditionExpression=cond, ...)]: replaces the
    whole item when the condition holds of the current one, and raises
    [ConditionalCheckFailedException] without writing when it does not. *)
Definition put_item (item : Item) (cond : Condition) : M () :=
  request (PutItem item cond) (λ t,
    match item !! FIELD_KEY with
    | Some (Str key) =>
        if eval_condition cond (default ∅ (lookup_item t key))
        then (Return (), <[key := item]> t)
        else (Raise (ClientError "ConditionalCheckFailedException"), t)
    | _ => (Raise (ClientError "ValidationException"), t)
    end).

(** [table.update_item(Key={FIELD_KEY: key}, UpdateExpression="SET ...")]:
    unconditional; it edits the stored item in place and creates it, with
    only the key and the assigned attributes, when there is none. *)
Definition update_item (key : string) (sets : list (string * AttributeValue)) : M () :=
  request (UpdateItem key sets) (λ t,
    (Return (),
     <[key := apply_set sets (default {[FIELD_KEY := Str key]} (lookup_item t key))]> t)).

(** [d[name]] on a Python dict. *)
Definition subscript (item : Item) (name : string) : M AttributeValue :=
  match item !! name with
  | Some v => ret v
  | None => raise (KeyError name)
  end.

(** ** class S3Lock *)

Record S3Lock := {
  _key : string;
  _execution_id : string;
}.

(** [S3Lock.getCurrentSequencer]. *)
Definition getCurrentSequencer (self : S3Lock) : M (option string) :=
  response ← get_item (_key self);
  match response with
  | Some item =>
      locked ← subscript item FIELD_LOCK_STATUS;
      sequencer ← subscript item FIELD_SEQUENCER;
      if truthy locked then raise ItemLockedException
      else mret (to_python sequencer)
  | None => mret None
  end.

(** The condition of [lockForSequencer]:
    [attribute_not_exists(s3key) OR
     (sequencer = :old_sequencer and lock_status = :empty_lock)]. *)
Definition lock_condition (oldSequencer : option string) : Condition :=
  CondOr (attribute_not_exists FIELD_KEY)
         (CondAnd (CondEq FIELD_SEQUENCER (to_attribute oldSequencer))
                  (CondEq FIELD_LOCK_STATUS (Str LOCK_VALUE_UNLOCKED))).

Definition lock_item (self : S3Lock) (newSequencer : string) : Item :=
  <[FIELD_KEY := Str (_key self)]>
  (<[FIELD_SEQUENCER := Str newSequencer]>
  (<[FIELD_LOCK_STATUS := Str LOCK_VALUE_LOCKED]>
  (<[FIELD_UPDATED_BY := Str (_execution_id self)]> ∅))).

(** [S3Lock.lockForSequencer]. *)
Definition lockForSequencer (self : S3Lock) (oldSequencer : option string)
    (newSequencer : string) : M bool := λ w,
  match put_item (lock_item self newSequencer) (lock_condition oldSequencer) w with
  | (Raise (ClientError code), w1) =>
      if String.eqb code "ConditionalCheckFailedException"
      then (Return false, w1)
      else (Raise (ClientError code), w1)
  | (Raise e, w1) => (Raise e, w1)
  | (OutOfFuel, w1) => (OutOfFuel, w1)
  | (Return _, w1) => (Return true, w1)
  end.

(** [S3Lock.unlockAndRollBack]. *)
Definition unlockAndRollBack (self : S3Lock) (to_sequencer : option string) : M () :=
  update_item (_key self)
    [(FIELD_LOCK_STATUS, Str LOCK_VALUE_UNLOCKED);
     (FIELD_UPDATED_BY, Str (_execution_id self));
     (FIELD_SEQUENCER, to_attribute to_sequencer)].

(** [S3Lock.unlock]. *)
Definition unlock (self : S3Lock) : M () :=
  update_item (_key self)
    [(FIELD_LOCK_STATUS, Str LOCK_VALUE_UNLOCKED);
     (FIELD_UPDATED_BY, Str (_execution_id self))].

(** ** handle_notification_if_up_to_date *)

(** [oldsequencer is None or oldsequencer < sequencer], with Python's
    ordering of [str] (code point by code point; here byte by byte). *)
Definition is_older (oldsequencer : option string) (sequencer : string) : bool :=
  match oldsequencer with
  | None => true
  | Some old => String.ltb old sequencer
  end.

(** The default [backoff_fn]: [_backoff] sleeps for a random time below one
    second and returns. *)
Definition _backoff : Res () := Return ().

Section Coordinator.
Context {Ctx Value : Type}.

(** A call of [processing_fn(event, context)].  The callback does its own
    work elsewhere; for the lock it is a value or an exception. *)
Definition call_processing (processing_fn : Event → Ctx → Res Value)
    (event : Event) (context : Ctx) : M Value := λ w,
  (processing_fn event context, log (Processing event) w).

(** A call of [backoff_fn()]. *)
Definition call_backoff (backoff_fn : Res ()) : M () := λ w,
  (backoff_fn, log Backoff w).

(** The [while True] loop, bounded by [fuel] iterations.  No local variable
    survives from one iteration to the next ([rv] is assigned only right
    before a [break]), so an iteration that does not break is followed by
    the same function on what is left of the fuel. *)
Fixpoint handle_notification_if_up_to_date (fuel : nat) (event : Event)
    (context : Ctx) (lock : S3Lock)
    (processing_fn : Event → Ctx → Res Value) (backoff_fn : Res ())
    : M (Z * option Value) :=
  match fuel with
  | O => lift OutOfFuel
  | S fuel =>
      let sequencer := detail_object_sequencer event in
      let continue :=
        handle_notification_if_up_to_date fuel event context lock
          processing_fn backoff_fn in
      λ w,
      match getCurrentSequencer lock w with
      | (Raise ItemLockedException, w1) =>
          (call_backoff backoff_fn;; continue) w1
      | (Raise e, w1) => (Raise e, w1)
      | (OutOfFuel, w1) => (OutOfFuel, w1)
      | (Return oldsequencer, w1) =>
          (if is_older oldsequencer sequencer then
             locked ← lockForSequencer lock oldsequencer sequencer;
             if negb locked then
               call_backoff backoff_fn;; continue
             else λ w2,
               match call_processing processing_fn event context w2 with
               | (Return v, w3) =>
                   (unlock lock;; mret (OUTCOME_PROCESSED, Some v)) w3
               | (Raise e, w3) =>
                   (unlockAndRollBack lock oldsequencer;; raise e) w3
               | (OutOfFuel, w3) => (OutOfFuel, w3)
               end
           else mret (OUTCOME_OUT_OF_DATE, None)) w1
      end
  end.
End Coordinator.


(** ** Reading the table *)

(** What the stored record says, as a reader of the table sees it. *)
Definition stored_attribute (t : Table) (key name : string) : option AttributeValue :=
  lookup_item t key ≫= (λ item, item !! name).

(** The sequencer stored for [key]; [None] when the key is unseen (no
    record, or a record rolled back to the unseen state). *)
Definition stored_sequencer (t : Table) (key : string) : option string :=
  stored_attribute t key FIELD_SEQUENCER ≫= to_python.

(** The order on sequencers, with the unseen state below every string. *)
Definition seq_le (a b : option string) : Prop :=
  match a, b with
  | None, _ => True
  | Some x, Some y => String.leb x y = true
  | Some _, None => False
  end.

(** ** Several workers on one table *)

(** The program points of [handle_notification_if_up_to_date] between two
    calls: each names the call that comes next and carries the local
    variables that are live there. *)
Inductive Pc {Value : Type} :=
| AtRead
| AtBackoff
| AtLock (oldsequencer : option string)
| AtProcessing (oldsequencer : option string)
| AtUnlock (oldsequencer : option string) (v : Value)
| AtRollBack (oldsequencer : option string) (e : Exception)
| Returned (rv : Z * option Value)
| Raised (e : Exception).
Arguments Pc : clear implicits.

Section Workers.
Context {Ctx Value : Type}.

(** One invocation of the handler: its arguments and where it stands. *)
Record Worker := {
  wk_event : Event;
  wk_context : Ctx;
  wk_lock : S3Lock;
  wk_processing_fn : Event → Ctx → Res Value;
  wk_backoff_fn : Res ();
  wk_pc : Pc Value;
}.

Definition at_pc (wk : Worker) (pc : Pc Value) : Worker :=
  {| wk_event := wk_event wk; wk_context := wk_context wk;
     wk_lock := wk_lock wk; wk_processing_fn := wk_processing_fn wk;
     wk_backoff_fn := wk_backoff_fn wk; wk_pc := pc |}.

(** The outcome of a call decides the next program point. *)
Definition goto {A} (m : M A) (next : A → Pc Value)
    (handler : Exception → Pc Value) : M (Pc Value) := λ w,
  match m w with
  | (Return a, w1) => (Return (next a), w1)
  | (Raise e, w1) => (Return (handler e), w1)
  | (OutOfFuel, w1) => (OutOfFuel, w1)
  end.

(** One call of the handler, from one program point to the next. *)
Definition step (wk : Worker) : M (Pc Value) :=
  let sequencer := detail_object_sequencer (wk_event wk) in
  match wk_pc wk with
  | AtRead =>
      goto (getCurrentSequencer (wk_lock wk))
        (λ oldsequencer,
           if is_older oldsequencer sequencer then AtLock oldsequencer
           else Returned (OUTCOME_OUT_OF_DATE, None))
        (λ e, match e with
              | ItemLockedException => AtBackoff
              | _ => Raised e
              end)
  | AtBackoff =>
      goto (call_backoff (wk_backoff_fn wk)) (λ _, AtRead) Raised
  | AtLock oldsequencer =>
      goto (lockForSequencer (wk_lock wk) oldsequencer sequencer)
        (λ locked : bool,
           if negb locked then AtBackoff else AtProcessing oldsequencer)
        Raised
  | AtProcessing oldsequencer =>
      goto (call_processing (wk_processing_fn wk) (wk_event wk) (wk_context wk))
        (λ v, AtUnlock oldsequencer v)
        (λ e, AtRollBack oldsequencer e)
  | AtUnlock oldsequencer v =>
      goto (unlock (wk_lock wk))
        (λ _, Returned (OUTCOME_PROCESSED, Some v)) Raised
  | AtRollBack oldsequencer e =>
      goto (unlockAndRollBack (wk_lock wk) oldsequencer) (λ _, Raised e) Raised
  | Returned rv => mret (Returned rv)
  | Raised e => mret (Raised e)
  end.

(** A worker run on its own for [n] calls. *)
Fixpoint steps (n : nat) (wk : Worker) : M (Pc Value) :=
  match n with
  | O => mret (wk_pc wk)
  | S n => pc ← step wk; steps n (at_pc wk pc)
  end.

(** The workers that share the table, and the sequencer last accepted for
    each key: the one stored when the key was last left unlocked by a
    completed notification (a ghost variable; the table as first found
    counts as accepted). *)
Record System := {
  sys_world : World;
  sys_workers : list Worker;
  sys_accepted : string → option string;
}.

Definition initial (s : System) : Prop :=
  env (sys_world s) = [] ∧
  (∀ i wk, sys_workers s !! i = Some wk → wk_pc wk = AtRead) ∧
  (∀ key, sys_accepted s key = stored_sequencer (table (sys_world s)) key).

(** The accepted sequencer moves when, and only when, a worker completes
    the success path: [unlock] has returned. *)
Definition accept (wk : Worker) (pc' : Pc Value)
    (accepted : string → option string) : string → option string :=
  match wk_pc wk, pc' with
  | AtUnlock _ _, Returned _ =>
      λ key, if decide (key = _key (wk_lock wk))
             then Some (detail_object_sequencer (wk_event wk))
             else accepted key
  | _, _ => accepted
  end.

(** Worker [i] makes its next call. *)
Inductive sys_step (i : nat) (s : System) : System → Prop :=
| sys_step_call wk pc' w' :
    sys_workers s !! i = Some wk →
    step wk (sys_world s) = (Return pc', w') →
    sys_step i s
      {| sys_world := w';
         sys_workers := <[i := at_pc wk pc']> (sys_workers s);
         sys_accepted := accept wk pc' (sys_accepted s) |}.

Definition sys_steps (s s' : System) : Prop := ∃ i, sys_step i s s'.

Definition reachable (s : System) : Prop :=
  ∃ s0, initial s0 ∧ rtc sys_steps s0 s.

(** Worker [i] makes its next call, when it has one to make; a schedule is
    a list of such turns. *)
Definition advance (i : nat) (s : System) : System :=
  match sys_workers s !! i with
  | Some wk =>
      match step wk (sys_world s) with
      | (Return pc', w') =>
          {| sys_world := w';
             sys_workers := <[i := at_pc wk pc']> (sys_workers s);
             sys_accepted := accept wk pc' (sys_accepted s) |}
      | _ => s
      end
  | None => s
  end.

Definition run_schedule (schedule : list nat) (s : System) : System :=
  foldl (λ s i, advance i s) s schedule.

(** A worker at the start of the handler, and a system at its start. *)
Definition worker (event : Event) (context : Ctx) (lock : S3Lock)
    (processing_fn : Event → Ctx → Res Value) (backoff_fn : Res ()) : Worker :=
  {| wk_event := event; wk_context := context; wk_lock := lock;
     wk_processing_fn := processing_fn; wk_backoff_fn := backoff_fn;
     wk_pc := AtRead |}.

Definition start (t : Table) (ws : list Worker) : System :=
  {| sys_world := {| table := t; env := []; trace := [] |};
     sys_workers := (λ wk, at_pc wk AtRead) <$> ws;
     sys_accepted := stored_sequencer t |}.

(** The program point at which a finished run of the loop stands. *)
Definition final_pc (r : Res (Z * option Value)) : option (Pc Value) :=
  match r with
  | Return rv => Some (Returned rv)
  | Raise e => Some (Raised e)
  | OutOfFuel => None
  end.

(** Worker [i] is about to roll the record of [key] back. *)
Definition rolls_back (s : System) (i : nat) (key : string) : Prop :=
  ∃ wk oldsequencer e,
    sys_workers s !! i = Some wk ∧
    wk_pc wk = AtRollBack oldsequencer e ∧
    _key (wk_lock wk) = key.
End Workers.
Arguments Worker : clear implicits.
Arguments System : clear implicits.

(** ** Vocabulary of the statements *)

(** An environment step that leaves the record of [key] alone and lets the
    request through: the other clients respect the lock. *)
Definition quiet (key : string) (s : EnvStep) : Prop :=
  fault s = None ∧ ∀ t, others s t !! key = t !! key.

(** The table and the service as the next request will find them. *)
Definition next_table (w : World) : Table := table (arrive w).1.
Definition next_fault (w : World) : option ServiceFault := (arrive w).2.

(** The world once the next request has been recorded. *)
Definition arrived (c : Call) (w : World) : World := log c (arrive w).1.

(** The record [key] has when it is unlocked with sequencer [seq] (or
    unseen, as after a roll back to the unseen state). *)
Definition unlocked_with (t : Table) (key : string) (seq : option string) : Prop :=
  stored_attribute t key FIELD_LOCK_STATUS = Some (Str LOCK_VALUE_UNLOCKED) ∧
  stored_attribute t key FIELD_SEQUENCER = Some (to_attribute seq).

Definition locked_with (t : Table) (key : string) (seq : string) : Prop :=
  stored_attribute t key FIELD_LOCK_STATUS = Some (Str LOCK_VALUE_LOCKED) ∧
  stored_attribute t key FIELD_SEQUENCER = Some (Str seq).

(** What [lockForSequencer] asks of the table: no record for the key, or a
    record that is unlocked and carries the expected sequencer. *)
Definition lock_is_free (t : Table) (key : string) (expected : option string) : Prop :=
  t !! key = None ∨ unlocked_with t key expected.

(** The precondition of the compare-and-swap in the words of the
    specification: either no record exists and the expected sequencer stands
    for the unseen state, or the record carries the expected sequencer and
    the expected lock status (which, for this method, is always unlocked).
    It is compared below with what [lockForSequencer] does. *)
Definition cas_precondition_as_specified (t : Table) (key : string)
    (expected : option string) : Prop :=
  (t !! key = None ∧ expected = None) ∨ unlocked_with t key expected.

(** The assignments of [unlock] and of [unlockAndRollBack], as they appear
    in the trace. *)
Definition unlock_sets (self : S3Lock) : list (string * AttributeValue) :=
  [(FIELD_LOCK_STATUS, Str LOCK_VALUE_UNLOCKED);
   (FIELD_UPDATED_BY, Str (_execution_id self))].

Definition rollback_sets (self : S3Lock) (to_sequencer : option string)
    : list (string * AttributeValue) :=
  [(FIELD_LOCK_STATUS, Str LOCK_VALUE_UNLOCKED);
   (FIELD_UPDATED_BY, Str (_execution_id self));
   (FIELD_SEQUENCER, to_attribute to_sequencer)].

(** The calls of a trace that write to the table. *)
Definition is_write (c : Call) : bool :=
  match c with
  | PutItem _ _ | UpdateItem _ _ => true
  | _ => false
  end.

Definition is_processing (c : Call) : bool :=
  match c with
  | Processing _ => true
  | _ => false
  end.

(** ** The coordination invariant *)

Section Coordination.
Context {Ctx Value : Type}.

(** Between a successful [lockForSequencer] and the [update_item] that
    ends the invocation, a worker holds the lock of its key; it remembers
    the sequencer it read before. *)
Definition holds_lock (pc : Pc Value) : option (option string) :=
  match pc with
  | AtProcessing old | AtUnlock old _ | AtRollBack old _ => Some old
  | _ => None
  end.

Definition key_of (wk : Worker Ctx Value) : string := _key (wk_lock wk).
Definition seq_of (wk : Worker Ctx Value) : string := detail_object_sequencer (wk_event wk).

(** The coordination invariant of a system in which every client of the
    table is a worker of the system. *)
Record coordinated (s : System Ctx Value) : Prop := {
  (* nobody else writes, and the service answers *)
  co_closed : env (sys_world s) = [];
  (* a holder's record is locked with its sequencer, the accepted
     sequencer is the one it read, and that one is older *)
  co_holder : ∀ i wk old,
    sys_workers s !! i = Some wk → holds_lock (wk_pc wk) = Some old →
    locked_with (table (sys_world s)) (key_of wk) (seq_of wk) ∧
    sys_accepted s (key_of wk) = old ∧
    is_older old (seq_of wk) = true;
  (* a key has at most one holder *)
  co_exclusive : ∀ i j wk wk' old old',
    sys_workers s !! i = Some wk → sys_workers s !! j = Some wk' →
    holds_lock (wk_pc wk) = Some old → holds_lock (wk_pc wk') = Some old' →
    key_of wk = key_of wk' → i = j;
  (* a worker about to lock has read an older sequencer, from a record
     that is still there *)
  co_reader : ∀ i wk old,
    sys_workers s !! i = Some wk → wk_pc wk = AtLock old →
    is_older old (seq_of wk) = true ∧
    (old ≠ None → table (sys_world s) !! key_of wk ≠ None);
  (* on a key that nobody holds, the stored sequencer is the accepted one *)
  co_free : ∀ key,
    (∀ i wk old, sys_workers s !! i = Some wk →
                 holds_lock (wk_pc wk) = Some old → key_of wk ≠ key) →
    sys_accepted s key = stored_sequencer (table (sys_world s)) key;
  (* the stored sequencer is never below the accepted one *)
  co_above : ∀ key,
    seq_le (sys_accepted s key) (stored_sequencer (table (sys_world s)) key);
}.

(** What one call of a worker can do to the table and to the worker. *)
Inductive transition (wk : Worker Ctx Value) (t : Table)
    (pc' : Pc Value) (t' : Table) : Prop :=
| tr_silent :
    t' = t →
    holds_lock pc' = holds_lock (wk_pc wk) →
    (∀ accepted, accept wk pc' accepted = accepted) →
    (∀ old, pc' = AtLock old →
            is_older old (seq_of wk) = true ∧
            (old ≠ None → t !! key_of wk ≠ None)) →
    transition wk t pc' t'
| tr_acquire old :
    wk_pc wk = AtLock old →
    pc' = AtProcessing old →
    t !! key_of wk = None ∨ unlocked_with t (key_of wk) old →
    t' = <[key_of wk := lock_item (wk_lock wk) (seq_of wk)]> t →
    transition wk t pc' t'
| tr_commit old v :
    wk_pc wk = AtUnlock old v →
    pc' = Returned (OUTCOME_PROCESSED, Some v) →
    (∀ key, key ≠ key_of wk → t' !! key = t !! key) →
    t' !! key_of wk ≠ None →
    stored_sequencer t' (key_of wk) = stored_sequencer t (key_of wk) →
    transition wk t pc' t'
| tr_rollback old e :
    wk_pc wk = AtRollBack old e →
    pc' = Raised e →
    (∀ key, key ≠ key_of wk → t' !! key = t !! key) →
    t' !! key_of wk ≠ None →
    stored_sequencer t' (key_of wk) = old →
    transition wk t pc' t'.
End Coordination.

(** ** app.py: the Lambda entry point *)

(** The event as [lambda_handler] reads it: the entries the handler reads,
    and [event['detail']['object'].get('version-id')], which may be absent. *)
Record LambdaEvent := {
  event_detail : Event;
  detail_object_version_id : option string;
}.

(** The Lambda context, of which only [aws_request_id] is used. *)
Record LambdaContext := {
  aws_request_id : string;
}.

(** [f"{input_bucket}/{input_key}{version_suffix}"] with
    [version_suffix = '#' + (input_version_id or '')]. *)
Definition input_full_key (event : LambdaEvent) : string :=
  let input_bucket := detail_bucket_name (event_detail event) in
  let input_key := detail_object_key (event_detail event) in
  let input_version_id := detail_object_version_id event in
  let version_suffix := ("#" ++ default "" input_version_id)%string in
  (input_bucket ++ "/" ++ input_key ++ version_suffix)%string.

Section App.
Context {Value : Type}.

(** The event object that reaches [processing_fn] is the one the Lambda
    received: the handler passes it on untouched. *)
Definition same_event (event : LambdaEvent) (detail : Event) : LambdaEvent :=
  {| event_detail := detail;
     detail_object_version_id := detail_object_version_id event |}.

(** [lambda_handler], with the environment variable [COORDINATION] and the
    processing function [do_work] as parameters.  The value returned is
    [result]: what [do_work] returned, or [None] when the handler skipped
    the notification. *)
Definition lambda_handler (fuel : nat) (_COORDINATION : string)
    (do_work : LambdaEvent → LambdaContext → Res Value)
    (event : LambdaEvent) (context : LambdaContext) : M (option Value) :=
  if String.eqb _COORDINATION "off" then
    result ← call_processing (λ detail, do_work (same_event event detail))
               (event_detail event) context;
    mret (Some result)
  else
    rv ← handle_notification_if_up_to_date fuel (event_detail event) context
           {| _key := input_full_key event;
              _execution_id := aws_request_id context |}
           (λ detail, do_work (same_event event detail)) _backoff;
    mret rv.2.
End App.

(** ** Runs of the handler *)

(** The calls made between two worlds of one run. *)
Definition calls_since (w w' : World) : list Call :=
  drop (length (trace w)) (trace w').

Definition is_update (c : Call) : bool :=
  match c with
  | UpdateItem _ _ => true
  | _ => false
  end.

(** The calls that concern the record of [key]: every callback call, and the
    requests that name [key]. *)
Definition on_key (key : string) (c : Call) : bool :=
  match c with
  | GetItem k => String.eqb k key
  | PutItem item _ => bool_decide (item !! FIELD_KEY = Some (Str key))
  | UpdateItem k _ => String.eqb k key
  | Backoff | Processing _ => true
  end.

(** [n] rounds of "read, find the record locked, back off". *)
Fixpoint waiting (key : string) (n : nat) : list Call :=
  match n with
  | O => []
  | S n => GetItem key :: Backoff :: waiting key n
  end.

(** Notifications delivered one after the other, each by an invocation of
    the handler on the same key; the outcomes in order. *)
Fixpoint deliver_each {Ctx Value : Type} (fuel : nat) (events : list Event)
    (context : Ctx) (lock : S3Lock)
    (processing_fn : Event → Ctx → Res Value) (backoff_fn : Res ())
    : M (list (Z * option Value)) :=
  match events with
  | [] => mret []
  | event :: rest =>
      rv ← handle_notification_if_up_to_date fuel event context lock
             processing_fn backoff_fn;
      rvs ← deliver_each fuel rest context lock processing_fn backoff_fn;
      mret (rv :: rvs)
  end.

(** The key is at rest: never seen, or unlocked with sequencer [cur]. *)
Definition at_rest (t : Table) (key : string) (cur : option string) : Prop :=
  (t !! key = None ∧ cur = None) ∨ unlocked_with t key cur.

(** The sequencer a key at rest with [cur] has after notifications that are
    delivered in order and processed without error: the running maximum. *)
Definition accepted_after (cur : option string) (events : list Event) : option string :=
  foldl (λ cur event,
           if is_older cur (detail_object_sequencer event)
           then Some (detail_object_sequencer event) else cur)
        cur events.

(** The outcomes of those deliveries: a notification is processed exactly
    when its sequencer exceeds every one before it. *)
Fixpoint outcomes_after {Ctx Value : Type} (processing_fn : Event → Ctx → Res Value)
    (context : Ctx) (cur : option string) (events : list Event)
    : list (Z * option Value) :=
  match events with
  | [] => []
  | event :: rest =>
      if is_older cur (detail_object_sequencer event) then
        match processing_fn event context with
        | Return v =>
            (OUTCOME_PROCESSED, Some v)
            :: outcomes_after processing_fn context
                 (Some (detail_object_sequencer event)) rest
        | _ => []
        end
      else
        (OUTCOME_OUT_OF_DATE, None)
        :: outcomes_after processing_fn context cur rest
  end.

(** Every locked record has its holder: a worker of the system that is
    between its [lockForSequencer] and its [update_item] on that key. *)
Definition every_lock_is_held {Ctx Value : Type} (s : System Ctx Value) : Prop :=
  ∀ key,
    stored_attribute (table (sys_world s)) key FIELD_LOCK_STATUS
    = Some (Str LOCK_VALUE_LOCKED) →
    ∃ i wk old,
      sys_workers s !! i = Some wk ∧
      holds_lock (wk_pc wk) = Some old ∧
      key_of wk = key.

(** An environment step in which nobody else writes the table; the store
    may still fail the request. *)
Definition only_faults (s : EnvStep) : Prop := ∀ t, others s t = t.

(** Every locked record is accounted for by a worker of the system on that
    key, for whose notification it is locked: one that holds the lock, or
    one that an error of the store has stopped. *)
Definition every_lock_is_accounted_for {Ctx Value : Type} (s : System Ctx Value) : Prop :=
  ∀ key,
    stored_attribute (table (sys_world s)) key FIELD_LOCK_STATUS
    = Some (Str LOCK_VALUE_LOCKED) →
    ∃ i wk,
      sys_workers s !! i = Some wk ∧
      key_of wk = key ∧
      locked_with (table (sys_world s)) key (seq_of wk) ∧
      ((∃ old, holds_lock (wk_pc wk) = Some old)
       ∨ (∃ f, wk_pc wk = Raised (fault_exception f))).

(** Whether a character occurs in a string. *)
Fixpoint occurs (c : Ascii.ascii) (s : string) : bool :=
  match s with
  | EmptyString => false
  | String a rest => Ascii.eqb a c || occurs c rest
  end.

(** ** Scenarios *)

(** A lock record with its four attributes. *)
Definition record (key : string) (sequencer : option string)
    (lock_status updated_by : string) : Item :=
  <[FIELD_KEY := Str key]>
  (<[FIELD_SEQUENCER := to_attribute sequencer]>
  (<[FIELD_LOCK_STATUS := Str lock_status]>
  (<[FIELD_UPDATED_BY := Str updated_by]> ∅))).

(** The S3 object [foo] of bucket [bar], and the lock on it taken by the
    invocation [execution_id]. *)
Definition notification (sequencer : string) : Event :=
  {| detail_object_sequencer := sequencer;
     detail_bucket_name := "bar";
     detail_object_key := "foo" |}.

Definition lock_of (execution_id : string) : S3Lock :=
  {| _key := "bar/foo"; _execution_id := execution_id |}.

(** A table with at most the record of [bar/foo]. *)
Definition table_with (r : option Item) : Table :=
  match r with
  | Some item => {[ "bar/foo" := item ]}
  | None => ∅
  end.

(** A worker alone on the table, and a worker with a schedule of what the
    others do before each of its requests. *)
Definition alone (t : Table) : World := {| table := t; env := []; trace := [] |}.

Definition among (t : Table) (schedule : list EnvStep) : World :=
  {| table := t; env := schedule; trace := [] |}.

Definition nothing_happens : EnvStep := {| others := λ t, t; fault := None |}.

Definition another_writes (item : Item) : EnvStep :=
  {| others := λ t, <[ "bar/foo" := item ]> t; fault := None |}.

Definition service_fails (f : ServiceFault) : EnvStep :=
  {| others := λ t, t; fault := Some f |}.

(** Callbacks of the tests: one that returns ["hello"], one that raises. *)
Definition says_hello : Event → () → Res string := λ _ _, Return "hello".
Definition fails : Event → () → Res string :=
  λ _ _, Raise (OtherException "RuntimeError").

(** The worlds of the scenario "sequencer 0 is stored, notification 1
    arrives": after the read, and after the lock is taken. *)
Definition stored_0 : World := alone (table_with (Some (record "bar/foo" (Some "0") "" "req-0"))).
Definition stored_0_read : World := (getCurrentSequencer (lock_of "req-1") stored_0).2.
Definition stored_0_locked : World :=
  (lockForSequencer (lock_of "req-1") (Some "0") "1" stored_0_read).2.

(** The scenario "sequencer 05 is stored, notification 10 arrives, and
    between its read and its write another invocation completes 20". *)
Definition raced : World :=
  among (table_with (Some (record "bar/foo" (Some "05") "" "req-0")))
    [nothing_happens; another_writes (record "bar/foo" (Some "20") "" "req-2")].
Definition raced_read : World := (getCurrentSequencer (lock_of "req-1") raced).2.
Definition raced_lost : World :=
  (lockForSequencer (lock_of "req-1") (Some "05") "10" raced_read).2.

(** The scenario "the record is locked for 20 by another invocation, which
    completes while this one backs off". *)
Definition contended : World :=
  among (table_with (Some (record "bar/foo" (Some "20") "locked" "req-2")))
    [nothing_happens; another_writes (record "bar/foo" (Some "20") "" "req-2")].

(** More worlds of the tests: a stored sequencer [1f]; a record locked for
    [10] by another invocation; a key never seen. *)
Definition stored_1f : World :=
  alone (table_with (Some (record "bar/foo" (Some "1f") "" "req-0"))).
Definition locked_10_item : Item := record "bar/foo" (Some "10") "locked" "req-0".
Definition locked_10 : World := alone (table_with (Some locked_10_item)).
Definition stored_05 : World :=
  alone (table_with (Some (record "bar/foo" (Some "05") "" "req-0"))).
Definition unseen : World := alone (table_with None).

(** Two invocations on the key, never seen before: [req-1] delivers [10]
    and its processing fails, [req-2] delivers [20]. *)
Definition two_workers : System () string :=
  start (table_with None)
    [worker (notification "10") () (lock_of "req-1") fails _backoff;
     worker (notification "20") () (lock_of "req-2") says_hello _backoff].

(** Both read, [req-1] takes the lock, [req-2] fails to, the processing of
    [req-1] fails: [req-1] is about to roll back. *)
Definition before_roll_back : System () string :=
  run_schedule [0; 1; 0; 1; 0]%nat two_workers.
Definition after_roll_back : System () string := advance 0 before_roll_back.

(** The scenario "sequencer 0 is stored, notification 1 arrives", further:
    after the unlock, and after a roll back instead. *)
Definition stored_0_unlocked : World := (unlock (lock_of "req-1") stored_0_locked).2.
Definition stored_0_rolled_back : World :=
  (unlockAndRollBack (lock_of "req-1") (Some "0") stored_0_locked).2.

(** The same scenario with a store that fails the third request, the
    [update_item]. *)
Definition failing_late : World :=
  among (table_with (Some (record "bar/foo" (Some "0") "" "req-0")))
    [nothing_happens; nothing_happens; service_fails InternalError].
Definition failing_late_read : World := (getCurrentSequencer (lock_of "req-1") failing_late).2.
Definition failing_late_locked : World :=
  (lockForSequencer (lock_of "req-1") (Some "0") "1" failing_late_read).2.

(** A store that fails the first request. *)
Definition failing_early : World := among (table_with None) [service_fails Throttled].

(** The record locked for [10], as the first read of [req-1] leaves it. *)
Definition locked_10_read : World := (getCurrentSequencer (lock_of "req-1") locked_10).2.

(** A backoff that raises, as in the tests. *)
Definition backoff_fails : Res () := Raise (OtherException "Exception").

(** Three notifications in the order of their arrival. *)
Definition three_notifications : list Event :=
  [notification "10"; notification "05"; notification "20"].

(** Events of the Lambda for the object [foo] of bucket [bar]. *)
Definition lambda_event (version_id : option string) (sequencer : string) : LambdaEvent :=
  {| event_detail := notification sequencer;
     detail_object_version_id := version_id |}.

Definition lambda_context (request_id : string) : LambdaContext :=
  {| aws_request_id := request_id |}.

Definition does_work : LambdaEvent → LambdaContext → Res string := λ _ _, Return "done".

(** One invocation on a new key, with a store that fails its third
    request, the [update_item] of [unlock]; and the state it ends in. *)
Definition unlock_will_fail : System () string :=
  {| sys_world :=
       among (table_with None)
         [nothing_happens; nothing_happens; service_fails InternalError];
     sys_workers := [worker (notification "10") () (lock_of "req-1") says_hello _backoff];
     sys_accepted := stored_sequencer (table_with None) |}.
Definition lock_left_behind : System () string :=
  run_schedule [0; 0; 0; 0]%nat unlock_will_fail.

(** The worker of [before_roll_back] that holds the lock. *)
Definition rolling_back : Worker () string :=
  at_pc (worker (notification "10") () (lock_of "req-1") fails _backoff)
    (AtRollBack None (OtherException "RuntimeError")).

(** One invocation of the handler on the key, with iterations to spare. *)
Definition deliver (sequencer : string) (processing_fn : Event → () → Res string)
    (w : World) : Res (Z * option string) * World :=
  handle_notification_if_up_to_date 3 (notification sequencer) ()
    (lock_of "req") processing_fn _backoff w.

(** * Properties *)

(** ** Strings, attributes, items *)

Lemma ltb_false_leb (a b : string) : String.ltb a b = false ↔ String.leb b a = true.
Proof.
  unfold String.ltb, String.leb. rewrite (String.compare_antisym a b).
  destruct (String.compare b a); simpl; split; congruence.
Qed.

Lemma ltb_leb (a b : string) : String.ltb a b = true → String.leb a b = true.
Proof.
  unfold String.ltb, String.leb. destruct (String.compare a b); congruence.
Qed.

Lemma leb_refl (a : string) : String.leb a a = true.
Proof. destruct (String.leb_total a a); assumption. Qed.

Lemma seq_le_refl (a : option string) : seq_le a a.
Proof. destruct a; simpl; [apply leb_refl | exact I]. Qed.

Lemma is_older_seq_le (old : option string) (s : string) :
  is_older old s = true → seq_le old (Some s).
Proof. destruct old; simpl; [apply ltb_leb | trivial]. Qed.

Lemma is_older_stale (old s : string) :
  String.leb s old = true → is_older (Some old) s = false.
Proof. intros H. simpl. apply ltb_false_leb. exact H. Qed.

Lemma to_python_to_attribute (o : option string) : to_python (to_attribute o) = o.
Proof. destruct o; reflexivity. Qed.

Lemma to_attribute_to_python (v : AttributeValue) : to_attribute (to_python v) = v.
Proof. destruct v; reflexivity. Qed.

Lemma truthy_unlocked : truthy (Str LOCK_VALUE_UNLOCKED) = false.
Proof. reflexivity. Qed.

Lemma truthy_locked : truthy (Str LOCK_VALUE_LOCKED) = true.
Proof. reflexivity. Qed.

(** The four field names are pairwise distinct. *)
Lemma fields_distinct :
  FIELD_KEY ≠ FIELD_SEQUENCER ∧ FIELD_KEY ≠ FIELD_LOCK_STATUS ∧
  FIELD_KEY ≠ FIELD_UPDATED_BY ∧ FIELD_SEQUENCER ≠ FIELD_LOCK_STATUS ∧
  FIELD_SEQUENCER ≠ FIELD_UPDATED_BY ∧ FIELD_LOCK_STATUS ≠ FIELD_UPDATED_BY.
Proof. repeat split; discriminate. Qed.

Lemma lookup_item_None (t : Table) (key : string) :
  lookup_item t key = None ↔ t !! key = None.
Proof. unfold lookup_item. destruct (t !! key); simpl; split; congruence. Qed.

Lemma lookup_item_None_inv (t : Table) (key : string) (item : Item) :
  lookup_item t key = Some item → t !! key ≠ None.
Proof. intros H Hn. apply lookup_item_None in Hn. congruence. Qed.

Lemma lookup_item_insert_eq (t : Table) (key : string) (item : Item) :
  lookup_item (<[key := item]> t) key = Some (<[FIELD_KEY := Str key]> item).
Proof. unfold lookup_item. rewrite lookup_insert_eq. reflexivity. Qed.

Lemma lookup_item_insert_ne (t : Table) (key key' : string) (item : Item) :
  key ≠ key' → lookup_item (<[key := item]> t) key' = lookup_item t key'.
Proof. intros H. unfold lookup_item. rewrite lookup_insert_ne by exact H. reflexivity. Qed.

Lemma lookup_item_key (t : Table) (key : string) (item : Item) :
  lookup_item t key = Some item → item !! FIELD_KEY = Some (Str key).
Proof.
  unfold lookup_item. destruct (t !! key); simpl; [|discriminate].
  intros [= <-]. apply lookup_insert_eq.
Qed.

Lemma lookup_item_ext (t t' : Table) (key : string) :
  t' !! key = t !! key → lookup_item t' key = lookup_item t key.
Proof. unfold lookup_item. intros ->. reflexivity. Qed.

Lemma stored_attribute_ext (t t' : Table) (key name : string) :
  t' !! key = t !! key → stored_attribute t' key name = stored_attribute t key name.
Proof. unfold stored_attribute. intros H. rewrite (lookup_item_ext _ _ _ H). reflexivity. Qed.

Lemma stored_sequencer_ext (t t' : Table) (key : string) :
  t' !! key = t !! key → stored_sequencer t' key = stored_sequencer t key.
Proof. unfold stored_sequencer. intros H. rewrite (stored_attribute_ext _ _ _ _ H). reflexivity. Qed.

Lemma stored_attribute_insert_eq (t : Table) (key name : string) (item : Item) :
  stored_attribute (<[key := item]> t) key name = <[FIELD_KEY := Str key]> item !! name.
Proof. unfold stored_attribute. rewrite lookup_item_insert_eq. reflexivity. Qed.

Lemma stored_attribute_Some (t : Table) (key name : string) (v : AttributeValue) :
  stored_attribute t key name = Some v ↔
  ∃ item, lookup_item t key = Some item ∧ item !! name = Some v.
Proof.
  unfold stored_attribute. destruct (lookup_item t key) as [item|]; simpl.
  - split; [eauto | intros (? & [= <-] & ?); done].
  - split; [discriminate | intros (? & [=] & _)].
Qed.

(** ** The world and a request *)

Lemma next_table_empty_env (w : World) : env w = [] → next_table w = table w.
Proof. unfold next_table, arrive. intros ->. reflexivity. Qed.

Lemma next_fault_empty_env (w : World) : env w = [] → next_fault w = None.
Proof. unfold next_fault, arrive. intros ->. reflexivity. Qed.

Lemma env_arrive (w : World) : env (arrive w).1 = tail (env w).
Proof. unfold arrive. destruct (env w) eqn:E; simpl; rewrite ?E; reflexivity. Qed.

Lemma trace_arrive (w : World) : trace (arrive w).1 = trace w.
Proof. unfold arrive. destruct (env w); reflexivity. Qed.

Lemma table_arrived (c : Call) (w : World) : table (arrived c w) = next_table w.
Proof. reflexivity. Qed.

Lemma trace_arrived (c : Call) (w : World) : trace (arrived c w) = trace w ++ [c].
Proof. unfold arrived, arrive. destruct (env w); reflexivity. Qed.

Lemma env_arrived (c : Call) (w : World) : env (arrived c w) = tail (env w).
Proof. unfold arrived, arrive. destruct (env w) eqn:E; simpl; rewrite ?E; reflexivity. Qed.

Lemma next_table_log (c : Call) (w : World) : next_table (log c w) = next_table w.
Proof. unfold next_table, arrive. simpl. destruct (env w); reflexivity. Qed.

Lemma next_fault_log (c : Call) (w : World) : next_fault (log c w) = next_fault w.
Proof. unfold next_fault, arrive. simpl. destruct (env w); reflexivity. Qed.

Lemma request_eq {A} (c : Call) (op : Table → Res A * Table) (w : World) :
  request c op w =
  match next_fault w with
  | Some f => (Raise (fault_exception f), arrived c w)
  | None => ((op (next_table w)).1, with_table (op (next_table w)).2 (arrived c w))
  end.
Proof.
  unfold request, next_fault, next_table, arrived.
  destruct (arrive w) as [w1 [f|]]; simpl; [reflexivity|].
  destruct (op (table w1)); reflexivity.
Qed.

(** Quiet steps keep the record of the key as it is. *)
Lemma quiet_next_table (key : string) (w : World) :
  Forall (quiet key) (env w) → next_table w !! key = table w !! key.
Proof.
  unfold next_table, arrive. destruct (env w) as [|s rest]; [reflexivity|].
  intros H. inversion H as [|? ? [_ Hq] _]; subst. simpl. apply Hq.
Qed.

Lemma quiet_next_fault (key : string) (w : World) :
  Forall (quiet key) (env w) → next_fault w = None.
Proof.
  unfold next_fault, arrive. destruct (env w) as [|s rest]; [reflexivity|].
  intros H. inversion H as [|? ? [Hf _] _]; subst. exact Hf.
Qed.

Lemma quiet_tail (key : string) (l : list EnvStep) :
  Forall (quiet key) l → Forall (quiet key) (tail l).
Proof. intros H. destruct l; [exact H | inversion H; assumption]. Qed.

(** ** The methods of S3Lock, call by call *)

Lemma getCurrentSequencer_eq (self : S3Lock) (w : World) :
  getCurrentSequencer self w =
  (match next_fault w with
   | Some f => Raise (fault_exception f)
   | None =>
       match lookup_item (next_table w) (_key self) with
       | None => Return None
       | Some item =>
           match item !! FIELD_LOCK_STATUS, item !! FIELD_SEQUENCER with
           | None, _ => Raise (KeyError FIELD_LOCK_STATUS)
           | Some _, None => Raise (KeyError FIELD_SEQUENCER)
           | Some locked, Some sequencer =>
               if truthy locked then Raise ItemLockedException
               else Return (to_python sequencer)
           end
       end
   end, arrived (GetItem (_key self)) w).
Proof.
  unfold getCurrentSequencer, mbind, M_bind, bind, get_item.
  rewrite request_eq. destruct (next_fault w); [reflexivity|]. simpl.
  destruct (lookup_item (next_table w) (_key self)) as [item|]; [|reflexivity].
  unfold subscript.
  destruct (item !! FIELD_LOCK_STATUS) as [locked|]; [|reflexivity]. simpl.
  destruct (item !! FIELD_SEQUENCER) as [sequencer|]; [|reflexivity]. simpl.
  destruct (truthy locked); reflexivity.
Qed.

(** A read never writes. *)
Lemma getCurrentSequencer_world (self : S3Lock) (w : World) :
  (getCurrentSequencer self w).2 = arrived (GetItem (_key self)) w.
Proof. rewrite getCurrentSequencer_eq. reflexivity. Qed.

Lemma getCurrentSequencer_unlocked (self : S3Lock) (w : World) (old : option string) :
  next_fault w = None →
  unlocked_with (next_table w) (_key self) old →
  getCurrentSequencer self w = (Return old, arrived (GetItem (_key self)) w).
Proof.
  intros Hf [Hl Hs]. rewrite getCurrentSequencer_eq, Hf.
  apply stored_attribute_Some in Hl as (item & Hi & Hl).
  apply stored_attribute_Some in Hs as (item' & Hi' & Hs).
  rewrite Hi in Hi'. injection Hi' as <-.
  rewrite Hi, Hl, Hs, truthy_unlocked, to_python_to_attribute. reflexivity.
Qed.

Lemma getCurrentSequencer_unseen (self : S3Lock) (w : World) :
  next_fault w = None →
  next_table w !! _key self = None →
  getCurrentSequencer self w = (Return None, arrived (GetItem (_key self)) w).
Proof.
  intros Hf Hn. rewrite getCurrentSequencer_eq, Hf.
  apply lookup_item_None in Hn. rewrite Hn. reflexivity.
Qed.

(** A read that returns a string has found a record. *)
Lemma getCurrentSequencer_Some (self : S3Lock) (w w1 : World) (old : string) :
  getCurrentSequencer self w = (Return (Some old), w1) →
  next_table w !! _key self ≠ None.
Proof.
  rewrite getCurrentSequencer_eq. intros H Hn.
  apply lookup_item_None in Hn. rewrite Hn in H.
  destruct (next_fault w); discriminate.
Qed.

Lemma lock_item_key (self : S3Lock) (new : string) :
  lock_item self new !! FIELD_KEY = Some (Str (_key self)).
Proof. unfold lock_item. apply lookup_insert_eq. Qed.

Lemma lock_item_with_key (self : S3Lock) (new : string) :
  <[FIELD_KEY := Str (_key self)]> (lock_item self new) = lock_item self new.
Proof. apply insert_id, lock_item_key. Qed.

Lemma lock_item_sequencer (self : S3Lock) (new : string) :
  lock_item self new !! FIELD_SEQUENCER = Some (Str new).
Proof. unfold lock_item. rewrite lookup_insert_ne by discriminate. apply lookup_insert_eq. Qed.

Lemma lock_item_lock_status (self : S3Lock) (new : string) :
  lock_item self new !! FIELD_LOCK_STATUS = Some (Str LOCK_VALUE_LOCKED).
Proof.
  unfold lock_item. do 2 rewrite lookup_insert_ne by discriminate.
  apply lookup_insert_eq.
Qed.

(** The condition of [lockForSequencer], read off the table. *)
Lemma eval_lock_condition (t : Table) (key : string) (old : option string) :
  eval_condition (lock_condition old) (default ∅ (lookup_item t key)) = true ↔
  t !! key = None ∨ unlocked_with t key old.
Proof.
  unfold unlocked_with, stored_attribute.
  destruct (lookup_item t key) as [item|] eqn:Hi; simpl.
  - rewrite (lookup_item_key _ _ _ Hi). simpl.
    apply lookup_item_None_inv in Hi.
    destruct (item !! FIELD_SEQUENCER) as [s|], (item !! FIELD_LOCK_STATUS) as [l|];
      simpl; rewrite ?andb_true_iff, ?bool_decide_eq_true; intuition congruence.
  - apply lookup_item_None in Hi. rewrite lookup_empty. simpl. tauto.
Qed.

(** Case analysis on the condition that the goal evaluates. *)
Ltac case_condition E :=
  match goal with
  | |- context [eval_condition ?c ?i] => destruct (eval_condition c i) eqn:E
  | H : context [eval_condition ?c ?i] |- _ => destruct (eval_condition c i) eqn:E
  end.

Lemma with_table_same (w : World) : with_table (table w) w = w.
Proof. destruct w; reflexivity. Qed.

Lemma lockForSequencer_eq (self : S3Lock) (old : option string) (new : string) (w : World) :
  lockForSequencer self old new w =
  let c := PutItem (lock_item self new) (lock_condition old) in
  match next_fault w with
  | Some f => (Raise (fault_exception f), arrived c w)
  | None =>
      if eval_condition (lock_condition old)
           (default ∅ (lookup_item (next_table w) (_key self)))
      then (Return true,
            with_table (<[_key self := lock_item self new]> (next_table w)) (arrived c w))
      else (Return false, arrived c w)
  end.
Proof.
  unfold lockForSequencer, put_item. rewrite request_eq.
  destruct (next_fault w) as [f|]; [destruct f; reflexivity|].
  rewrite lock_item_key.
  case_condition E; reflexivity.
Qed.

Lemma lockForSequencer_true (self : S3Lock) (old : option string) (new : string)
    (w w2 : World) :
  lockForSequencer self old new w = (Return true, w2) →
  next_fault w = None ∧
  (next_table w !! _key self = None ∨ unlocked_with (next_table w) (_key self) old) ∧
  w2 = with_table (<[_key self := lock_item self new]> (next_table w))
         (arrived (PutItem (lock_item self new) (lock_condition old)) w).
Proof.
  rewrite lockForSequencer_eq. cbv zeta.
  destruct (next_fault w); [discriminate|].
  case_condition E; [|discriminate].
  intros [= <-]. apply eval_lock_condition in E. auto.
Qed.

Lemma lockForSequencer_false (self : S3Lock) (old : option string) (new : string)
    (w w2 : World) :
  lockForSequencer self old new w = (Return false, w2) →
  next_fault w = None ∧
  ¬ (next_table w !! _key self = None ∨ unlocked_with (next_table w) (_key self) old) ∧
  w2 = arrived (PutItem (lock_item self new) (lock_condition old)) w.
Proof.
  rewrite lockForSequencer_eq. cbv zeta.
  destruct (next_fault w); [discriminate|].
  case_condition E; [discriminate|].
  intros [= <-]. split; [reflexivity|]. split; [|reflexivity].
  intros H. apply eval_lock_condition in H. congruence.
Qed.

(** The record a successful [lockForSequencer] leaves. *)
Lemma locked_with_lock_item (self : S3Lock) (new : string) (t : Table) :
  locked_with (<[_key self := lock_item self new]> t) (_key self) new.
Proof.
  unfold locked_with. rewrite !stored_attribute_insert_eq, lock_item_with_key.
  split; [apply lock_item_lock_status | apply lock_item_sequencer].
Qed.

Lemma update_item_eq (key : string) (sets : list (string * AttributeValue)) (w : World) :
  update_item key sets w =
  match next_fault w with
  | Some f => (Raise (fault_exception f), arrived (UpdateItem key sets) w)
  | None =>
      (Return (),
       with_table
         (<[key := apply_set sets
                     (default {[FIELD_KEY := Str key]} (lookup_item (next_table w) key))]>
            (next_table w))
         (arrived (UpdateItem key sets) w))
  end.
Proof. unfold update_item. rewrite request_eq. destruct (next_fault w); reflexivity. Qed.

(** [update_item] keeps the key attribute of the item it edits, unless the
    assignment names it. *)
Lemma updated_item_key (t : Table) (key : string) :
  default {[FIELD_KEY := Str key]} (lookup_item t key) !! FIELD_KEY = Some (Str key).
Proof.
  destruct (lookup_item t key) as [item|] eqn:Hi; simpl.
  - exact (lookup_item_key _ _ _ Hi).
  - apply lookup_singleton_eq.
Qed.

Lemma unlock_eq (self : S3Lock) (w : World) :
  unlock self w =
  match next_fault w with
  | Some f => (Raise (fault_exception f), arrived (UpdateItem (_key self) (unlock_sets self)) w)
  | None =>
      (Return (),
       with_table
         (<[_key self :=
              <[FIELD_UPDATED_BY := Str (_execution_id self)]>
              (<[FIELD_LOCK_STATUS := Str LOCK_VALUE_UNLOCKED]>
              (default {[FIELD_KEY := Str (_key self)]}
                 (lookup_item (next_table w) (_key self))))]> (next_table w))
         (arrived (UpdateItem (_key self) (unlock_sets self)) w))
  end.
Proof. unfold unlock. rewrite update_item_eq. reflexivity. Qed.

Lemma unlockAndRollBack_eq (self : S3Lock) (to_sequencer : option string) (w : World) :
  unlockAndRollBack self to_sequencer w =
  match next_fault w with
  | Some f =>
      (Raise (fault_exception f),
       arrived (UpdateItem (_key self) (rollback_sets self to_sequencer)) w)
  | None =>
      (Return (),
       with_table
         (<[_key self :=
              <[FIELD_SEQUENCER := to_attribute to_sequencer]>
              (<[FIELD_UPDATED_BY := Str (_execution_id self)]>
              (<[FIELD_LOCK_STATUS := Str LOCK_VALUE_UNLOCKED]>
              (default {[FIELD_KEY := Str (_key self)]}
                 (lookup_item (next_table w) (_key self)))))]> (next_table w))
         (arrived (UpdateItem (_key self) (rollback_sets self to_sequencer)) w))
  end.
Proof. unfold unlockAndRollBack. rewrite update_item_eq. reflexivity. Qed.

(** What a roll back leaves: the key unlocked, with the sequencer it is
    asked to restore, whatever was stored before. *)
Lemma unlockAndRollBack_unlocked (self : S3Lock) (to_sequencer : option string) (w : World) :
  next_fault w = None →
  ∃ w', unlockAndRollBack self to_sequencer w = (Return (), w') ∧
        unlocked_with (table w') (_key self) to_sequencer ∧
        stored_attribute (table w') (_key self) FIELD_UPDATED_BY
          = Some (Str (_execution_id self)) ∧
        (∀ key, key ≠ _key self → table w' !! key = next_table w !! key) ∧
        env w' = tail (env w) ∧
        trace w' = trace w ++ [UpdateItem (_key self) (rollback_sets self to_sequencer)].
Proof.
  intros Hf. rewrite unlockAndRollBack_eq, Hf. eexists. split; [reflexivity|].
  simpl. unfold unlocked_with. rewrite !stored_attribute_insert_eq.
  repeat split.
  - rewrite lookup_insert_ne by discriminate.
    rewrite lookup_insert_ne by discriminate.
    rewrite lookup_insert_ne by discriminate. apply lookup_insert_eq.
  - rewrite lookup_insert_ne by discriminate. apply lookup_insert_eq.
  - rewrite lookup_insert_ne by discriminate.
    rewrite lookup_insert_ne by discriminate. apply lookup_insert_eq.
  - intros key Hk. apply lookup_insert_ne. congruence.
  - apply env_arrive.
  - rewrite trace_arrive. reflexivity.
Qed.

(** What [unlock] does to a record that exists. *)
Lemma unlock_existing (self : S3Lock) (w : World) (item : Item) :
  next_fault w = None →
  lookup_item (next_table w) (_key self) = Some item →
  ∃ w',
    unlock self w = (Return (), w') ∧
    lookup_item (table w') (_key self)
      = Some (<[FIELD_UPDATED_BY := Str (_execution_id self)]>
              (<[FIELD_LOCK_STATUS := Str LOCK_VALUE_UNLOCKED]> item)) ∧
    (∀ key, key ≠ _key self → table w' !! key = next_table w !! key) ∧
    env w' = tail (env w) ∧
    trace w' = trace w ++ [UpdateItem (_key self) (unlock_sets self)].
Proof.
  intros Hf Hi. rewrite unlock_eq, Hf, Hi. eexists. split; [reflexivity|].
  cbn [table with_table default env trace]. repeat split.
  - rewrite lookup_item_insert_eq. f_equal. apply insert_id.
    rewrite !lookup_insert_ne by discriminate. exact (lookup_item_key _ _ _ Hi).
  - intros key Hk. apply lookup_insert_ne. congruence.
  - apply env_arrived.
  - apply trace_arrived.
Qed.

(** ** S3Lock.unlock *)

(** C10. [unlock] assigns [lock_status] and [updated_by] and nothing else:
    on a key that has a record, every other attribute of that record, the
    sequencer and the key among them, reads as before, and the records of
    other keys are not touched.  The call carries no condition: it goes
    through for every stored item, whoever wrote it and whatever its lock
    status. *)
Theorem unlock_writes_only_lock_status_and_updated_by
    (self : S3Lock) (w : World) (item : Item) :
  next_fault w = None →
  lookup_item (next_table w) (_key self) = Some item →
  ∃ w',
    unlock self w = (Return (), w') ∧
    lookup_item (table w') (_key self)
      = Some (<[FIELD_UPDATED_BY := Str (_execution_id self)]>
              (<[FIELD_LOCK_STATUS := Str LOCK_VALUE_UNLOCKED]> item)) ∧
    (∀ name, name ≠ FIELD_LOCK_STATUS → name ≠ FIELD_UPDATED_BY →
       stored_attribute (table w') (_key self) name = item !! name) ∧
    stored_attribute (table w') (_key self) FIELD_SEQUENCER = item !! FIELD_SEQUENCER ∧
    stored_attribute (table w') (_key self) FIELD_KEY = item !! FIELD_KEY ∧
    (∀ key, key ≠ _key self → table w' !! key = next_table w !! key).
Proof.
  intros Hf Hi.
  destruct (unlock_existing self w item Hf Hi) as (w' & Hu & Hi' & Hother & _ & _).
  exists w'. split; [exact Hu|]. split; [exact Hi'|].
  assert (Hframe : ∀ name, name ≠ FIELD_LOCK_STATUS → name ≠ FIELD_UPDATED_BY →
    stored_attribute (table w') (_key self) name = item !! name).
  { intros name H1 H2. unfold stored_attribute. rewrite Hi'. cbn [mbind option_bind].
    rewrite !lookup_insert_ne by congruence. reflexivity. }
  repeat split.
  - exact Hframe.
  - apply Hframe; discriminate.
  - apply Hframe; discriminate.
  - exact Hother.
Qed.

(** ** S3Lock.lockForSequencer *)

(** C2, as the code has it.  [lockForSequencer] returns [True], having
    written the locked record, exactly when the request goes through and
    either no record exists for the key (whatever sequencer the caller
    expected) or the record carries the expected sequencer and is unlocked.
    It returns [False] exactly when the request goes through and that
    condition fails, and then the table is as the request found it.  Every
    other failure is an exception, raised again as it came. *)
Theorem lockForSequencer_succeeds_iff (self : S3Lock) (old : option string)
    (new : string) (w : World) :
  ((lockForSequencer self old new w).1 = Return true ↔
     next_fault w = None ∧ lock_is_free (next_table w) (_key self) old) ∧
  ((lockForSequencer self old new w).1 = Return false ↔
     next_fault w = None ∧ ¬ lock_is_free (next_table w) (_key self) old) ∧
  ((lockForSequencer self old new w).1 = Return true →
     table (lockForSequencer self old new w).2
     = <[_key self := lock_item self new]> (next_table w)) ∧
  ((lockForSequencer self old new w).1 ≠ Return true →
     table (lockForSequencer self old new w).2 = next_table w) ∧
  (∀ f, next_fault w = Some f →
        (lockForSequencer self old new w).1 = Raise (fault_exception f)).
Proof.
  unfold lock_is_free. rewrite lockForSequencer_eq. cbv zeta.
  destruct (next_fault w) as [f|].
  - cbn [fst snd]. repeat split; try discriminate; try (intros [[=] _]).
    intros f' [= <-]. reflexivity.
  - case_condition E; cbn [fst snd].
    + apply eval_lock_condition in E.
      repeat split; auto; try discriminate.
      * intros [_ H]. contradiction.
      * intros H. contradiction.
    + assert (E' : ¬ (next_table w !! _key self = None
                      ∨ unlocked_with (next_table w) (_key self) old)).
      { intros H. apply eval_lock_condition in H. congruence. }
      repeat split; auto; try discriminate. intros [_ H]. contradiction.
Qed.

(** C2, as the specification words it, fails: on a key without a record
    the lock is granted although the caller expected the sequencer "05",
    which is not the unseen state.  The lock is granted and the record
    written, while the precondition of the specification does not hold. *)
Lemma lockForSequencer_ignores_expected_on_new_key :
  (lockForSequencer (lock_of "req-1") (Some "05") "10" unseen).1 = Return true ∧
  table (lockForSequencer (lock_of "req-1") (Some "05") "10" unseen).2 !! "bar/foo"
    = Some (lock_item (lock_of "req-1") "10") ∧
  ¬ cas_precondition_as_specified (next_table unseen) "bar/foo" (Some "05") ∧
  ¬ ((lockForSequencer (lock_of "req-1") (Some "05") "10" unseen).1 = Return true ↔
     cas_precondition_as_specified (next_table unseen) "bar/foo" (Some "05")).
Proof.
  assert (H : ¬ cas_precondition_as_specified (next_table unseen) "bar/foo" (Some "05")).
  { intros [[_ H] | [H _]]; discriminate. }
  split; [reflexivity|]. split; [reflexivity|]. split; [exact H|].
  intros [Hiff _]. apply H, Hiff. reflexivity.
Qed.

(** ** The loop of the handler *)

Section Handler.
Context {Ctx Value : Type}.
Implicit Types (event : Event) (context : Ctx) (lock : S3Lock)
  (processing_fn : Event → Ctx → Res Value) (backoff_fn : Res ())
  (w : World) (fuel : nat).

Lemma handle_unfold fuel event context lock processing_fn backoff_fn w :
  handle_notification_if_up_to_date (S fuel) event context lock
    processing_fn backoff_fn w =
  let sequencer := detail_object_sequencer event in
  let continue :=
    handle_notification_if_up_to_date fuel event context lock
      processing_fn backoff_fn in
  match getCurrentSequencer lock w with
  | (Raise ItemLockedException, w1) => (call_backoff backoff_fn;; continue) w1
  | (Raise e, w1) => (Raise e, w1)
  | (OutOfFuel, w1) => (OutOfFuel, w1)
  | (Return oldsequencer, w1) =>
      if is_older oldsequencer sequencer then
        match lockForSequencer lock oldsequencer sequencer w1 with
        | (Return locked, w2) =>
            if negb locked then (call_backoff backoff_fn;; continue) w2
            else
              match processing_fn event context with
              | Return v =>
                  (unlock lock;; mret (OUTCOME_PROCESSED, Some v))
                    (log (Processing event) w2)
              | Raise e =>
                  (unlockAndRollBack lock oldsequencer;; raise e)
                    (log (Processing event) w2)
              | OutOfFuel => (OutOfFuel, log (Processing event) w2)
              end
        | (Raise e, w2) => (Raise e, w2)
        | (OutOfFuel, w2) => (OutOfFuel, w2)
        end
      else (Return (OUTCOME_OUT_OF_DATE, None), w1)
  end.
Proof.
  cbn [handle_notification_if_up_to_date]. cbv zeta.
  destruct (getCurrentSequencer lock w) as [[old|e|] w1]; try reflexivity.
  destruct (is_older old (detail_object_sequencer event)); [|reflexivity].
  unfold mbind, M_bind, bind.
  destruct (lockForSequencer lock old _ w1) as [[[|]|e|] w2]; reflexivity.
Qed.

Lemma lockForSequencer_trace lock old new w :
  trace (lockForSequencer lock old new w).2
  = trace w ++ [PutItem (lock_item lock new) (lock_condition old)].
Proof.
  rewrite lockForSequencer_eq. cbv zeta.
  destruct (next_fault w); [apply trace_arrived|].
  case_condition E; apply trace_arrived.
Qed.

Lemma update_item_trace key sets w :
  trace (update_item key sets w).2 = trace w ++ [UpdateItem key sets].
Proof. rewrite update_item_eq. destruct (next_fault w); apply trace_arrived. Qed.

Lemma getCurrentSequencer_trace lock w :
  trace (getCurrentSequencer lock w).2 = trace w ++ [GetItem (_key lock)].
Proof. rewrite getCurrentSequencer_world. apply trace_arrived. Qed.

(** The handler only ever adds to the trace, and the first call of every
    iteration is the read of the record. *)
Lemma handle_after_read fuel event context lock processing_fn backoff_fn :
  (∀ w, trace w `prefix_of`
        trace (handle_notification_if_up_to_date fuel event context lock
                 processing_fn backoff_fn w).2) →
  ∀ w, (trace w ++ [GetItem (_key lock)]) `prefix_of`
       trace (handle_notification_if_up_to_date (S fuel) event context lock
                processing_fn backoff_fn w).2.
Proof.
  intros IH w.
  rewrite handle_unfold. cbv zeta.
  pose proof (getCurrentSequencer_trace lock w) as Hr.
  destruct (getCurrentSequencer lock w) as [r w1]. cbn [snd] in Hr.
  rewrite <- Hr.
  assert (Hb : ∀ w', trace w1 `prefix_of` trace w' →
    trace w1 `prefix_of`
    trace ((call_backoff backoff_fn;;
            handle_notification_if_up_to_date fuel event context lock
              processing_fn backoff_fn) w').2).
  { intros w' Hw'. unfold mbind, M_bind, bind, call_backoff.
    assert (trace w1 `prefix_of` trace (log Backoff w'))
      by (apply prefix_app_r; exact Hw').
    destruct backoff_fn; cbn [snd]; [|assumption..].
    etrans; [eassumption | apply IH]. }
  destruct r as [old|e|]; cbn [snd]; [|destruct e; auto; reflexivity|reflexivity].
  destruct (is_older old _); [|reflexivity].
  pose proof (lockForSequencer_trace lock old (detail_object_sequencer event) w1) as Hl.
  destruct (lockForSequencer lock old _ w1) as [r2 w2]. cbn [snd] in Hl.
  assert (H2 : trace w1 `prefix_of` trace w2)
    by (rewrite Hl; apply prefix_app_r; reflexivity).
  destruct r2 as [[|]|e|]; cbn [negb snd]; [|auto|exact H2..].
  assert (H3 : trace w1 `prefix_of` trace (log (Processing event) w2))
    by (apply prefix_app_r; exact H2).
  unfold mbind, M_bind, bind, unlock, unlockAndRollBack.
  destruct (processing_fn event context) as [v|e|]; [| |exact H3].
  - pose proof (update_item_trace (_key lock) (unlock_sets lock)
                  (log (Processing event) w2)) as Hu.
    fold (unlock_sets lock).
    destruct (update_item _ _ _) as [[[]|?|] w3];
      unfold mret, M_ret, ret, raise; cbn [snd] in *;
      rewrite Hu; apply prefix_app_r; exact H3.
  - pose proof (update_item_trace (_key lock) (rollback_sets lock old)
                  (log (Processing event) w2)) as Hu.
    fold (rollback_sets lock old).
    destruct (update_item _ _ _) as [[[]|?|] w3];
      unfold mret, M_ret, ret, raise; cbn [snd] in *;
      rewrite Hu; apply prefix_app_r; exact H3.
Qed.

Lemma handle_trace_extends fuel event context lock processing_fn backoff_fn :
  ∀ w, trace w `prefix_of`
       trace (handle_notification_if_up_to_date fuel event context lock
                processing_fn backoff_fn w).2.
Proof.
  induction fuel as [|fuel IH]; intros w; [reflexivity|].
  etrans; [|apply handle_after_read, IH]. apply prefix_app_r. reflexivity.
Qed.

Lemma handle_reads_first fuel event context lock processing_fn backoff_fn w :
  (trace w ++ [GetItem (_key lock)]) `prefix_of`
  trace (handle_notification_if_up_to_date (S fuel) event context lock
           processing_fn backoff_fn w).2.
Proof. apply handle_after_read, handle_trace_extends. Qed.

(** A stale read ends the loop at once. *)
Lemma handle_stale fuel event context lock processing_fn backoff_fn w
    (oldSeq : string) :
  next_fault w = None →
  unlocked_with (next_table w) (_key lock) (Some oldSeq) →
  String.leb (detail_object_sequencer event) oldSeq = true →
  handle_notification_if_up_to_date (S fuel) event context lock
    processing_fn backoff_fn w
  = (Return (OUTCOME_OUT_OF_DATE, None), arrived (GetItem (_key lock)) w).
Proof.
  intros Hf Hu Hle. rewrite handle_unfold. cbv zeta.
  rewrite (getCurrentSequencer_unlocked _ _ _ Hf Hu), (is_older_stale _ _ Hle).
  reflexivity.
Qed.
End Handler.

(** From "this call did not raise [e0]" at one result type to the same at
    another. *)
Ltac not_raised H :=
  let E := fresh "E" in
  intros E; injection E as E; apply H; rewrite E; reflexivity.

Lemma fault_exception_not_locked (f : ServiceFault) :
  fault_exception f ≠ ItemLockedException.
Proof. destruct f; discriminate. Qed.

Section Iteration.
Context {Ctx Value : Type}.
Implicit Types (event : Event) (context : Ctx) (lock : S3Lock)
  (processing_fn : Event → Ctx → Res Value) (backoff_fn : Res ())
  (w : World) (fuel : nat).

(** C1. When the read finds the record unlocked with a sequencer that the
    incoming one does not exceed (equal counts), the handler returns
    [OUTCOME_OUT_OF_DATE] with no value.  The read is the only call it
    makes: the callback is not invoked, nothing is written, and the table
    is as the read found it. *)
Theorem stale_notification_is_skipped fuel event context lock processing_fn
    backoff_fn w (oldSeq : string) :
  next_fault w = None →
  unlocked_with (next_table w) (_key lock) (Some oldSeq) →
  String.leb (detail_object_sequencer event) oldSeq = true →
  ∃ w',
    handle_notification_if_up_to_date (S fuel) event context lock
      processing_fn backoff_fn w = (Return (OUTCOME_OUT_OF_DATE, None), w') ∧
    table w' = next_table w ∧
    trace w' = trace w ++ [GetItem (_key lock)] ∧
    filter is_write (trace w') = filter is_write (trace w) ∧
    filter is_processing (trace w') = filter is_processing (trace w).
Proof.
  intros Hf Hu Hle. eexists. split; [eapply handle_stale; eassumption|].
  rewrite trace_arrived.
  repeat split; rewrite filter_app; cbn; apply app_nil_r.
Qed.

(** C6. Once the lock is taken for the incoming sequencer and the callback
    returns [v], the handler unlocks and returns [OUTCOME_PROCESSED] with
    [v]; the record, which nobody else writes while it is locked, ends
    unlocked with the incoming sequencer. *)
Theorem processed_notification_is_unlocked fuel event context lock processing_fn
    backoff_fn w w1 w2 (oldSeq : option string) (v : Value) :
  getCurrentSequencer lock w = (Return oldSeq, w1) →
  is_older oldSeq (detail_object_sequencer event) = true →
  lockForSequencer lock oldSeq (detail_object_sequencer event) w1 = (Return true, w2) →
  processing_fn event context = Return v →
  next_fault w2 = None →
  next_table w2 !! _key lock = table w2 !! _key lock →
  ∃ w3,
    handle_notification_if_up_to_date (S fuel) event context lock
      processing_fn backoff_fn w = (Return (OUTCOME_PROCESSED, Some v), w3) ∧
    unlocked_with (table w3) (_key lock) (Some (detail_object_sequencer event)) ∧
    trace w3 = trace w2 ++ [Processing event; UpdateItem (_key lock) (unlock_sets lock)].
Proof.
  intros Hr Ho Hl Hp Hf Hq. rewrite handle_unfold. cbv zeta.
  rewrite Hr, Ho, Hl, Hp. cbn [negb].
  apply lockForSequencer_true in Hl as (_ & _ & Hw2).
  assert (Hlocked : locked_with (table w2) (_key lock) (detail_object_sequencer event)).
  { rewrite Hw2. apply locked_with_lock_item. }
  destruct Hlocked as [Hls Hsq].
  apply stored_attribute_Some in Hls as (item & Hi & Hls).
  apply stored_attribute_Some in Hsq as (item' & Hi' & Hsq).
  rewrite Hi in Hi'. injection Hi' as <-.
  destruct (unlock_existing lock (log (Processing event) w2) item)
    as (w3 & Hu & Hi3 & _ & _ & Htr).
  { rewrite next_fault_log. exact Hf. }
  { rewrite next_table_log, (lookup_item_ext _ _ _ Hq). exact Hi. }
  exists w3. unfold mbind, M_bind, bind. rewrite Hu. split; [reflexivity|].
  split.
  - unfold unlocked_with, stored_attribute. rewrite Hi3. cbn [mbind option_bind].
    split.
    + rewrite lookup_insert_ne by discriminate. apply lookup_insert_eq.
    + rewrite !lookup_insert_ne by discriminate. exact Hsq.
  - rewrite Htr. cbn [trace log]. rewrite <- app_assoc. reflexivity.
Qed.

(** C3. Once the lock is taken for the incoming sequencer, with [oldSeq]
    read before, and the callback raises [e], the handler rolls the record
    back (unlocked, sequencer [oldSeq] again, written by this execution)
    and then raises the same [e]. *)
Theorem failed_processing_rolls_back fuel event context lock processing_fn
    backoff_fn w w1 w2 (oldSeq : option string) (e : Exception) :
  getCurrentSequencer lock w = (Return oldSeq, w1) →
  is_older oldSeq (detail_object_sequencer event) = true →
  lockForSequencer lock oldSeq (detail_object_sequencer event) w1 = (Return true, w2) →
  processing_fn event context = Raise e →
  next_fault w2 = None →
  ∃ w3,
    handle_notification_if_up_to_date (S fuel) event context lock
      processing_fn backoff_fn w = (Raise e, w3) ∧
    unlocked_with (table w3) (_key lock) oldSeq ∧
    stored_sequencer (table w3) (_key lock) = oldSeq ∧
    stored_attribute (table w3) (_key lock) FIELD_UPDATED_BY
      = Some (Str (_execution_id lock)) ∧
    trace w3 = trace w2 ++ [Processing event;
                            UpdateItem (_key lock) (rollback_sets lock oldSeq)].
Proof.
  intros Hr Ho Hl Hp Hf. rewrite handle_unfold. cbv zeta.
  rewrite Hr, Ho, Hl, Hp. cbn [negb].
  destruct (unlockAndRollBack_unlocked lock oldSeq (log (Processing event) w2))
    as (w3 & Hu & Hun & Hby & _ & _ & Htr).
  { rewrite next_fault_log. exact Hf. }
  exists w3. unfold mbind, M_bind, bind. rewrite Hu. split; [reflexivity|].
  repeat split; try apply Hun; try exact Hby.
  - unfold stored_sequencer. destruct Hun as [_ ->]. apply to_python_to_attribute.
  - rewrite Htr. cbn [trace log]. rewrite <- app_assoc. reflexivity.
Qed.

(** An exception of the store is never [ItemLockedException]. *)
Lemma lockForSequencer_not_locked lock old new w :
  (lockForSequencer lock old new w).1 ≠ Raise ItemLockedException.
Proof.
  rewrite lockForSequencer_eq. cbv zeta.
  destruct (next_fault w) as [f|].
  - cbn [fst]. intros [= H]. exact (fault_exception_not_locked _ H).
  - case_condition E; discriminate.
Qed.

Lemma update_item_not_locked key sets w :
  (update_item key sets w).1 ≠ Raise ItemLockedException.
Proof.
  rewrite update_item_eq. destruct (next_fault w) as [f|]; [|discriminate].
  cbn [fst]. intros [= H]. exact (fault_exception_not_locked _ H).
Qed.

(** C8. A read that finds the record locked raises
    [ItemLockedException]; the handler catches it, calls [backoff_fn] and
    starts the loop again from the read.  Unless a callback itself raises
    it, [ItemLockedException] never leaves the handler, for any number of
    iterations and whatever the other clients do.  The locked read writes
    nothing and calls no callback; when [backoff_fn] returns, the calls
    that follow the locked read are the backoff and then a read again, the
    outcome of the invocation is the outcome of the loop started afresh
    after the backoff, and a record found released but not older than the
    notification ends it as out of date without any write. *)
Theorem locked_read_is_retried fuel event context lock processing_fn
    backoff_fn w :
  backoff_fn ≠ Raise ItemLockedException →
  (∀ ev ctx, processing_fn ev ctx ≠ Raise ItemLockedException) →
  (handle_notification_if_up_to_date fuel event context lock
     processing_fn backoff_fn w).1 ≠ Raise ItemLockedException ∧
  (∀ w1, getCurrentSequencer lock w = (Raise ItemLockedException, w1) →
     handle_notification_if_up_to_date (S fuel) event context lock
       processing_fn backoff_fn w
     = (call_backoff backoff_fn;;
        handle_notification_if_up_to_date fuel event context lock
          processing_fn backoff_fn) w1 ∧
     table w1 = next_table w ∧
     trace w1 = trace w ++ [GetItem (_key lock)] ∧
     (backoff_fn = Return () →
        handle_notification_if_up_to_date (S fuel) event context lock
          processing_fn backoff_fn w
        = handle_notification_if_up_to_date fuel event context lock
            processing_fn backoff_fn (log Backoff w1) ∧
        (trace w ++ [GetItem (_key lock); Backoff; GetItem (_key lock)]) `prefix_of`
        trace (handle_notification_if_up_to_date (S (S fuel)) event context lock
                 processing_fn backoff_fn w).2 ∧
        ∀ newSeq : string,
          next_fault w1 = None →
          unlocked_with (next_table w1) (_key lock) (Some newSeq) →
          String.leb (detail_object_sequencer event) newSeq = true →
          ∃ w2,
            handle_notification_if_up_to_date (S (S fuel)) event context lock
              processing_fn backoff_fn w = (Return (OUTCOME_OUT_OF_DATE, None), w2) ∧
            table w2 = next_table w1 ∧
            trace w2 = trace w ++ [GetItem (_key lock); Backoff; GetItem (_key lock)])).
Proof.
  intros Hb Hp. split.
  - revert w. induction fuel as [|fuel IH]; intros w; [discriminate|].
    rewrite handle_unfold. cbv zeta.
    assert (Hretry : ∀ w',
      ((call_backoff backoff_fn;;
        handle_notification_if_up_to_date fuel event context lock
          processing_fn backoff_fn) w').1 ≠ Raise ItemLockedException).
    { intros w'. unfold mbind, M_bind, bind, call_backoff.
      destruct backoff_fn as [[]|e|]; cbn [fst]; [apply IH| |discriminate].
      intros [= ->]. apply Hb. reflexivity. }
    destruct (getCurrentSequencer lock w) as [[old|e|] w1];
      [|destruct e; first [apply Hretry | discriminate]|discriminate].
    destruct (is_older old _); [|discriminate].
    pose proof (lockForSequencer_not_locked lock old
                  (detail_object_sequencer event) w1) as Hl.
    destruct (lockForSequencer lock old _ w1) as [[[|]|e|] w2];
      cbn [negb fst] in *; [|apply Hretry|not_raised Hl|discriminate].
    pose proof (Hp event context) as Hpe.
    unfold mbind, M_bind, bind, unlock, unlockAndRollBack.
    destruct (processing_fn event context) as [v|e|]; [| |discriminate].
    + pose proof (update_item_not_locked (_key lock) (unlock_sets lock)
                    (log (Processing event) w2)) as Hu.
      fold (unlock_sets lock).
      destruct (update_item _ _ _) as [[[]|?|] w3]; cbn [fst] in *;
        [discriminate|not_raised Hu|discriminate].
    + pose proof (update_item_not_locked (_key lock) (rollback_sets lock old)
                    (log (Processing event) w2)) as Hu.
      fold (rollback_sets lock old).
      destruct (update_item _ _ _) as [[[]|?|] w3]; cbn [fst] in *;
        [|not_raised Hu|discriminate].
      unfold raise. cbn [fst]. congruence.
  - intros w1 Hr.
    assert (Hloop : ∀ n,
      handle_notification_if_up_to_date (S n) event context lock
        processing_fn backoff_fn w
      = (call_backoff backoff_fn;;
         handle_notification_if_up_to_date n event context lock
           processing_fn backoff_fn) w1).
    { intros n. rewrite handle_unfold. cbv zeta. rewrite Hr. reflexivity. }
    assert (Hw1 : w1 = arrived (GetItem (_key lock)) w).
    { rewrite <- (getCurrentSequencer_world lock w), Hr. reflexivity. }
    split; [apply Hloop|].
    split; [rewrite Hw1; apply table_arrived|].
    split; [rewrite Hw1; apply trace_arrived|].
    intros ->. rewrite !Hloop.
    unfold mbind, M_bind, bind, call_backoff.
    assert (Htr : trace (log Backoff w1) ++ [GetItem (_key lock)]
                  = trace w ++ [GetItem (_key lock); Backoff; GetItem (_key lock)]).
    { cbn [trace log]. rewrite Hw1, trace_arrived, <- !app_assoc. reflexivity. }
    split; [reflexivity|]. split.
    + rewrite <- Htr. apply handle_reads_first.
    + intros newSeq Hf Hun Hle.
      rewrite (handle_stale fuel event context lock processing_fn (Return ())
                 (log Backoff w1) newSeq).
      * eexists. split; [reflexivity|]. split.
        -- apply next_table_log.
        -- rewrite trace_arrived. exact Htr.
      * rewrite next_fault_log. exact Hf.
      * rewrite next_table_log. exact Hun.
      * exact Hle.
Qed.

(** C9. When [lockForSequencer] returns [False] the handler does not call
    it again with what it read before: it calls [backoff_fn] and starts
    the loop again, so the next call to the table is a read.  If that read
    finds the record unlocked with a sequencer that the incoming one does
    not exceed, the handler returns [OUTCOME_OUT_OF_DATE] without a second
    [put_item]. *)
Theorem lost_race_rereads fuel event context lock processing_fn backoff_fn
    w w1 w2 (oldSeq : option string) :
  getCurrentSequencer lock w = (Return oldSeq, w1) →
  is_older oldSeq (detail_object_sequencer event) = true →
  lockForSequencer lock oldSeq (detail_object_sequencer event) w1 = (Return false, w2) →
  handle_notification_if_up_to_date (S fuel) event context lock
    processing_fn backoff_fn w
  = (call_backoff backoff_fn;;
     handle_notification_if_up_to_date fuel event context lock
       processing_fn backoff_fn) w2 ∧
  table w2 = next_table w1 ∧
  (backoff_fn = Return () →
     (trace w2 ++ [Backoff; GetItem (_key lock)]) `prefix_of`
     trace (handle_notification_if_up_to_date (S (S fuel)) event context lock
              processing_fn backoff_fn w).2 ∧
     ∀ newSeq : string,
       next_fault w2 = None →
       unlocked_with (next_table w2) (_key lock) (Some newSeq) →
       String.leb (detail_object_sequencer event) newSeq = true →
       ∃ w3,
         handle_notification_if_up_to_date (S (S fuel)) event context lock
           processing_fn backoff_fn w = (Return (OUTCOME_OUT_OF_DATE, None), w3) ∧
         table w3 = next_table w2 ∧
         trace w3 = trace w2 ++ [Backoff; GetItem (_key lock)]).
Proof.
  intros Hr Ho Hl.
  assert (Hloop : ∀ n,
    handle_notification_if_up_to_date (S n) event context lock
      processing_fn backoff_fn w
    = (call_backoff backoff_fn;;
       handle_notification_if_up_to_date n event context lock
         processing_fn backoff_fn) w2).
  { intros n. rewrite handle_unfold. cbv zeta. rewrite Hr, Ho, Hl. reflexivity. }
  split; [apply Hloop|].
  split; [apply lockForSequencer_false in Hl as (_ & _ & ->); reflexivity|].
  intros ->. rewrite Hloop.
  unfold mbind, M_bind, bind, call_backoff. split.
  - pose proof (handle_reads_first fuel event context lock processing_fn
                  (Return ()) (log Backoff w2)) as Hx.
    cbn [trace log] in Hx. rewrite <- app_assoc in Hx. exact Hx.
  - intros newSeq Hf Hun Hle.
    rewrite (handle_stale fuel event context lock processing_fn (Return ())
               (log Backoff w2) newSeq).
    + eexists. split; [reflexivity|]. split.
      * apply next_table_log.
      * rewrite trace_arrived. cbn [trace log]. rewrite <- app_assoc. reflexivity.
    + rewrite next_fault_log. exact Hf.
    + rewrite next_table_log. exact Hun.
    + exact Hle.
Qed.
End Iteration.

(** ** Deliveries without contention *)

Section Uncontended.
Context {Ctx Value : Type}.
Implicit Types (event : Event) (context : Ctx) (lock : S3Lock)
  (processing_fn : Event → Ctx → Res Value) (backoff_fn : Res ())
  (w : World) (fuel : nat).

(** A delivery that nobody interferes with, on a key that is unseen or
    unlocked with an older sequencer: one read, one successful
    [put_item], one call of the callback, one [update_item]. *)
Lemma handle_uncontended fuel event context lock processing_fn backoff_fn w
    (old : option string) :
  Forall (quiet (_key lock)) (env w) →
  (table w !! _key lock = None ∧ old = None)
    ∨ unlocked_with (table w) (_key lock) old →
  is_older old (detail_object_sequencer event) = true →
  ∃ w',
    handle_notification_if_up_to_date (S fuel) event context lock
      processing_fn backoff_fn w
    = (match processing_fn event context with
       | Return v => Return (OUTCOME_PROCESSED, Some v)
       | Raise e => Raise e
       | OutOfFuel => OutOfFuel
       end, w') ∧
    Forall (quiet (_key lock)) (env w') ∧
    filter is_processing (trace w')
      = filter is_processing (trace w) ++ [Processing event] ∧
    match processing_fn event context with
    | Return _ =>
        unlocked_with (table w') (_key lock) (Some (detail_object_sequencer event))
    | Raise _ => unlocked_with (table w') (_key lock) old
    | OutOfFuel => locked_with (table w') (_key lock) (detail_object_sequencer event)
    end.
Proof.
  intros Hq Hrec Ho.
  set (seq := detail_object_sequencer event) in *.
  set (w1 := arrived (GetItem (_key lock)) w).
  set (c := PutItem (lock_item lock seq) (lock_condition old)).
  set (w2 := with_table (<[_key lock := lock_item lock seq]> (next_table w1))
               (arrived c w1)).
  pose proof (quiet_next_fault _ _ Hq) as Hf.
  pose proof (quiet_next_table _ _ Hq) as Ht.
  assert (Hq1 : Forall (quiet (_key lock)) (env w1)).
  { unfold w1. rewrite env_arrived. apply quiet_tail, Hq. }
  pose proof (quiet_next_fault _ _ Hq1) as Hf1.
  pose proof (quiet_next_table _ _ Hq1) as Ht1.
  assert (Hq2 : Forall (quiet (_key lock)) (env w2)).
  { unfold w2. cbn [env with_table]. rewrite env_arrived. apply quiet_tail, Hq1. }
  pose proof (quiet_next_fault _ _ Hq2) as Hf2.
  pose proof (quiet_next_table _ _ Hq2) as Ht2.
  (* the read *)
  assert (Hread : getCurrentSequencer lock w = (Return old, w1)).
  { destruct Hrec as [[Hn ->]|Hu].
    - apply getCurrentSequencer_unseen; [exact Hf | congruence].
    - apply getCurrentSequencer_unlocked; [exact Hf|].
      destruct Hu as [H1 H2]. split; rewrite (stored_attribute_ext _ _ _ _ Ht); assumption. }
  (* the conditional write *)
  assert (Hlock : lockForSequencer lock old seq w1 = (Return true, w2)).
  { rewrite lockForSequencer_eq, Hf1. cbv zeta.
    assert (E : eval_condition (lock_condition old)
                  (default ∅ (lookup_item (next_table w1) (_key lock))) = true).
    { assert (Hk1 : next_table w1 !! _key lock = table w !! _key lock)
        by (rewrite Ht1; exact Ht).
      apply eval_lock_condition. rewrite Hk1.
      destruct Hrec as [[Hn _]|[H1 H2]]; [left; exact Hn|right].
      split; rewrite (stored_attribute_ext _ _ _ _ Hk1); assumption. }
    rewrite E. reflexivity. }
  assert (Hitem : lookup_item (next_table (log (Processing event) w2)) (_key lock)
                  = Some (lock_item lock seq)).
  { rewrite next_table_log, (lookup_item_ext _ _ _ Ht2). unfold w2.
    cbn [table with_table]. rewrite lookup_item_insert_eq, lock_item_with_key.
    reflexivity. }
  assert (Htr2 : trace (log (Processing event) w2)
                 = trace w ++ [GetItem (_key lock); c; Processing event]).
  { cbn [trace log]. unfold w2. cbn [trace with_table].
    rewrite trace_arrived. unfold w1. rewrite trace_arrived.
    rewrite <- !app_assoc. reflexivity. }
  rewrite handle_unfold. cbv zeta. fold seq. rewrite Hread, Ho, Hlock. cbn [negb].
  unfold mbind, M_bind, bind.
  destruct (processing_fn event context) as [v|e|].
  - destruct (unlock_existing lock (log (Processing event) w2) (lock_item lock seq))
      as (w3 & Hu & Hi3 & _ & Henv & Htr); [rewrite next_fault_log; exact Hf2|exact Hitem|].
    exists w3. rewrite Hu. split; [reflexivity|]. split; [|split].
    + rewrite Henv. apply quiet_tail. exact Hq2.
    + rewrite Htr, Htr2, !filter_app. cbn. rewrite app_nil_r. reflexivity.
    + unfold unlocked_with, stored_attribute. rewrite Hi3. cbn [mbind option_bind].
      split.
      * rewrite lookup_insert_ne by discriminate. apply lookup_insert_eq.
      * rewrite !lookup_insert_ne by discriminate. apply lock_item_sequencer.
  - destruct (unlockAndRollBack_unlocked lock old (log (Processing event) w2))
      as (w3 & Hu & Hun & _ & _ & Henv & Htr); [rewrite next_fault_log; exact Hf2|].
    exists w3. rewrite Hu. split; [reflexivity|]. split; [|split].
    + rewrite Henv. apply quiet_tail. exact Hq2.
    + rewrite Htr, Htr2, !filter_app. cbn. rewrite app_nil_r. reflexivity.
    + exact Hun.
  - eexists. split; [reflexivity|]. split; [exact Hq2|]. split.
    + rewrite Htr2, !filter_app. cbn. reflexivity.
    + apply locked_with_lock_item.
Qed.

(** A delivery that nobody interferes with, on a key that is unlocked
    with a sequencer at least the incoming one. *)
Lemma handle_uncontended_stale fuel event context lock processing_fn backoff_fn w
    (old : string) :
  Forall (quiet (_key lock)) (env w) →
  unlocked_with (table w) (_key lock) (Some old) →
  String.leb (detail_object_sequencer event) old = true →
  ∃ w',
    handle_notification_if_up_to_date (S fuel) event context lock
      processing_fn backoff_fn w = (Return (OUTCOME_OUT_OF_DATE, None), w') ∧
    Forall (quiet (_key lock)) (env w') ∧
    table w' !! _key lock = table w !! _key lock ∧
    trace w' = trace w ++ [GetItem (_key lock)].
Proof.
  intros Hq [H1 H2] Hle.
  pose proof (quiet_next_fault _ _ Hq) as Hf.
  pose proof (quiet_next_table _ _ Hq) as Ht.
  rewrite (handle_stale fuel event context lock processing_fn backoff_fn w old);
    [|exact Hf|split; rewrite (stored_attribute_ext _ _ _ _ Ht); assumption|exact Hle].
  eexists. split; [reflexivity|]. split; [|split].
  - rewrite env_arrived. apply quiet_tail, Hq.
  - exact Ht.
  - apply trace_arrived.
Qed.

(** C4. The record is unlocked with sequencer [P]; a notification with
    sequencer [S], [P < S], is delivered and its processing raises [e].
    The handler raises [e].  Delivered again (by any later invocation on
    the same key), the same notification is not skipped: the callback is
    called once more and its outcome is the handler's.  A notification
    whose sequencer does not exceed [P] is still skipped, without a call
    of the callback. *)
Theorem failed_notification_is_retried fuel event context lock processing_fn
    backoff_fn w (P : string) (e : Exception) :
  Forall (quiet (_key lock)) (env w) →
  unlocked_with (table w) (_key lock) (Some P) →
  String.ltb P (detail_object_sequencer event) = true →
  processing_fn event context = Raise e →
  ∃ w1,
    handle_notification_if_up_to_date (S fuel) event context lock
      processing_fn backoff_fn w = (Raise e, w1) ∧
    (∀ fuel' context' lock' (processing_fn' : Event → Ctx → Res Value) backoff_fn',
       _key lock' = _key lock →
       ∃ w2,
         handle_notification_if_up_to_date (S fuel') event context' lock'
           processing_fn' backoff_fn' w1
         = (match processing_fn' event context' with
            | Return v => Return (OUTCOME_PROCESSED, Some v)
            | Raise e' => Raise e'
            | OutOfFuel => OutOfFuel
            end, w2) ∧
         filter is_processing (trace w2)
           = filter is_processing (trace w1) ++ [Processing event]) ∧
    (∀ fuel' event' context' lock' (processing_fn' : Event → Ctx → Res Value)
       backoff_fn',
       _key lock' = _key lock →
       String.leb (detail_object_sequencer event') P = true →
       ∃ w2,
         handle_notification_if_up_to_date (S fuel') event' context' lock'
           processing_fn' backoff_fn' w1
         = (Return (OUTCOME_OUT_OF_DATE, None), w2) ∧
         filter is_processing (trace w2) = filter is_processing (trace w1)).
Proof.
  intros Hq Hu Hlt He.
  destruct (handle_uncontended fuel event context lock processing_fn backoff_fn
              w (Some P)) as (w1 & Hh & Hq1 & _ & Hrec); [exact Hq|right; exact Hu|exact Hlt|].
  rewrite He in Hh, Hrec. exists w1. split; [exact Hh|]. split.
  - intros fuel' context' lock' processing_fn' backoff_fn' Hk.
    destruct (handle_uncontended fuel' event context' lock' processing_fn'
                backoff_fn' w1 (Some P)) as (w2 & Hh2 & _ & Htr & _).
    + rewrite Hk. exact Hq1.
    + right. rewrite Hk. exact Hrec.
    + exact Hlt.
    + exists w2. split; assumption.
  - intros fuel' event' context' lock' processing_fn' backoff_fn' Hk Hle.
    destruct (handle_uncontended_stale fuel' event' context' lock' processing_fn'
                backoff_fn' w1 P) as (w2 & Hh2 & _ & _ & Htr).
    + rewrite Hk. exact Hq1.
    + rewrite Hk. exact Hrec.
    + exact Hle.
    + exists w2. split; [exact Hh2|].
      rewrite Htr, filter_app. cbn. apply app_nil_r.
Qed.

(** C5. On a key without a record the notification is processed whatever
    its sequencer: the callback is called, the handler's outcome is
    [OUTCOME_PROCESSED] with the callback's value (or the callback's own
    exception), never [OUTCOME_OUT_OF_DATE], and after a normal return
    the record is unlocked with the sequencer of the notification. *)
Theorem first_notification_is_processed fuel event context lock processing_fn
    backoff_fn w :
  Forall (quiet (_key lock)) (env w) →
  table w !! _key lock = None →
  ∃ w',
    handle_notification_if_up_to_date (S fuel) event context lock
      processing_fn backoff_fn w
    = (match processing_fn event context with
       | Return v => Return (OUTCOME_PROCESSED, Some v)
       | Raise e => Raise e
       | OutOfFuel => OutOfFuel
       end, w') ∧
    (handle_notification_if_up_to_date (S fuel) event context lock
       processing_fn backoff_fn w).1 ≠ Return (OUTCOME_OUT_OF_DATE, None) ∧
    filter is_processing (trace w')
      = filter is_processing (trace w) ++ [Processing event] ∧
    (∀ v, processing_fn event context = Return v →
          unlocked_with (table w') (_key lock)
            (Some (detail_object_sequencer event))).
Proof.
  intros Hq Hn.
  destruct (handle_uncontended fuel event context lock processing_fn backoff_fn
              w None) as (w' & Hh & _ & Htr & Hrec);
    [exact Hq|left; split; [exact Hn|reflexivity]|reflexivity|].
  exists w'. split; [exact Hh|]. split; [|split; [exact Htr|]].
  - rewrite Hh. cbn [fst]. destruct (processing_fn event context); discriminate.
  - intros v Hv. rewrite Hv in Hrec. exact Hrec.
Qed.
End Uncontended.

(** ** Several workers: the transitions *)

(** A call that writes nothing and leaves the worker where it holds, or
    does not hold, the lock. *)
Ltac silent Hpc :=
  apply tr_silent;
  [ reflexivity
  | rewrite Hpc; reflexivity
  | intros ?; unfold accept; rewrite Hpc; reflexivity
  | try solve [intros ? [=]] ].

Section Transitions.
Context {Ctx Value : Type}.
Implicit Types (wk : Worker Ctx Value) (w : World) (pc : Pc Value).

Lemma closed_arrived (c : Call) w : env w = [] → arrived c w = log c w.
Proof. unfold arrived, arrive. intros ->. reflexivity. Qed.

Lemma stored_sequencer_insert (t : Table) (key : string) (item : Item) :
  stored_sequencer (<[key := item]> t) key
  = (if decide (FIELD_SEQUENCER = FIELD_KEY) then Some (Str key)
     else item !! FIELD_SEQUENCER) ≫= to_python.
Proof.
  unfold stored_sequencer. rewrite stored_attribute_insert_eq.
  rewrite lookup_insert_ne by discriminate. reflexivity.
Qed.

(** Every call of a worker, in a closed system, is one of four transitions. *)
Lemma step_transition wk w pc' w' :
  env w = [] →
  step wk w = (Return pc', w') →
  env w' = [] ∧ transition wk (table w) pc' (table w').
Proof.
  intros Henv.
  pose proof (next_fault_empty_env _ Henv) as Hf.
  pose proof (next_table_empty_env _ Henv) as Ht.
  unfold step, goto. destruct (wk_pc wk) as [| |old|old|old v|old e|rv|e] eqn:Hpc.
  - (* the read *)
    rewrite getCurrentSequencer_eq, Hf, Ht, (closed_arrived _ _ Henv).
    destruct (lookup_item (table w) (_key (wk_lock wk))) as [item|] eqn:Hi.
    + destruct (item !! FIELD_LOCK_STATUS) as [locked|];
        [|intros [= <- <-]; split; [exact Henv|silent Hpc]].
      destruct (item !! FIELD_SEQUENCER) as [sequencer|];
        [|intros [= <- <-]; split; [exact Henv|silent Hpc]].
      destruct (truthy locked);
        [intros [= <- <-]; split; [exact Henv|silent Hpc]|].
      destruct (is_older (to_python sequencer) _) eqn:Ho;
        intros [= <- <-]; (split; [exact Henv|]); silent Hpc.
      intros old [= <-]. split; [exact Ho|].
      intros _. exact (lookup_item_None_inv _ _ _ Hi).
    + cbn [is_older]. intros [= <- <-]. split; [exact Henv|]. silent Hpc.
      intros old [= <-]. split; [reflexivity|]. intros H; contradiction.
  - (* the backoff *)
    unfold call_backoff. destruct (wk_backoff_fn wk) as [[]|e|];
      [| |discriminate]; intros [= <- <-]; (split; [exact Henv|]); silent Hpc.
  - (* the conditional write *)
    rewrite lockForSequencer_eq. cbv zeta. rewrite Hf, Ht, (closed_arrived _ _ Henv).
    case_condition E; intros [= <- <-]; (split; [exact Henv|]).
    + apply (tr_acquire _ _ _ _ old); try reflexivity; [exact Hpc|].
      apply eval_lock_condition. exact E.
    + silent Hpc.
  - (* the callback *)
    unfold call_processing.
    destruct (wk_processing_fn wk _ _) as [v|e|]; [| |discriminate];
      intros [= <- <-]; (split; [exact Henv|]); silent Hpc.
  - (* the unlock *)
    rewrite unlock_eq, Hf, Ht, (closed_arrived _ _ Henv).
    intros [= <- <-]. split; [exact Henv|]. cbn [table with_table log].
    apply (tr_commit _ _ _ _ old v); try reflexivity; [exact Hpc|..].
    + intros key Hk. apply lookup_insert_ne. unfold key_of in Hk. congruence.
    + unfold key_of. rewrite lookup_insert_eq. discriminate.
    + unfold key_of. rewrite stored_sequencer_insert.
      rewrite decide_False by discriminate.
      rewrite !lookup_insert_ne by discriminate.
      unfold stored_sequencer, stored_attribute.
      destruct (lookup_item (table w) (_key (wk_lock wk))); [reflexivity|].
      cbn [default mbind option_bind]. rewrite lookup_singleton_ne by discriminate.
      reflexivity.
  - (* the roll back *)
    rewrite unlockAndRollBack_eq, Hf, Ht, (closed_arrived _ _ Henv).
    intros [= <- <-]. split; [exact Henv|]. cbn [table with_table log].
    apply (tr_rollback _ _ _ _ old e); try reflexivity; [exact Hpc|..].
    + intros key Hk. apply lookup_insert_ne. unfold key_of in Hk. congruence.
    + unfold key_of. rewrite lookup_insert_eq. discriminate.
    + unfold key_of. rewrite stored_sequencer_insert.
      rewrite decide_False by discriminate.
      rewrite lookup_insert_eq. apply to_python_to_attribute.
  - intros [= <- <-]. split; [exact Henv|]. silent Hpc.
  - intros [= <- <-]. split; [exact Henv|]. silent Hpc.
Qed.
End Transitions.

(** ** Several workers: the invariant *)

Lemma locked_with_ext (t t' : Table) (key s : string) :
  t' !! key = t !! key → locked_with t key s → locked_with t' key s.
Proof.
  intros H [H1 H2]. split; rewrite (stored_attribute_ext _ _ _ _ H); assumption.
Qed.

Lemma locked_with_stored (t : Table) (key s : string) :
  locked_with t key s → stored_sequencer t key = Some s.
Proof. intros [_ H]. unfold stored_sequencer. rewrite H. reflexivity. Qed.

Lemma unlocked_with_stored (t : Table) (key : string) (o : option string) :
  unlocked_with t key o → stored_sequencer t key = o.
Proof.
  intros [_ H]. unfold stored_sequencer. rewrite H. apply to_python_to_attribute.
Qed.

Lemma stored_sequencer_None (t : Table) (key : string) :
  t !! key = None → stored_sequencer t key = None.
Proof.
  intros H. apply lookup_item_None in H.
  unfold stored_sequencer, stored_attribute. rewrite H. reflexivity.
Qed.

(** A locked record fails the condition of [lockForSequencer]. *)
Lemma locked_not_free (t : Table) (key s : string) (old : option string) :
  locked_with t key s → ¬ (t !! key = None ∨ unlocked_with t key old).
Proof.
  intros [Hl _] [Hn|[Hu _]].
  - apply lookup_item_None in Hn. unfold stored_attribute in Hl.
    rewrite Hn in Hl. discriminate.
  - rewrite Hl in Hu. discriminate.
Qed.

Section Invariant.
Context {Ctx Value : Type}.
Implicit Types (wk : Worker Ctx Value) (s : System Ctx Value)
  (ws : list (Worker Ctx Value)) (pc : Pc Value).

Lemma workers_after ws i wk pc' j wk' :
  ws !! i = Some wk →
  <[i := at_pc wk pc']> ws !! j = Some wk' →
  (j = i ∧ wk' = at_pc wk pc') ∨ (j ≠ i ∧ ws !! j = Some wk').
Proof.
  intros Hi Hj. destruct (decide (j = i)) as [->|Hne].
  - left. split; [reflexivity|].
    rewrite list_lookup_insert_eq in Hj by (eapply lookup_lt_Some; exact Hi).
    congruence.
  - right. split; [exact Hne|].
    rewrite list_lookup_insert_ne in Hj by congruence. exact Hj.
Qed.

Lemma workers_here ws i wk pc' :
  ws !! i = Some wk → <[i := at_pc wk pc']> ws !! i = Some (at_pc wk pc').
Proof. intros Hi. apply list_lookup_insert_eq. eapply lookup_lt_Some. exact Hi. Qed.

Lemma workers_elsewhere ws i wk pc' j :
  j ≠ i → <[i := at_pc wk pc']> ws !! j = ws !! j.
Proof. intros Hne. apply list_lookup_insert_ne. congruence. Qed.

Lemma coordinated_initial s : initial s → coordinated s.
Proof.
  intros (Henv & Hpc & Hacc). split.
  - exact Henv.
  - intros i wk old Hi Hh. rewrite (Hpc _ _ Hi) in Hh. discriminate.
  - intros i j wk wk' old old' Hi _ Hh. rewrite (Hpc _ _ Hi) in Hh. discriminate.
  - intros i wk old Hi Hl. rewrite (Hpc _ _ Hi) in Hl. discriminate.
  - intros key _. apply Hacc.
  - intros key. rewrite Hacc. apply seq_le_refl.
Qed.

(** A silent call keeps the invariant. *)
Lemma coordinated_silent s i wk pc' w' :
  coordinated s →
  sys_workers s !! i = Some wk →
  env w' = [] →
  table w' = table (sys_world s) →
  holds_lock pc' = holds_lock (wk_pc wk) →
  (∀ old, pc' = AtLock old →
          is_older old (seq_of wk) = true ∧
          (old ≠ None → table (sys_world s) !! key_of wk ≠ None)) →
  coordinated {| sys_world := w';
                 sys_workers := <[i := at_pc wk pc']> (sys_workers s);
                 sys_accepted := sys_accepted s |}.
Proof.
  intros Hco Hwk Henv Ht Hh Hl.
  assert (Hback : ∀ j wk' old,
    <[i := at_pc wk pc']> (sys_workers s) !! j = Some wk' →
    holds_lock (wk_pc wk') = Some old →
    ∃ wk0, sys_workers s !! j = Some wk0 ∧ key_of wk0 = key_of wk' ∧
           seq_of wk0 = seq_of wk' ∧ holds_lock (wk_pc wk0) = Some old).
  { intros j wk' old Hj Hold.
    destruct (workers_after _ _ _ _ _ _ Hwk Hj) as [[-> ->]|[_ Hj0]].
    - exists wk. cbn in Hold. rewrite Hh in Hold. auto.
    - exists wk'. auto. }
  split; cbn [sys_world sys_workers sys_accepted]; rewrite ?Ht.
  - exact Henv.
  - intros j wk' old Hj Hold.
    destruct (Hback _ _ _ Hj Hold) as (wk0 & Hj0 & <- & <- & Hold0).
    exact (co_holder _ Hco _ _ _ Hj0 Hold0).
  - intros j1 j2 wk1 wk2 o1 o2 H1 H2 Ho1 Ho2 Hk.
    destruct (Hback _ _ _ H1 Ho1) as (wk1' & H1' & Hk1 & _ & Ho1').
    destruct (Hback _ _ _ H2 Ho2) as (wk2' & H2' & Hk2 & _ & Ho2').
    apply (co_exclusive _ Hco _ _ _ _ _ _ H1' H2' Ho1' Ho2'). congruence.
  - intros j wk' old Hj Hpc.
    destruct (workers_after _ _ _ _ _ _ Hwk Hj) as [[-> ->]|[_ Hj0]].
    + apply Hl. exact Hpc.
    + exact (co_reader _ Hco _ _ _ Hj0 Hpc).
  - intros key Hno. apply (co_free _ Hco). intros j wk0 old Hj0 Hold.
    destruct (decide (j = i)) as [->|Hne].
    + assert (wk0 = wk) as -> by congruence.
      apply (Hno i (at_pc wk pc') old (workers_here _ _ _ _ Hwk)).
      cbn. rewrite Hh. exact Hold.
    + apply (Hno j wk0 old); [|exact Hold].
      rewrite workers_elsewhere by exact Hne. exact Hj0.
  - exact (co_above _ Hco).
Qed.

(** Taking the lock keeps the invariant. *)
Lemma coordinated_acquire s i wk old w' :
  coordinated s →
  sys_workers s !! i = Some wk →
  wk_pc wk = AtLock old →
  env w' = [] →
  table (sys_world s) !! key_of wk = None
    ∨ unlocked_with (table (sys_world s)) (key_of wk) old →
  table w' = <[key_of wk := lock_item (wk_lock wk) (seq_of wk)]> (table (sys_world s)) →
  coordinated {| sys_world := w';
                 sys_workers := <[i := at_pc wk (AtProcessing old)]> (sys_workers s);
                 sys_accepted := sys_accepted s |}.
Proof.
  intros Hco Hwk Hpc Henv Hfree Ht.
  destruct (co_reader _ Hco _ _ _ Hwk Hpc) as [Ho Hex].
  assert (Hnone : ∀ j wk0 o, sys_workers s !! j = Some wk0 →
    holds_lock (wk_pc wk0) = Some o → key_of wk0 ≠ key_of wk).
  { intros j wk0 o Hj Hh Hk.
    destruct (co_holder _ Hco _ _ _ Hj Hh) as (Hlocked & _).
    rewrite Hk in Hlocked. exact (locked_not_free _ _ _ old Hlocked Hfree). }
  assert (Hacc : sys_accepted s (key_of wk) = old).
  { rewrite (co_free _ Hco (key_of wk) Hnone).
    destruct Hfree as [Hn|Hu].
    - rewrite (stored_sequencer_None _ _ Hn).
      destruct old as [o|]; [|reflexivity]. exfalso. apply Hex; [discriminate|exact Hn].
    - apply unlocked_with_stored. exact Hu. }
  assert (Hother : ∀ key, key ≠ key_of wk → table w' !! key = table (sys_world s) !! key).
  { intros key Hk. rewrite Ht. apply lookup_insert_ne. congruence. }
  assert (Hlocked : locked_with (table w') (key_of wk) (seq_of wk)).
  { rewrite Ht. apply locked_with_lock_item. }
  split; cbn [sys_world sys_workers sys_accepted].
  - exact Henv.
  - intros j wk' o Hj Hh.
    destruct (workers_after _ _ _ _ _ _ Hwk Hj) as [[-> ->]|[_ Hj0]].
    + injection Hh as <-. auto.
    + destruct (co_holder _ Hco _ _ _ Hj0 Hh) as (Hl & Ha & Hol).
      split; [|auto]. apply (locked_with_ext (table (sys_world s))); [|exact Hl].
      apply Hother. exact (Hnone _ _ _ Hj0 Hh).
  - intros j1 j2 wk1 wk2 o1 o2 H1 H2 Ho1 Ho2 Hk.
    destruct (workers_after _ _ _ _ _ _ Hwk H1) as [[-> ->]|[_ H1']],
             (workers_after _ _ _ _ _ _ Hwk H2) as [[-> ->]|[_ H2']].
    + reflexivity.
    + exfalso. apply (Hnone _ _ _ H2' Ho2). symmetry. exact Hk.
    + exfalso. apply (Hnone _ _ _ H1' Ho1). exact Hk.
    + exact (co_exclusive _ Hco _ _ _ _ _ _ H1' H2' Ho1 Ho2 Hk).
  - intros j wk' o Hj Hpc'.
    destruct (workers_after _ _ _ _ _ _ Hwk Hj) as [[-> ->]|[_ Hj0]];
      [discriminate|].
    destruct (co_reader _ Hco _ _ _ Hj0 Hpc') as [Hol Hexj]. split; [exact Hol|].
    intros Hsome. destruct (decide (key_of wk' = key_of wk)) as [->|Hk].
    * rewrite Ht, lookup_insert_eq. discriminate.
    * rewrite (Hother _ Hk). apply Hexj. exact Hsome.
  - intros key Hno.
    assert (Hk : key ≠ key_of wk).
    { intros ->. exact (Hno i _ old (workers_here _ _ _ _ Hwk) eq_refl eq_refl). }
    rewrite (stored_sequencer_ext _ _ _ (Hother _ Hk)).
    apply (co_free _ Hco). intros j wk0 o Hj0 Hh.
    destruct (decide (j = i)) as [->|Hne].
    + assert (wk0 = wk) as -> by congruence. rewrite Hpc in Hh. discriminate.
    + apply (Hno j wk0 o); [|exact Hh].
      rewrite workers_elsewhere by exact Hne. exact Hj0.
  - intros key. destruct (decide (key = key_of wk)) as [->|Hk].
    + rewrite Hacc, (locked_with_stored _ _ _ Hlocked).
      apply is_older_seq_le. exact Ho.
    + rewrite (stored_sequencer_ext _ _ _ (Hother _ Hk)). apply (co_above _ Hco).
Qed.

(** Giving the lock back, by [unlock] or by [unlockAndRollBack], keeps the
    invariant, provided the accepted sequencer of the key is the one the
    call leaves in the record. *)
Lemma coordinated_release s i wk old pc' w' accepted' :
  coordinated s →
  sys_workers s !! i = Some wk →
  holds_lock (wk_pc wk) = Some old →
  env w' = [] →
  holds_lock pc' = None →
  (∀ o, pc' ≠ AtLock o) →
  (∀ key, key ≠ key_of wk → table w' !! key = table (sys_world s) !! key) →
  table w' !! key_of wk ≠ None →
  accepted' (key_of wk) = stored_sequencer (table w') (key_of wk) →
  (∀ key, key ≠ key_of wk → accepted' key = sys_accepted s key) →
  coordinated {| sys_world := w';
                 sys_workers := <[i := at_pc wk pc']> (sys_workers s);
                 sys_accepted := accepted' |}.
Proof.
  intros Hco Hwk Hh Henv Hh' Hnl Hother Hex Hacc Hacc'.
  assert (Hnone : ∀ j wk0 o, j ≠ i → sys_workers s !! j = Some wk0 →
    holds_lock (wk_pc wk0) = Some o → key_of wk0 ≠ key_of wk).
  { intros j wk0 o Hne Hj Hho Hk. apply Hne.
    exact (co_exclusive _ Hco _ _ _ _ _ _ Hj Hwk Hho Hh Hk). }
  split; cbn [sys_world sys_workers sys_accepted].
  - exact Henv.
  - intros j wk' o Hj Hho.
    destruct (workers_after _ _ _ _ _ _ Hwk Hj) as [[-> ->]|[Hne Hj0]].
    + cbn in Hho. congruence.
    + destruct (co_holder _ Hco _ _ _ Hj0 Hho) as (Hl & Ha & Hol).
      pose proof (Hnone _ _ _ Hne Hj0 Hho) as Hk.
      split; [|split; [|exact Hol]].
      * apply (locked_with_ext (table (sys_world s))); [apply Hother; exact Hk|exact Hl].
      * rewrite (Hacc' _ Hk). exact Ha.
  - intros j1 j2 wk1 wk2 o1 o2 H1 H2 Ho1 Ho2 Hk.
    destruct (workers_after _ _ _ _ _ _ Hwk H1) as [[-> ->]|[_ H1']];
      [cbn in Ho1; congruence|].
    destruct (workers_after _ _ _ _ _ _ Hwk H2) as [[-> ->]|[_ H2']];
      [cbn in Ho2; congruence|].
    exact (co_exclusive _ Hco _ _ _ _ _ _ H1' H2' Ho1 Ho2 Hk).
  - intros j wk' o Hj Hpc'.
    destruct (workers_after _ _ _ _ _ _ Hwk Hj) as [[-> ->]|[_ Hj0]];
      [exfalso; exact (Hnl _ Hpc')|].
    destruct (co_reader _ Hco _ _ _ Hj0 Hpc') as [Hol Hexj]. split; [exact Hol|].
    intros Hsome. destruct (decide (key_of wk' = key_of wk)) as [->|Hk].
    * exact Hex.
    * rewrite (Hother _ Hk). apply Hexj. exact Hsome.
  - intros key Hno. destruct (decide (key = key_of wk)) as [->|Hk]; [exact Hacc|].
    rewrite (Hacc' _ Hk), (stored_sequencer_ext _ _ _ (Hother _ Hk)).
    apply (co_free _ Hco). intros j wk0 o Hj0 Hho.
    destruct (decide (j = i)) as [->|Hne].
    + assert (wk0 = wk) as -> by congruence. congruence.
    + apply (Hno j wk0 o); [|exact Hho].
      rewrite workers_elsewhere by exact Hne. exact Hj0.
  - intros key. destruct (decide (key = key_of wk)) as [->|Hk].
    + rewrite Hacc. apply seq_le_refl.
    + rewrite (Hacc' _ Hk), (stored_sequencer_ext _ _ _ (Hother _ Hk)).
      apply (co_above _ Hco).
Qed.

(** Every call of every worker keeps the invariant. *)
Lemma coordinated_step s s' i :
  coordinated s → sys_step i s s' → coordinated s'.
Proof.
  intros Hco [wk pc' w' Hwk Hstep].
  destruct (step_transition _ _ _ _ (co_closed _ Hco) Hstep) as [Henv Htr].
  destruct Htr as [Ht Hh Ha Hl|old Hpc -> Hfree Ht|old v Hpc -> Hother Hex Hss
                  |old e Hpc -> Hother Hex Hss].
  - rewrite Ha. apply coordinated_silent; assumption.
  - replace (accept wk (AtProcessing old) (sys_accepted s)) with (sys_accepted s)
      by (unfold accept; rewrite Hpc; reflexivity).
    apply coordinated_acquire; assumption.
  - assert (Hh : holds_lock (wk_pc wk) = Some old) by (rewrite Hpc; reflexivity).
    destruct (co_holder _ Hco _ _ _ Hwk Hh) as (Hlocked & _ & _).
    apply (coordinated_release s i wk old); try assumption; try reflexivity.
    + discriminate.
    + unfold accept. rewrite Hpc. rewrite decide_True by reflexivity.
      rewrite Hss. symmetry. apply locked_with_stored. exact Hlocked.
    + intros key Hk. unfold accept. rewrite Hpc.
      rewrite decide_False by exact Hk. reflexivity.
  - assert (Hh : holds_lock (wk_pc wk) = Some old) by (rewrite Hpc; reflexivity).
    destruct (co_holder _ Hco _ _ _ Hwk Hh) as (_ & Hacc & _).
    replace (accept wk (Raised e) (sys_accepted s)) with (sys_accepted s)
      by (unfold accept; rewrite Hpc; reflexivity).
    apply (coordinated_release s i wk old); try assumption; try reflexivity.
    + discriminate.
    + rewrite Hss. exact Hacc.
Qed.

Lemma coordinated_reachable s : reachable s → coordinated s.
Proof.
  intros (s0 & Hinit & Hrun). apply coordinated_initial in Hinit.
  induction Hrun as [|x y z [i Hstep] _ IH]; [exact Hinit|].
  apply IH. exact (coordinated_step _ _ _ Hinit Hstep).
Qed.

(** Mutual exclusion: in a reachable state a key has at most one holder. *)
Lemma one_holder_per_key s i j wk wk' old old' :
  reachable s →
  sys_workers s !! i = Some wk → sys_workers s !! j = Some wk' →
  holds_lock (wk_pc wk) = Some old → holds_lock (wk_pc wk') = Some old' →
  key_of wk = key_of wk' → i = j.
Proof. intros Hr. exact (co_exclusive _ (coordinated_reachable _ Hr) i j wk wk' old old'). Qed.

(** The call of a worker that is about to roll back ends the worker. *)
Lemma roll_back_step wk w pc' w' old e :
  wk_pc wk = AtRollBack old e →
  step wk w = (Return pc', w') →
  holds_lock pc' = None.
Proof.
  intros Hpc. unfold step, goto. rewrite Hpc.
  destruct (unlockAndRollBack (wk_lock wk) old w) as [[[]|e'|] w1];
    intros [= <- <-]; reflexivity.
Qed.

(** C7. In every reachable state of the system of workers, and for every
    call that any worker makes next: the accepted sequencer of a key does
    not decrease; the stored sequencer is not below the accepted one,
    before and after the call; the stored sequencer does not decrease
    either, except when the call is the roll back of that key; and the
    roll back of a key always leaves exactly the accepted sequencer in the
    record. *)
Theorem sequencer_never_regresses s s' i (key : string) :
  reachable s →
  sys_step i s s' →
  seq_le (sys_accepted s key) (sys_accepted s' key) ∧
  seq_le (sys_accepted s key) (stored_sequencer (table (sys_world s)) key) ∧
  seq_le (sys_accepted s' key) (stored_sequencer (table (sys_world s')) key) ∧
  (seq_le (stored_sequencer (table (sys_world s)) key)
          (stored_sequencer (table (sys_world s')) key)
   ∨ (rolls_back s i key ∧
      stored_sequencer (table (sys_world s')) key = sys_accepted s key)) ∧
  (rolls_back s i key →
   stored_sequencer (table (sys_world s')) key = sys_accepted s key).
Proof.
  intros Hr Hstep.
  pose proof (coordinated_reachable _ Hr) as Hco.
  pose proof (coordinated_step _ _ _ Hco Hstep) as Hco'.
  split; [|split; [exact (co_above _ Hco key)|split; [exact (co_above _ Hco' key)|split]]];
    destruct Hstep as [wk pc' w' Hwk Hstep];
    destruct (step_transition _ _ _ _ (co_closed _ Hco) Hstep) as [_ Htr];
    cbn [sys_world sys_accepted];
    destruct Htr as [Ht Hh Ha Hl|old Hpc -> Hfree Ht|old v Hpc -> Hother Hex Hss
                    |old e Hpc -> Hother Hex Hss].
  - rewrite Ha. apply seq_le_refl.
  - unfold accept. rewrite Hpc. apply seq_le_refl.
  - assert (Hh : holds_lock (wk_pc wk) = Some old) by (rewrite Hpc; reflexivity).
    destruct (co_holder _ Hco _ _ _ Hwk Hh) as (_ & Hacc & Hol).
    unfold accept. rewrite Hpc. unfold key_of in *.
    destruct (decide (key = _key (wk_lock wk))) as [->|_]; [|apply seq_le_refl].
    rewrite Hacc. apply is_older_seq_le. exact Hol.
  - unfold accept. rewrite Hpc. apply seq_le_refl.
  - left. rewrite Ht. apply seq_le_refl.
  - left. destruct (decide (key = key_of wk)) as [->|Hk].
    + destruct (co_reader _ Hco _ _ _ Hwk Hpc) as [Hol _].
      assert (Hlk : locked_with (table w') (key_of wk) (seq_of wk))
        by (rewrite Ht; apply locked_with_lock_item).
      rewrite (locked_with_stored _ _ _ Hlk).
      destruct Hfree as [Hn|Hu].
      * rewrite (stored_sequencer_None _ _ Hn). exact I.
      * rewrite (unlocked_with_stored _ _ _ Hu). apply is_older_seq_le. exact Hol.
    + rewrite (stored_sequencer_ext (table (sys_world s)) (table w') key);
        [apply seq_le_refl|].
      rewrite Ht. apply lookup_insert_ne. congruence.
  - left. destruct (decide (key = key_of wk)) as [->|Hk].
    + rewrite Hss. apply seq_le_refl.
    + rewrite (stored_sequencer_ext _ _ _ (Hother _ Hk)). apply seq_le_refl.
  - destruct (decide (key = key_of wk)) as [->|Hk].
    + right. split; [exists wk, old, e; auto|].
      assert (Hh : holds_lock (wk_pc wk) = Some old) by (rewrite Hpc; reflexivity).
      destruct (co_holder _ Hco _ _ _ Hwk Hh) as (_ & Hacc & _).
      rewrite Hss, Hacc. reflexivity.
    + left. rewrite (stored_sequencer_ext _ _ _ (Hother _ Hk)). apply seq_le_refl.
  - intros (wk0 & old0 & e0 & Hwk0 & Hpc0 & _).
    assert (wk0 = wk) as -> by congruence.
    rewrite (roll_back_step _ _ _ _ _ _ Hpc0 Hstep), Hpc0 in Hh. discriminate.
  - intros (wk0 & old0 & e0 & Hwk0 & Hpc0 & _). congruence.
  - intros (wk0 & old0 & e0 & Hwk0 & Hpc0 & _). congruence.
  - intros (wk0 & old0 & e0 & Hwk0 & Hpc0 & <-).
    assert (wk0 = wk) as -> by congruence.
    assert (Hh : holds_lock (wk_pc wk) = Some old) by (rewrite Hpc; reflexivity).
    destruct (co_holder _ Hco _ _ _ Hwk Hh) as (_ & Hacc & _).
    unfold key_of in *. rewrite Hss, Hacc. reflexivity.
Qed.
End Invariant.

(** ** The program points and the loop are the same program *)

Section Agreement.
Context {Ctx Value : Type}.
Implicit Types (wk : Worker Ctx Value) (w : World) (pc : Pc Value).

Lemma steps_S n wk w :
  steps (S n) wk w =
  match step wk w with
  | (Return pc, w1) => steps n (at_pc wk pc) w1
  | (Raise e, w1) => (Raise e, w1)
  | (OutOfFuel, w1) => (OutOfFuel, w1)
  end.
Proof. reflexivity. Qed.

Lemma steps_Returned n wk rv w :
  steps n (at_pc wk (Returned rv)) w = (Return (Returned rv), w).
Proof. induction n as [|n IH]; [reflexivity|]. rewrite steps_S. exact IH. Qed.

Lemma steps_Raised n wk e w :
  steps n (at_pc wk (Raised e)) w = (Return (Raised e), w).
Proof. induction n as [|n IH]; [reflexivity|]. rewrite steps_S. exact IH. Qed.

(** A backoff followed by the rest of the loop, in calls. *)
Lemma backoff_steps wk w r w' pc fuel :
  (∀ w0 r0 w0' pc0,
     handle_notification_if_up_to_date fuel (wk_event wk) (wk_context wk)
       (wk_lock wk) (wk_processing_fn wk) (wk_backoff_fn wk) w0 = (r0, w0') →
     final_pc r0 = Some pc0 →
     ∃ n, steps n (at_pc wk AtRead) w0 = (Return pc0, w0')) →
  (call_backoff (wk_backoff_fn wk);;
   handle_notification_if_up_to_date fuel (wk_event wk) (wk_context wk)
     (wk_lock wk) (wk_processing_fn wk) (wk_backoff_fn wk)) w = (r, w') →
  final_pc r = Some pc →
  ∃ n, steps n (at_pc wk AtBackoff) w = (Return pc, w').
Proof.
  intros IH. unfold mbind, M_bind, bind, call_backoff.
  destruct (wk_backoff_fn wk) as [[]|e|] eqn:Hb.
  - intros Hh Hpc. destruct (IH _ _ _ _ Hh Hpc) as [n Hn].
    exists (S n). rewrite steps_S. unfold step, goto, call_backoff.
    cbn [wk_pc at_pc wk_backoff_fn]. rewrite Hb. exact Hn.
  - intros [= <- <-] [= <-]. exists 1%nat. rewrite steps_S.
    unfold step, goto, call_backoff. cbn [wk_pc at_pc wk_backoff_fn]. rewrite Hb.
    reflexivity.
  - intros [= <- <-] [=].
Qed.

(** Whatever the loop returns or raises, the worker run call by call
    reaches, with the same world. *)
Lemma handle_steps fuel wk :
  ∀ w r w' pc,
    handle_notification_if_up_to_date fuel (wk_event wk) (wk_context wk)
      (wk_lock wk) (wk_processing_fn wk) (wk_backoff_fn wk) w = (r, w') →
    final_pc r = Some pc →
    ∃ n, steps n (at_pc wk AtRead) w = (Return pc, w').
Proof.
  induction fuel as [|fuel IH]; intros w r w' pc; [intros [= <- <-] [=]|].
  rewrite handle_unfold. cbv zeta.
  destruct (getCurrentSequencer (wk_lock wk) w) as [[old|e|] w1] eqn:Hread.
  - destruct (is_older old _) eqn:Ho.
    + destruct (lockForSequencer (wk_lock wk) old _ w1) as [[[|]|e|] w2] eqn:Hlock;
        cbn [negb].
      * (* locked: the callback, then unlock or roll back *)
        destruct (wk_processing_fn wk _ _) as [v|e|] eqn:Hp.
        -- unfold mbind, M_bind, bind.
           destruct (unlock (wk_lock wk) _) as [[[]|e|] w3] eqn:Hu;
             intros [= <- <-] [= <-]; exists 4%nat;
             rewrite steps_S; unfold step at 1, goto;
             cbn [wk_pc at_pc wk_lock wk_event]; rewrite Hread, Ho;
             rewrite steps_S; unfold step at 1, goto;
             cbn [wk_pc at_pc wk_lock wk_event]; rewrite Hlock; cbn [negb];
             rewrite steps_S; unfold step at 1, goto, call_processing;
             cbn [wk_pc at_pc wk_lock wk_event wk_processing_fn wk_context];
             rewrite Hp;
             rewrite steps_S; unfold step at 1, goto;
             cbn [wk_pc at_pc wk_lock wk_event]; rewrite Hu; reflexivity.
        -- unfold mbind, M_bind, bind.
           destruct (unlockAndRollBack (wk_lock wk) _ _) as [[[]|e'|] w3] eqn:Hu;
             intros [= <- <-] [= <-]; exists 4%nat;
             rewrite steps_S; unfold step at 1, goto;
             cbn [wk_pc at_pc wk_lock wk_event]; rewrite Hread, Ho;
             rewrite steps_S; unfold step at 1, goto;
             cbn [wk_pc at_pc wk_lock wk_event]; rewrite Hlock; cbn [negb];
             rewrite steps_S; unfold step at 1, goto, call_processing;
             cbn [wk_pc at_pc wk_lock wk_event wk_processing_fn wk_context];
             rewrite Hp;
             rewrite steps_S; unfold step at 1, goto;
             cbn [wk_pc at_pc wk_lock wk_event]; rewrite Hu; reflexivity.
        -- intros [= <- <-] [=].
      * (* not locked: back off and start again *)
        intros Hh Hpc.
        destruct (backoff_steps wk w2 r w' pc fuel IH Hh Hpc) as [n Hn].
        exists (S (S n)).
        rewrite steps_S; unfold step at 1, goto;
          cbn [wk_pc at_pc wk_lock wk_event]; rewrite Hread, Ho.
        rewrite steps_S; unfold step at 1, goto;
          cbn [wk_pc at_pc wk_lock wk_event]; rewrite Hlock; cbn [negb].
        exact Hn.
      * intros [= <- <-] [= <-]. exists 2%nat.
        rewrite steps_S; unfold step at 1, goto;
          cbn [wk_pc at_pc wk_lock wk_event]; rewrite Hread, Ho.
        rewrite steps_S; unfold step at 1, goto;
          cbn [wk_pc at_pc wk_lock wk_event]; rewrite Hlock. reflexivity.
      * intros [= <- <-] [=].
    + intros [= <- <-] [= <-]. exists 1%nat.
      rewrite steps_S; unfold step at 1, goto;
        cbn [wk_pc at_pc wk_lock wk_event]; rewrite Hread, Ho. reflexivity.
  - destruct (decide (e = ItemLockedException)) as [->|He].
    + intros Hh Hpc.
      destruct (backoff_steps wk w1 r w' pc fuel IH Hh Hpc) as [n Hn].
      exists (S n).
      rewrite steps_S; unfold step at 1, goto;
        cbn [wk_pc at_pc wk_lock wk_event]; rewrite Hread. exact Hn.
    + intros Hh Hpc. exists 1%nat.
      rewrite steps_S; unfold step at 1, goto;
        cbn [wk_pc at_pc wk_lock wk_event]; rewrite Hread.
      destruct e; try contradiction; injection Hh as <- <-;
        injection Hpc as <-; reflexivity.
  - intros [= <- <-] [=].
Qed.
End Agreement.

(** ** Schedules *)

Section Schedules.
Context {Ctx Value : Type}.
Implicit Types (wk : Worker Ctx Value) (s : System Ctx Value).

Lemma advance_sys_step s i wk pc' w' :
  sys_workers s !! i = Some wk →
  step wk (sys_world s) = (Return pc', w') →
  sys_step i s (advance i s).
Proof.
  intros Hwk Hstep. unfold advance. rewrite Hwk, Hstep.
  exact (sys_step_call i s wk pc' w' Hwk Hstep).
Qed.

Lemma advance_rtc s i : rtc sys_steps s (advance i s).
Proof.
  unfold advance. destruct (sys_workers s !! i) as [wk|] eqn:Hwk; [|reflexivity].
  destruct (step wk (sys_world s)) as [[pc'|e|] w'] eqn:Hstep; try reflexivity.
  apply rtc_once. exists i. exact (sys_step_call i s wk pc' w' Hwk Hstep).
Qed.

Lemma run_schedule_rtc schedule : ∀ s, rtc sys_steps s (run_schedule schedule s).
Proof.
  induction schedule as [|i schedule IH]; intros s; [reflexivity|].
  cbn [run_schedule foldl]. etrans; [apply (advance_rtc s i)|apply IH].
Qed.

Lemma initial_start (t : Table) (ws : list (Worker Ctx Value)) : initial (start t ws).
Proof.
  split; [reflexivity|]. split; [|reflexivity].
  intros i wk. cbn [start sys_workers]. rewrite list_lookup_fmap.
  destruct (ws !! i); [|discriminate]. intros [= <-]. reflexivity.
Qed.

Lemma run_schedule_reachable schedule s :
  initial s → reachable (run_schedule schedule s).
Proof. intros Hs. exists s. split; [exact Hs|apply run_schedule_rtc]. Qed.
End Schedules.

(** * The scenarios of the tests and of the specification *)

(** ** Instances of the theorems above *)

(** The duplicate of [test_notification_is_ignored_when_it_is_old_or_duplicate]:
    [1f] is stored, [1f] arrives. *)
Lemma stale_notification_is_skipped_witness :
  ∃ w',
    handle_notification_if_up_to_date 1 (notification "1f") () (lock_of "req-1")
      says_hello _backoff stored_1f = (Return (OUTCOME_OUT_OF_DATE, None), w') ∧
    table w' = next_table stored_1f ∧
    trace w' = trace stored_1f ++ [GetItem "bar/foo"] ∧
    filter is_write (trace w') = filter is_write (trace stored_1f) ∧
    filter is_processing (trace w') = filter is_processing (trace stored_1f).
Proof.
  apply (stale_notification_is_skipped 0 (notification "1f") () (lock_of "req-1")
           says_hello _backoff stored_1f "1f").
  - reflexivity.
  - split; reflexivity.
  - reflexivity.
Defined.

(** [unlock] by [req-1] on a record that [req-0] locked. *)
Lemma unlock_writes_only_lock_status_and_updated_by_witness :
  ∃ w',
    unlock (lock_of "req-1") locked_10 = (Return (), w') ∧
    lookup_item (table w') "bar/foo"
      = Some (<[FIELD_UPDATED_BY := Str "req-1"]>
              (<[FIELD_LOCK_STATUS := Str LOCK_VALUE_UNLOCKED]> locked_10_item)) ∧
    (∀ name, name ≠ FIELD_LOCK_STATUS → name ≠ FIELD_UPDATED_BY →
       stored_attribute (table w') "bar/foo" name = locked_10_item !! name) ∧
    stored_attribute (table w') "bar/foo" FIELD_SEQUENCER
      = locked_10_item !! FIELD_SEQUENCER ∧
    stored_attribute (table w') "bar/foo" FIELD_KEY = locked_10_item !! FIELD_KEY ∧
    (∀ key, key ≠ "bar/foo" → table w' !! key = next_table locked_10 !! key).
Proof.
  apply (unlock_writes_only_lock_status_and_updated_by (lock_of "req-1")
           locked_10 locked_10_item).
  - reflexivity.
  - reflexivity.
Defined.

(** [test_notification_is_processed_when_up_to_date_and_no_lock]: [0] is
    stored, [1] arrives, the callback returns ["hello"]. *)
Lemma processed_notification_is_unlocked_witness :
  ∃ w3,
    handle_notification_if_up_to_date 1 (notification "1") () (lock_of "req-1")
      says_hello _backoff stored_0 = (Return (OUTCOME_PROCESSED, Some "hello"), w3) ∧
    unlocked_with (table w3) "bar/foo" (Some "1") ∧
    trace w3 = trace stored_0_locked
               ++ [Processing (notification "1");
                   UpdateItem "bar/foo" (unlock_sets (lock_of "req-1"))].
Proof.
  apply (processed_notification_is_unlocked 0 (notification "1") () (lock_of "req-1")
           says_hello _backoff stored_0 stored_0_read stored_0_locked (Some "0") "hello").
  - reflexivity.
  - reflexivity.
  - reflexivity.
  - reflexivity.
  - reflexivity.
  - reflexivity.
Defined.

(** [test_state_rolled_backed_after_processing_failure]: [0] is stored, [1]
    arrives, the callback raises. *)
Lemma failed_processing_rolls_back_witness :
  ∃ w3,
    handle_notification_if_up_to_date 1 (notification "1") () (lock_of "req-1")
      fails _backoff stored_0 = (Raise (OtherException "RuntimeError"), w3) ∧
    unlocked_with (table w3) "bar/foo" (Some "0") ∧
    stored_sequencer (table w3) "bar/foo" = Some "0" ∧
    stored_attribute (table w3) "bar/foo" FIELD_UPDATED_BY = Some (Str "req-1") ∧
    trace w3 = trace stored_0_locked
               ++ [Processing (notification "1");
                   UpdateItem "bar/foo" (rollback_sets (lock_of "req-1") (Some "0"))].
Proof.
  apply (failed_processing_rolls_back 0 (notification "1") () (lock_of "req-1")
           fails _backoff stored_0 stored_0_read stored_0_locked (Some "0")
           (OtherException "RuntimeError")).
  - reflexivity.
  - reflexivity.
  - reflexivity.
  - reflexivity.
  - reflexivity.
Defined.

(** The retry of the specification: [05] is stored, the processing of [10]
    fails; [10] again is processed, [05] and older are skipped. *)
Lemma failed_notification_is_retried_witness :
  ∃ w1,
    handle_notification_if_up_to_date 1 (notification "10") () (lock_of "req-1")
      fails _backoff stored_05 = (Raise (OtherException "RuntimeError"), w1) ∧
    (∀ fuel' context' lock' (processing_fn' : Event → () → Res string) backoff_fn',
       _key lock' = _key (lock_of "req-1") →
       ∃ w2,
         handle_notification_if_up_to_date (S fuel') (notification "10") context' lock'
           processing_fn' backoff_fn' w1
         = (match processing_fn' (notification "10") context' with
            | Return v => Return (OUTCOME_PROCESSED, Some v)
            | Raise e' => Raise e'
            | OutOfFuel => OutOfFuel
            end, w2) ∧
         filter is_processing (trace w2)
           = filter is_processing (trace w1) ++ [Processing (notification "10")]) ∧
    (∀ fuel' event' context' lock' (processing_fn' : Event → () → Res string)
       backoff_fn',
       _key lock' = _key (lock_of "req-1") →
       String.leb (detail_object_sequencer event') "05" = true →
       ∃ w2,
         handle_notification_if_up_to_date (S fuel') event' context' lock'
           processing_fn' backoff_fn' w1
         = (Return (OUTCOME_OUT_OF_DATE, None), w2) ∧
         filter is_processing (trace w2) = filter is_processing (trace w1)).
Proof.
  apply (failed_notification_is_retried 0 (notification "10") () (lock_of "req-1")
           fails _backoff stored_05 "05" (OtherException "RuntimeError")).
  - apply Forall_nil_2.
  - split; reflexivity.
  - reflexivity.
  - reflexivity.
Defined.

(** [test_notification_is_processed_for_new_object]: nothing is stored,
    [20] arrives. *)
Lemma first_notification_is_processed_witness :
  ∃ w',
    handle_notification_if_up_to_date 1 (notification "20") () (lock_of "req-1")
      says_hello _backoff unseen
    = (match says_hello (notification "20") () with
       | Return v => Return (OUTCOME_PROCESSED, Some v)
       | Raise e => Raise e
       | OutOfFuel => OutOfFuel
       end, w') ∧
    (handle_notification_if_up_to_date 1 (notification "20") () (lock_of "req-1")
       says_hello _backoff unseen).1 ≠ Return (OUTCOME_OUT_OF_DATE, None) ∧
    filter is_processing (trace w')
      = filter is_processing (trace unseen) ++ [Processing (notification "20")] ∧
    (∀ v, says_hello (notification "20") () = Return v →
          unlocked_with (table w') (_key (lock_of "req-1"))
            (Some (detail_object_sequencer (notification "20")))).
Proof.
  apply (first_notification_is_processed 0 (notification "20") () (lock_of "req-1")
           says_hello _backoff unseen).
  - apply Forall_nil_2.
  - reflexivity.
Defined.

(** The record is locked when [30] arrives and is released during the
    backoff. *)
Lemma locked_read_is_retried_witness :
  (handle_notification_if_up_to_date 2 (notification "30") () (lock_of "req-1")
     says_hello _backoff contended).1 ≠ Raise ItemLockedException ∧
  (∀ w1, getCurrentSequencer (lock_of "req-1") contended
         = (Raise ItemLockedException, w1) →
     handle_notification_if_up_to_date 3 (notification "30") () (lock_of "req-1")
       says_hello _backoff contended
     = (call_backoff _backoff;;
        handle_notification_if_up_to_date 2 (notification "30") () (lock_of "req-1")
          says_hello _backoff) w1 ∧
     table w1 = next_table contended ∧
     trace w1 = trace contended ++ [GetItem (_key (lock_of "req-1"))] ∧
     (_backoff = Return () →
        handle_notification_if_up_to_date 3 (notification "30") () (lock_of "req-1")
          says_hello _backoff contended
        = handle_notification_if_up_to_date 2 (notification "30") () (lock_of "req-1")
            says_hello _backoff (log Backoff w1) ∧
        (trace contended
         ++ [GetItem (_key (lock_of "req-1")); Backoff;
             GetItem (_key (lock_of "req-1"))]) `prefix_of`
        trace (handle_notification_if_up_to_date 4 (notification "30") ()
                 (lock_of "req-1") says_hello _backoff contended).2 ∧
        ∀ newSeq : string,
          next_fault w1 = None →
          unlocked_with (next_table w1) (_key (lock_of "req-1")) (Some newSeq) →
          String.leb (detail_object_sequencer (notification "30")) newSeq = true →
          ∃ w2,
            handle_notification_if_up_to_date 4 (notification "30") ()
              (lock_of "req-1") says_hello _backoff contended
            = (Return (OUTCOME_OUT_OF_DATE, None), w2) ∧
            table w2 = next_table w1 ∧
            trace w2 = trace contended
                       ++ [GetItem (_key (lock_of "req-1")); Backoff;
                           GetItem (_key (lock_of "req-1"))])).
Proof.
  apply (locked_read_is_retried 2 (notification "30") () (lock_of "req-1")
           says_hello _backoff contended).
  - discriminate.
  - intros ev ctx. discriminate.
Defined.

(** [05] is stored and [10] arrives; another invocation completes [20]
    between the read and the write. *)
Lemma lost_race_rereads_witness :
  handle_notification_if_up_to_date 1 (notification "10") () (lock_of "req-1")
    says_hello _backoff raced
  = (call_backoff _backoff;;
     handle_notification_if_up_to_date 0 (notification "10") () (lock_of "req-1")
       says_hello _backoff) raced_lost ∧
  table raced_lost = next_table raced_read ∧
  (_backoff = Return () →
     (trace raced_lost ++ [Backoff; GetItem (_key (lock_of "req-1"))]) `prefix_of`
     trace (handle_notification_if_up_to_date 2 (notification "10") ()
              (lock_of "req-1") says_hello _backoff raced).2 ∧
     ∀ newSeq : string,
       next_fault raced_lost = None →
       unlocked_with (next_table raced_lost) (_key (lock_of "req-1")) (Some newSeq) →
       String.leb (detail_object_sequencer (notification "10")) newSeq = true →
       ∃ w3,
         handle_notification_if_up_to_date 2 (notification "10") () (lock_of "req-1")
           says_hello _backoff raced = (Return (OUTCOME_OUT_OF_DATE, None), w3) ∧
         table w3 = next_table raced_lost ∧
         trace w3 = trace raced_lost ++ [Backoff; GetItem (_key (lock_of "req-1"))]).
Proof.
  apply (lost_race_rereads 0 (notification "10") () (lock_of "req-1")
           says_hello _backoff raced raced_read raced_lost (Some "05")).
  - reflexivity.
  - reflexivity.
  - reflexivity.
Defined.

(** Two invocations race on a new key; the one that took the lock fails and
    rolls back. *)
Lemma sequencer_never_regresses_witness :
  seq_le (sys_accepted before_roll_back "bar/foo")
         (sys_accepted after_roll_back "bar/foo") ∧
  seq_le (sys_accepted before_roll_back "bar/foo")
         (stored_sequencer (table (sys_world before_roll_back)) "bar/foo") ∧
  seq_le (sys_accepted after_roll_back "bar/foo")
         (stored_sequencer (table (sys_world after_roll_back)) "bar/foo") ∧
  (seq_le (stored_sequencer (table (sys_world before_roll_back)) "bar/foo")
          (stored_sequencer (table (sys_world after_roll_back)) "bar/foo")
   ∨ (rolls_back before_roll_back 0 "bar/foo" ∧
      stored_sequencer (table (sys_world after_roll_back)) "bar/foo"
      = sys_accepted before_roll_back "bar/foo")) ∧
  (rolls_back before_roll_back 0 "bar/foo" →
   stored_sequencer (table (sys_world after_roll_back)) "bar/foo"
   = sys_accepted before_roll_back "bar/foo").
Proof.
  apply (sequencer_never_regresses before_roll_back after_roll_back 0 "bar/foo").
  - apply run_schedule_reachable, initial_start.
  - eapply advance_sys_step; reflexivity.
Defined.

(** ** The scenarios, evaluated *)

(** In the race above the roll back is the one call after which the stored
    sequencer is lower than before: from [10] back to the unseen state. *)
Example roll_back_restores_the_accepted_sequencer :
  stored_sequencer (table (sys_world before_roll_back)) "bar/foo" = Some "10" ∧
  sys_accepted before_roll_back "bar/foo" = None ∧
  stored_sequencer (table (sys_world after_roll_back)) "bar/foo" = None ∧
  stored_attribute (table (sys_world after_roll_back)) "bar/foo" FIELD_SEQUENCER
    = Some Null.
Proof. repeat split; reflexivity. Qed.

(** The invocation that lost the race then takes the lock on the rolled
    back record and completes. *)
Example two_workers_finish :
  wk_pc <$> sys_workers (run_schedule [0; 1; 0; 1; 0; 0; 1; 1; 1; 1; 1]%nat two_workers)
  = [Raised (OtherException "RuntimeError");
     Returned (OUTCOME_PROCESSED, Some "hello")].
Proof. vm_compute. reflexivity. Qed.

(** Section 8 of the specification, end to end: one invocation after the
    other on a key never seen before. *)
Example newer_then_older :
  (deliver "10" says_hello unseen).1 = Return (OUTCOME_PROCESSED, Some "hello") ∧
  (deliver "05" says_hello (deliver "10" says_hello unseen).2).1
  = Return (OUTCOME_OUT_OF_DATE, None).
Proof. split; vm_compute; reflexivity. Qed.

Example older_then_newer :
  (deliver "05" says_hello unseen).1 = Return (OUTCOME_PROCESSED, Some "hello") ∧
  (deliver "10" says_hello (deliver "05" says_hello unseen).2).1
  = Return (OUTCOME_PROCESSED, Some "hello").
Proof. split; vm_compute; reflexivity. Qed.

Example duplicate :
  (deliver "10" says_hello (deliver "10" says_hello unseen).2).1
  = Return (OUTCOME_OUT_OF_DATE, None).
Proof. vm_compute. reflexivity. Qed.

Example failure_then_retry :
  (deliver "10" fails unseen).1 = Raise (OtherException "RuntimeError") ∧
  (deliver "10" says_hello (deliver "10" fails unseen).2).1
  = Return (OUTCOME_PROCESSED, Some "hello").
Proof. split; vm_compute; reflexivity. Qed.

(** The tests of [test_s3index.py]. *)
Example givenKeyNotSeen_getCurrentSequencer_returnsNone :
  (getCurrentSequencer (lock_of "") unseen).1 = Return None.
Proof. reflexivity. Qed.

Example givenKeySeen_getCurrentSequencer_returnsSequencer :
  (getCurrentSequencer (lock_of "")
     (alone (table_with (Some (record "bar/foo" (Some "10") "" ""))))).1
  = Return (Some "10").
Proof. reflexivity. Qed.

Example givenRowLocked_getCurrentSequencer_raises :
  (getCurrentSequencer (lock_of "") locked_10).1 = Raise ItemLockedException.
Proof. reflexivity. Qed.

Example givenConditionalFails_lockForSequencer_returnsFalse :
  (lockForSequencer (lock_of "") (Some "") "10" locked_10).1 = Return false ∧
  table (lockForSequencer (lock_of "") (Some "") "10" locked_10).2 = table locked_10.
Proof. split; reflexivity. Qed.

Example givenPutItemThrowsUnrelatedError_lockForSequencer_reraises :
  (lockForSequencer (lock_of "") (Some "") "10"
     (among (table_with None) [service_fails ConnectionLost])).1
  = Raise (OtherException "EndpointConnectionError").
Proof. reflexivity. Qed.

(** The record is locked when [30] arrives and is released while the
    handler backs off: the handler reads again and processes. *)
Example contended_then_processed :
  (handle_notification_if_up_to_date 2 (notification "30") () (lock_of "req-1")
     says_hello _backoff contended).1
  = Return (OUTCOME_PROCESSED, Some "hello").
Proof. vm_compute. reflexivity. Qed.

(** [05] is read, another invocation completes [20] before the write: the
    write fails, and the second read finds the notification out of date. *)
Example raced_then_out_of_date :
  (handle_notification_if_up_to_date 2 (notification "10") () (lock_of "req-1")
     says_hello _backoff raced).1 = Return (OUTCOME_OUT_OF_DATE, None) ∧
  trace (handle_notification_if_up_to_date 2 (notification "10") () (lock_of "req-1")
           says_hello _backoff raced).2
  = [GetItem "bar/foo";
     PutItem (lock_item (lock_of "req-1") "10") (lock_condition (Some "05"));
     Backoff;
     GetItem "bar/foo"].
Proof. split; vm_compute; reflexivity. Qed.

(** * Further properties of the code *)

(** ** The methods of S3Lock together *)

Lemma getCurrentSequencer_locked (self : S3Lock) (w : World) (s : string) :
  next_fault w = None →
  locked_with (next_table w) (_key self) s →
  getCurrentSequencer self w = (Raise ItemLockedException, arrived (GetItem (_key self)) w).
Proof.
  intros Hf [Hl Hs]. rewrite getCurrentSequencer_eq, Hf.
  apply stored_attribute_Some in Hl as (item & Hi & Hl).
  apply stored_attribute_Some in Hs as (item' & Hi' & Hs).
  rewrite Hi in Hi'. injection Hi' as <-.
  rewrite Hi, Hl, Hs, truthy_locked. reflexivity.
Qed.

Lemma lockForSequencer_refused (self : S3Lock) (old : option string) (new : string)
    (w : World) :
  next_fault w = None →
  ¬ lock_is_free (next_table w) (_key self) old →
  lockForSequencer self old new w
  = (Return false, arrived (PutItem (lock_item self new) (lock_condition old)) w).
Proof.
  intros Hf Hn. rewrite lockForSequencer_eq, Hf. cbv zeta.
  case_condition E; [|reflexivity].
  exfalso. apply Hn. apply eval_lock_condition. exact E.
Qed.

(** X1. Mutual exclusion, call by call.  Once [lockForSequencer] has
    returned [True], and until the record is written again, every other
    [lockForSequencer] on the key returns [False] without writing, whatever
    sequencers it is given, and every read of the key raises
    [ItemLockedException]. *)
Theorem locked_key_refuses_everyone (self self' : S3Lock) (old old' : option string)
    (new new' : string) (w w1 : World) :
  lockForSequencer self old new w = (Return true, w1) →
  _key self' = _key self →
  next_fault w1 = None →
  next_table w1 !! _key self = table w1 !! _key self →
  (lockForSequencer self' old' new' w1).1 = Return false ∧
  table (lockForSequencer self' old' new' w1).2 = next_table w1 ∧
  (getCurrentSequencer self' w1).1 = Raise ItemLockedException.
Proof.
  intros Hl Hk Hf Hq.
  apply lockForSequencer_true in Hl as (_ & _ & Hw1).
  assert (Hlocked : locked_with (next_table w1) (_key self') new).
  { rewrite Hk. apply (locked_with_ext (table w1)); [exact Hq|].
    rewrite Hw1. apply locked_with_lock_item. }
  rewrite (lockForSequencer_refused self' old' new' w1 Hf
             (locked_not_free _ _ _ old' Hlocked)).
  rewrite (getCurrentSequencer_locked self' w1 new Hf Hlocked).
  repeat split.
Qed.

(** X2. Lock, then unlock: any reader of the key then gets the new
    sequencer, and the lock can be taken again from it. *)
Theorem lock_then_unlock_reads_new (self self' : S3Lock) (old : option string)
    (new : string) (w w1 w2 : World) :
  lockForSequencer self old new w = (Return true, w1) →
  next_table w1 !! _key self = table w1 !! _key self →
  unlock self w1 = (Return (), w2) →
  _key self' = _key self →
  next_fault w2 = None →
  next_table w2 !! _key self = table w2 !! _key self →
  (getCurrentSequencer self' w2).1 = Return (Some new) ∧
  lock_is_free (next_table w2) (_key self) (Some new).
Proof.
  intros Hl Hq1 Hu Hk Hf2 Hq2.
  apply lockForSequencer_true in Hl as (_ & _ & Hw1).
  assert (Hi : lookup_item (next_table w1) (_key self) = Some (lock_item self new)).
  { rewrite (lookup_item_ext _ _ _ Hq1), Hw1. cbn [table with_table].
    rewrite lookup_item_insert_eq, lock_item_with_key. reflexivity. }
  assert (Hf1 : next_fault w1 = None).
  { rewrite unlock_eq in Hu. destruct (next_fault w1); [discriminate|reflexivity]. }
  destruct (unlock_existing self w1 _ Hf1 Hi) as (w2' & Hu' & Hi2 & _).
  rewrite Hu in Hu'. injection Hu' as <-.
  assert (Hun : unlocked_with (next_table w2) (_key self) (Some new)).
  { unfold unlocked_with. rewrite !(stored_attribute_ext _ _ _ _ Hq2).
    unfold stored_attribute. rewrite Hi2. cbn [mbind option_bind]. split.
    - rewrite lookup_insert_ne by discriminate. apply lookup_insert_eq.
    - rewrite !lookup_insert_ne by discriminate. apply lock_item_sequencer. }
  split; [|right; exact Hun].
  rewrite <- Hk in Hun. rewrite (getCurrentSequencer_unlocked self' w2 _ Hf2 Hun).
  reflexivity.
Qed.

(** X3. Lock, then roll back: any reader of the key then gets the rolled
    back sequencer again ([None] for a key that was unseen), and the lock
    can be taken again from it, whatever anyone wrote in between. *)
Theorem lock_then_roll_back_reads_old (self self' : S3Lock) (old : option string)
    (new : string) (w w1 w2 : World) :
  lockForSequencer self old new w = (Return true, w1) →
  unlockAndRollBack self old w1 = (Return (), w2) →
  _key self' = _key self →
  next_fault w2 = None →
  next_table w2 !! _key self = table w2 !! _key self →
  (getCurrentSequencer self' w2).1 = Return old ∧
  lock_is_free (next_table w2) (_key self) old.
Proof.
  intros _ Hu Hk Hf2 Hq2.
  assert (Hf1 : next_fault w1 = None).
  { rewrite unlockAndRollBack_eq in Hu.
    destruct (next_fault w1); [discriminate|reflexivity]. }
  destruct (unlockAndRollBack_unlocked self old w1 Hf1) as (w2' & Hu' & Hun & _).
  rewrite Hu in Hu'. injection Hu' as <-.
  assert (Hun2 : unlocked_with (next_table w2) (_key self) old).
  { destruct Hun. split; rewrite (stored_attribute_ext _ _ _ _ Hq2); assumption. }
  split; [|right; exact Hun2].
  rewrite <- Hk in Hun2. rewrite (getCurrentSequencer_unlocked self' w2 _ Hf2 Hun2).
  reflexivity.
Qed.

(** X4. [unlock] on a key that has no record creates one, without a
    sequencer.  From then on the key is unusable: every read raises
    [KeyError] on the sequencer, every [lockForSequencer] returns [False],
    and the handler raises that [KeyError] at its first read, without
    calling the callback. *)
Theorem unlock_without_record_leaves_no_sequencer {Ctx Value : Type}
    (self self' : S3Lock) (w : World) :
  next_fault w = None →
  next_table w !! _key self = None →
  _key self' = _key self →
  ∃ w1,
    unlock self w = (Return (), w1) ∧
    table w1 !! _key self ≠ None ∧
    stored_attribute (table w1) (_key self) FIELD_SEQUENCER = None ∧
    (next_fault w1 = None →
     next_table w1 !! _key self = table w1 !! _key self →
     (getCurrentSequencer self' w1).1 = Raise (KeyError FIELD_SEQUENCER) ∧
     (∀ old new, (lockForSequencer self' old new w1).1 = Return false) ∧
     (∀ fuel event (context : Ctx) (processing_fn : Event → Ctx → Res Value)
        backoff_fn,
        handle_notification_if_up_to_date (S fuel) event context self'
          processing_fn backoff_fn w1
        = (Raise (KeyError FIELD_SEQUENCER), arrived (GetItem (_key self')) w1))).
Proof.
  intros Hf Hn Hk. rewrite unlock_eq, Hf.
  apply lookup_item_None in Hn. rewrite Hn. cbn [default].
  eexists. split; [reflexivity|]. cbn [table with_table].
  split; [rewrite lookup_insert_eq; discriminate|].
  split.
  { rewrite stored_attribute_insert_eq. reflexivity. }
  intros Hf1 Hq1.
  match goal with |- context [with_table ?t ?x] => set (w1 := with_table t x) in * end.
  assert (Hi : lookup_item (next_table w1) (_key self')
               = Some (<[FIELD_UPDATED_BY := Str (_execution_id self)]>
                       (<[FIELD_LOCK_STATUS := Str LOCK_VALUE_UNLOCKED]>
                        {[FIELD_KEY := Str (_key self)]}))).
  { rewrite Hk, (lookup_item_ext _ _ _ Hq1). unfold w1. cbn [table with_table].
    rewrite lookup_item_insert_eq. f_equal; try (apply insert_id; reflexivity). }
  assert (Hread : getCurrentSequencer self' w1
                  = (Raise (KeyError FIELD_SEQUENCER), arrived (GetItem (_key self')) w1)).
  { rewrite getCurrentSequencer_eq, Hf1, Hi. reflexivity. }
  split; [rewrite Hread; reflexivity|]. split.
  - intros old new. rewrite lockForSequencer_refused; [reflexivity|exact Hf1|].
    intros [Hnone|[_ Hs]].
    + apply lookup_item_None in Hnone. congruence.
    + unfold stored_attribute in Hs. rewrite Hi in Hs. discriminate.
  - intros fuel event context processing_fn backoff_fn.
    rewrite handle_unfold. cbv zeta. rewrite Hread. reflexivity.
Qed.

(** ** Errors of the store and of the backoff in the handler *)

Section Failures.
Context {Ctx Value : Type}.
Implicit Types (event : Event) (context : Ctx) (lock : S3Lock)
  (processing_fn : Event → Ctx → Res Value) (backoff_fn : Res ())
  (w : World) (fuel : nat).

(** X5. A store error on the read, or on the conditional write that
    follows it, leaves the handler as the exception it is.  The handler
    stops there: no backoff, no second attempt, no call of the callback,
    nothing written. *)
Theorem store_error_before_processing_is_raised fuel event context lock
    processing_fn backoff_fn w (f : ServiceFault) :
  next_fault w = Some f
  ∨ (∃ old, getCurrentSequencer lock w
            = (Return old, arrived (GetItem (_key lock)) w) ∧
            is_older old (detail_object_sequencer event) = true ∧
            next_fault (arrived (GetItem (_key lock)) w) = Some f) →
  ∃ w',
    handle_notification_if_up_to_date (S fuel) event context lock
      processing_fn backoff_fn w = (Raise (fault_exception f), w') ∧
    filter is_processing (calls_since w w') = [] ∧
    filter is_update (calls_since w w') = [] ∧
    (Backoff ∉ calls_since w w') ∧
    (table w' = next_table w ∨
     table w' = next_table (arrived (GetItem (_key lock)) w)).
Proof.
  intros [Hf|(old & Hr & Ho & Hf)]; rewrite handle_unfold; cbv zeta.
  - rewrite getCurrentSequencer_eq, Hf. eexists. split.
    { destruct f; reflexivity. }
    unfold calls_since. rewrite trace_arrived, drop_app_length. cbn.
    repeat split; try (left; reflexivity).
    intros H. apply list_elem_of_singleton in H. discriminate.
  - rewrite Hr, Ho, lockForSequencer_eq. cbv zeta. rewrite Hf.
    eexists. split; [reflexivity|].
    unfold calls_since. rewrite !trace_arrived, <- app_assoc, drop_app_length. cbn.
    repeat split; try (right; reflexivity).
    intros H. apply elem_of_cons in H as [H|H]; [discriminate|].
    apply list_elem_of_singleton in H. discriminate.
Qed.

(** X6. A store error on the [update_item] that ends the invocation
    reaches the caller in place of the outcome: the value the callback
    returned, or the exception it raised, is lost.  Nothing is written, so
    the record, which nobody else writes while it is locked, stays locked
    with the incoming sequencer. *)
Theorem store_error_after_processing_leaves_key_locked fuel event context lock
    processing_fn backoff_fn w w1 w2 (oldSeq : option string) (f : ServiceFault) :
  getCurrentSequencer lock w = (Return oldSeq, w1) →
  is_older oldSeq (detail_object_sequencer event) = true →
  lockForSequencer lock oldSeq (detail_object_sequencer event) w1 = (Return true, w2) →
  processing_fn event context ≠ OutOfFuel →
  next_fault w2 = Some f →
  next_table w2 !! _key lock = table w2 !! _key lock →
  ∃ w3,
    handle_notification_if_up_to_date (S fuel) event context lock
      processing_fn backoff_fn w = (Raise (fault_exception f), w3) ∧
    table w3 = next_table w2 ∧
    locked_with (table w3) (_key lock) (detail_object_sequencer event).
Proof.
  intros Hr Ho Hl Hp Hf Hq. rewrite handle_unfold. cbv zeta.
  rewrite Hr, Ho, Hl. cbn [negb].
  apply lockForSequencer_true in Hl as (_ & _ & Hw2).
  assert (Hlocked : locked_with (next_table w2) (_key lock)
                      (detail_object_sequencer event)).
  { apply (locked_with_ext (table w2)); [exact Hq|].
    rewrite Hw2. apply locked_with_lock_item. }
  unfold mbind, M_bind, bind.
  destruct (processing_fn event context) as [v|e|]; [| |contradiction].
  - rewrite unlock_eq, next_fault_log, Hf.
    eexists. split; [reflexivity|]. split; [apply next_table_log|].
    cbn [table arrived log]. rewrite <- next_table_log with (c := Processing event) in Hlocked.
    exact Hlocked.
  - rewrite unlockAndRollBack_eq, next_fault_log, Hf.
    eexists. split; [reflexivity|]. split; [apply next_table_log|].
    cbn [table arrived log]. rewrite <- next_table_log with (c := Processing event) in Hlocked.
    exact Hlocked.
Qed.

(** X7. The handler backs off in two places: after a read that found the
    record locked, and after a [lockForSequencer] that returned [False].
    In both, an exception of [backoff_fn] ends the handler: it is raised
    to the caller and the callback is not called (the two
    [test_backs_off_when_locked_*] tests). *)
Theorem failing_backoff_is_raised fuel event context lock processing_fn
    backoff_fn w (wb : World) (e : Exception) :
  getCurrentSequencer lock w = (Raise ItemLockedException, wb)
  ∨ (∃ old w1, getCurrentSequencer lock w = (Return old, w1) ∧
               is_older old (detail_object_sequencer event) = true ∧
               lockForSequencer lock old (detail_object_sequencer event) w1
               = (Return false, wb)) →
  backoff_fn = Raise e →
  handle_notification_if_up_to_date (S fuel) event context lock
    processing_fn backoff_fn w = (Raise e, log Backoff wb) ∧
  filter is_processing (calls_since w (log Backoff wb)) = [] ∧
  filter is_update (calls_since w (log Backoff wb)) = [].
Proof.
  intros H ->. rewrite handle_unfold. cbv zeta.
  destruct H as [Hr|(old & w1 & Hr & Ho & Hl)].
  - rewrite Hr. split; [reflexivity|].
    pose proof (getCurrentSequencer_trace lock w) as Ht. rewrite Hr in Ht.
    cbn [snd] in Ht. unfold calls_since. cbn [trace log].
    rewrite Ht, <- app_assoc, drop_app_length. cbn. split; reflexivity.
  - rewrite Hr, Ho, Hl. split; [reflexivity|].
    pose proof (getCurrentSequencer_trace lock w) as Ht. rewrite Hr in Ht.
    pose proof (lockForSequencer_trace lock old (detail_object_sequencer event) w1) as Ht'.
    rewrite Hl in Ht'. cbn [snd] in Ht, Ht'. unfold calls_since. cbn [trace log].
    rewrite Ht', Ht, <- !app_assoc, drop_app_length. cbn. split; reflexivity.
Qed.

(** X8. The loop has no bound of its own.  On a record that stays locked
    (a holder that never comes back), with a backoff that returns, the
    handler does not return after any number of iterations: each one is a
    read and a backoff, the callback is never called and nothing is
    written. *)
Theorem locked_forever_never_returns fuel event context lock processing_fn
    (s : string) :
  ∀ w,
    Forall (quiet (_key lock)) (env w) →
    locked_with (table w) (_key lock) s →
    ∃ w',
      handle_notification_if_up_to_date fuel event context lock
        processing_fn (Return ()) w = (OutOfFuel, w') ∧
      trace w' = trace w ++ waiting (_key lock) fuel ∧
      table w' !! _key lock = table w !! _key lock.
Proof.
  induction fuel as [|fuel IH]; intros w Hq Hl.
  - exists w. cbn. rewrite app_nil_r. repeat split.
  - pose proof (quiet_next_fault _ _ Hq) as Hf.
    pose proof (quiet_next_table _ _ Hq) as Ht.
    rewrite handle_unfold. cbv zeta.
    rewrite (getCurrentSequencer_locked lock w s Hf (locked_with_ext _ _ _ _ Ht Hl)).
    unfold mbind, M_bind, bind, call_backoff.
    destruct (IH (log Backoff (arrived (GetItem (_key lock)) w))) as (w' & Hh & Htr & Htb).
    + cbn [env log]. rewrite env_arrived. apply quiet_tail, Hq.
    + cbn [table log arrived]. apply (locked_with_ext (table w)); [exact Ht|exact Hl].
    + exists w'. split; [exact Hh|]. split.
      * rewrite Htr. cbn [trace log waiting]. rewrite trace_arrived, <- !app_assoc.
        reflexivity.
      * rewrite Htb. exact Ht.
Qed.
End Failures.

(** ** The calls of one invocation *)

Lemma calls_since_app (w w' : World) (added : list Call) :
  trace w' = trace w ++ added → calls_since w w' = added.
Proof. intros H. unfold calls_since. rewrite H. apply drop_app_length. Qed.

Lemma on_key_lock_item (lock : S3Lock) (new : string) (cond : Condition) :
  on_key (_key lock) (PutItem (lock_item lock new) cond) = true.
Proof. cbn. apply bool_decide_eq_true. apply lock_item_key. Qed.

(** Every call of a list written out names the key. *)
Ltac own_key :=
  repeat (apply Forall_cons; split);
  first [ apply Forall_nil_2 | apply on_key_lock_item
        | apply String.eqb_refl | reflexivity ].

Section Calls.
Context {Ctx Value : Type}.
Implicit Types (event : Event) (context : Ctx) (lock : S3Lock)
  (processing_fn : Event → Ctx → Res Value) (backoff_fn : Res ())
  (w : World) (fuel : nat).

(** What an invocation adds to the trace, by its result. *)
Lemma handle_calls fuel event context lock processing_fn backoff_fn :
  ∀ w, ∃ added,
    trace (handle_notification_if_up_to_date fuel event context lock
             processing_fn backoff_fn w).2 = trace w ++ added ∧
    Forall (λ c, on_key (_key lock) c = true) added ∧
    match (handle_notification_if_up_to_date fuel event context lock
             processing_fn backoff_fn w).1 with
    | Return rv =>
        (rv = (OUTCOME_OUT_OF_DATE, None) ∧
         filter is_processing added = [] ∧ filter is_update added = [])
        ∨ ((∃ v, rv = (OUTCOME_PROCESSED, Some v) ∧
                 processing_fn event context = Return v) ∧
           filter is_processing added = [Processing event] ∧
           filter is_update added = [UpdateItem (_key lock) (unlock_sets lock)])
    | _ =>
        (filter is_processing added = [] ∧ filter is_update added = [])
        ∨ (filter is_processing added = [Processing event] ∧
           (length (filter is_update added) ≤ 1)%nat)
    end.
Proof.
  induction fuel as [|fuel IH]; intros w.
  { exists []. cbn. rewrite app_nil_r. split; [reflexivity|]. split; [constructor|].
    left. split; reflexivity. }
  rewrite handle_unfold. cbv zeta.
  pose proof (getCurrentSequencer_trace lock w) as Ht1.
  destruct (getCurrentSequencer lock w) as [r w1]. cbn [snd] in Ht1.
  assert (Hg : on_key (_key lock) (GetItem (_key lock)) = true)
    by apply String.eqb_refl.
  assert (Hretry : ∀ wb pre,
    trace wb = trace w ++ pre →
    Forall (λ c, on_key (_key lock) c = true) pre →
    filter is_processing pre = [] → filter is_update pre = [] →
    ∃ added,
      trace ((call_backoff backoff_fn;;
              handle_notification_if_up_to_date fuel event context lock
                processing_fn backoff_fn) wb).2 = trace w ++ added ∧
      Forall (λ c, on_key (_key lock) c = true) added ∧
      match ((call_backoff backoff_fn;;
              handle_notification_if_up_to_date fuel event context lock
                processing_fn backoff_fn) wb).1 with
      | Return rv =>
          (rv = (OUTCOME_OUT_OF_DATE, None) ∧
           filter is_processing added = [] ∧ filter is_update added = [])
          ∨ ((∃ v, rv = (OUTCOME_PROCESSED, Some v) ∧
                   processing_fn event context = Return v) ∧
             filter is_processing added = [Processing event] ∧
             filter is_update added = [UpdateItem (_key lock) (unlock_sets lock)])
      | _ =>
          (filter is_processing added = [] ∧ filter is_update added = [])
          ∨ (filter is_processing added = [Processing event] ∧
             (length (filter is_update added) ≤ 1)%nat)
      end).
  { intros wb pre Hwb Hpre Hp Hu. unfold mbind, M_bind, bind, call_backoff.
    destruct backoff_fn as [[]|e|].
    - destruct (IH (log Backoff wb)) as (added & Ha & Hf & Hs).
      exists (pre ++ Backoff :: added). split; [|split].
      + rewrite Ha. cbn [trace log]. rewrite Hwb, <- !app_assoc. reflexivity.
      + apply Forall_app. split; [exact Hpre|]. apply Forall_cons. split; [reflexivity|exact Hf].
      + assert (E1 : filter is_processing (pre ++ Backoff :: added)
                     = filter is_processing added)
          by (rewrite filter_app, Hp; reflexivity).
        assert (E2 : filter is_update (pre ++ Backoff :: added)
                     = filter is_update added)
          by (rewrite filter_app, Hu; reflexivity).
        rewrite E1, E2. exact Hs.
    - exists (pre ++ [Backoff]). cbn [fst snd trace log]. split; [|split].
      + rewrite Hwb, <- app_assoc. reflexivity.
      + apply Forall_app. split; [exact Hpre|]. apply Forall_cons. split; [reflexivity|constructor].
      + left. rewrite !filter_app, Hp, Hu. split; reflexivity.
    - exists (pre ++ [Backoff]). cbn [fst snd trace log]. split; [|split].
      + rewrite Hwb, <- app_assoc. reflexivity.
      + apply Forall_app. split; [exact Hpre|]. apply Forall_cons. split; [reflexivity|constructor].
      + left. rewrite !filter_app, Hp, Hu. split; reflexivity. }
  assert (Hstop : ∀ A (x : A), ∃ added : list Call,
    trace w1 = trace w ++ added ∧
    Forall (λ c, on_key (_key lock) c = true) added ∧
    ((filter is_processing added = [] ∧ filter is_update added = [])
     ∨ (filter is_processing added = [Processing event] ∧
        (length (filter is_update added) ≤ 1)%nat))).
  { intros _ _. exists [GetItem (_key lock)]. split; [exact Ht1|].
    split; [apply Forall_cons; split; [exact Hg|constructor]|]. left. split; reflexivity. }
  destruct r as [old|e|]; cbn [fst snd]; [| |exact (Hstop _ tt)].
  2: { destruct e; try exact (Hstop _ tt).
       apply (Hretry w1 [GetItem (_key lock)]); try reflexivity; [exact Ht1|].
       apply Forall_cons. split; [exact Hg|constructor]. }
  destruct (is_older old _).
  2: { cbn [fst snd]. exists [GetItem (_key lock)]. split; [exact Ht1|].
       split; [apply Forall_cons; split; [exact Hg|constructor]|].
       left. repeat split. }
  pose proof (lockForSequencer_trace lock old (detail_object_sequencer event) w1) as Ht2.
  destruct (lockForSequencer lock old _ w1) as [r2 w2]. cbn [snd] in Ht2.
  rewrite Ht1, <- app_assoc in Ht2. cbn [app] in Ht2.
  assert (Hpre2 : Forall (λ c, on_key (_key lock) c = true)
                    [GetItem (_key lock);
                     PutItem (lock_item lock (detail_object_sequencer event))
                       (lock_condition old)]).
  { apply Forall_cons. split; [exact Hg|]. apply Forall_cons.
    split; [apply on_key_lock_item|constructor]. }
  destruct r2 as [[|]|e|]; cbn [negb fst snd].
  - (* the lock is held *)
    unfold mbind, M_bind, bind, unlock, unlockAndRollBack.
    fold (unlock_sets lock). fold (rollback_sets lock old).
    destruct (processing_fn event context) as [v|e|] eqn:Hp.
    + pose proof (update_item_trace (_key lock) (unlock_sets lock)
                    (log (Processing event) w2)) as Hu.
      cbn [trace log] in Hu. rewrite Ht2, <- !app_assoc in Hu. cbn [app] in Hu.
      destruct (update_item _ _ _) as [[[]|e|] w3]; cbn [fst snd] in *;
        unfold mret, M_ret, ret; cbn [fst snd];
        (eexists; split; [exact Hu|]; split; [own_key|]).
      * right. split; [exists v; split; reflexivity|]. split; reflexivity.
      * right. split; [reflexivity|]. first [apply le_n | apply le_S, le_n].
      * right. split; [reflexivity|]. first [apply le_n | apply le_S, le_n].
    + pose proof (update_item_trace (_key lock) (rollback_sets lock old)
                    (log (Processing event) w2)) as Hu.
      cbn [trace log] in Hu. rewrite Ht2, <- !app_assoc in Hu. cbn [app] in Hu.
      destruct (update_item _ _ _) as [[[]|e'|] w3]; cbn [fst snd] in *;
        unfold raise; cbn [fst snd];
        (eexists; split; [exact Hu|]; split; [own_key|]);
        right; (split; [reflexivity|]); first [apply le_n | apply le_S, le_n].
    + cbn [fst snd trace log]. eexists. split; [rewrite Ht2, <- app_assoc; reflexivity|].
      split; [cbn [app]; own_key|].
      right. split; [reflexivity|]. first [apply le_n | apply le_S, le_n].
  - (* the lock is refused *)
    apply (Hretry w2 _ Ht2 Hpre2); reflexivity.
  - exists [GetItem (_key lock);
            PutItem (lock_item lock (detail_object_sequencer event)) (lock_condition old)].
    split; [exact Ht2|]. split; [exact Hpre2|]. left. split; reflexivity.
  - exists [GetItem (_key lock);
            PutItem (lock_item lock (detail_object_sequencer event)) (lock_condition old)].
    split; [exact Ht2|]. split; [exact Hpre2|]. left. split; reflexivity.
Qed.
End Calls.

Section CallsOfARun.
Context {Ctx Value : Type}.
Implicit Types (event : Event) (context : Ctx) (lock : S3Lock)
  (processing_fn : Event → Ctx → Res Value) (backoff_fn : Res ())
  (w : World) (fuel : nat).

(** X9. Whatever happens, every request an invocation makes names the key
    of its own lock: it reads, writes and updates no other record. *)
Theorem handler_requests_name_its_key fuel event context lock processing_fn
    backoff_fn w :
  Forall (λ c, on_key (_key lock) c = true)
    (calls_since w
       (handle_notification_if_up_to_date fuel event context lock
          processing_fn backoff_fn w).2).
Proof.
  destruct (handle_calls fuel event context lock processing_fn backoff_fn w)
    as (added & Ha & Hk & _).
  rewrite (calls_since_app _ _ _ Ha). exact Hk.
Qed.

(** X10. One invocation calls the callback at most once, whatever the
    contention and the number of retries, and calls [update_item] only
    after the callback.  When it returns, the pair is one of two: out of
    date with [None], after no callback call and no [update_item]; or
    processed with the value that the one callback call returned, after the
    one [update_item] of [unlock]. *)
Theorem outcome_accounts_for_the_calls fuel event context lock processing_fn
    backoff_fn w :
  (length (filter is_processing
     (calls_since w (handle_notification_if_up_to_date fuel event context lock
                       processing_fn backoff_fn w).2)) ≤ 1)%nat ∧
  (length (filter is_update
     (calls_since w (handle_notification_if_up_to_date fuel event context lock
                       processing_fn backoff_fn w).2))
   ≤ length (filter is_processing
     (calls_since w (handle_notification_if_up_to_date fuel event context lock
                       processing_fn backoff_fn w).2)))%nat ∧
  (∀ rv,
     (handle_notification_if_up_to_date fuel event context lock
        processing_fn backoff_fn w).1 = Return rv →
     (rv = (OUTCOME_OUT_OF_DATE, None) ∧
      filter is_processing
        (calls_since w (handle_notification_if_up_to_date fuel event context lock
                          processing_fn backoff_fn w).2) = [] ∧
      filter is_update
        (calls_since w (handle_notification_if_up_to_date fuel event context lock
                          processing_fn backoff_fn w).2) = [])
     ∨ (∃ v, rv = (OUTCOME_PROCESSED, Some v) ∧
             processing_fn event context = Return v ∧
             filter is_processing
               (calls_since w (handle_notification_if_up_to_date fuel event context
                                 lock processing_fn backoff_fn w).2)
             = [Processing event] ∧
             filter is_update
               (calls_since w (handle_notification_if_up_to_date fuel event context
                                 lock processing_fn backoff_fn w).2)
             = [UpdateItem (_key lock) (unlock_sets lock)])).
Proof.
  destruct (handle_calls fuel event context lock processing_fn backoff_fn w)
    as (added & Ha & _ & Hs).
  rewrite (calls_since_app _ _ _ Ha).
  destruct (handle_notification_if_up_to_date fuel event context lock
              processing_fn backoff_fn w).1 as [rv|e|].
  - destruct Hs as [(-> & Hp & Hu)|((v & -> & Hv) & Hp & Hu)]; rewrite Hp, Hu;
      (split; [cbn [length]; lia|split; [cbn [length]; lia|]]); intros rv [= <-].
    + left. repeat split.
    + right. exists v. repeat split. exact Hv.
  - destruct Hs as [(Hp & Hu)|(Hp & Hu)]; rewrite Hp; [rewrite Hu|];
      (split; [cbn [length]; lia|split; [cbn [length]; lia|discriminate]]).
  - destruct Hs as [(Hp & Hu)|(Hp & Hu)]; rewrite Hp; [rewrite Hu|];
      (split; [cbn [length]; lia|split; [cbn [length]; lia|discriminate]]).
Qed.

Lemma request_frame {A} (c : Call) (op : Table → Res A * Table) (key' : string) w :
  Forall (quiet key') (env w) →
  (∀ t, (op t).2 !! key' = t !! key') →
  table (request c op w).2 !! key' = table w !! key' ∧
  Forall (quiet key') (env (request c op w).2).
Proof.
  intros Hq Hop. rewrite request_eq, (quiet_next_fault _ _ Hq).
  cbn [snd table env with_table]. split.
  - rewrite Hop. apply quiet_next_table. exact Hq.
  - rewrite env_arrived. apply quiet_tail. exact Hq.
Qed.

Lemma getCurrentSequencer_frame lock (key' : string) w :
  Forall (quiet key') (env w) →
  table (getCurrentSequencer lock w).2 !! key' = table w !! key' ∧
  Forall (quiet key') (env (getCurrentSequencer lock w).2).
Proof.
  intros Hq. rewrite getCurrentSequencer_world. split.
  - apply quiet_next_table. exact Hq.
  - rewrite env_arrived. apply quiet_tail. exact Hq.
Qed.

Lemma lockForSequencer_frame lock old new (key' : string) w :
  key' ≠ _key lock →
  Forall (quiet key') (env w) →
  table (lockForSequencer lock old new w).2 !! key' = table w !! key' ∧
  Forall (quiet key') (env (lockForSequencer lock old new w).2).
Proof.
  intros Hk Hq. rewrite lockForSequencer_eq. cbv zeta.
  rewrite (quiet_next_fault _ _ Hq).
  case_condition E; cbn [snd table env with_table]; rewrite env_arrived;
    (split; [|apply quiet_tail; exact Hq]).
  - rewrite lookup_insert_ne by congruence. apply quiet_next_table. exact Hq.
  - apply quiet_next_table. exact Hq.
Qed.

Lemma update_item_frame (key key' : string) sets w :
  key' ≠ key →
  Forall (quiet key') (env w) →
  table (update_item key sets w).2 !! key' = table w !! key' ∧
  Forall (quiet key') (env (update_item key sets w).2).
Proof.
  intros Hk Hq. apply request_frame; [exact Hq|].
  intros t. cbn [snd]. apply lookup_insert_ne. congruence.
Qed.

(** The records of the other keys stay as they are. *)
Lemma handle_frame fuel event context lock processing_fn
    backoff_fn (key' : string) :
  key' ≠ _key lock →
  ∀ w,
    Forall (quiet key') (env w) →
    table (handle_notification_if_up_to_date fuel event context lock
             processing_fn backoff_fn w).2 !! key' = table w !! key' ∧
    Forall (quiet key') (env (handle_notification_if_up_to_date fuel event context
                                lock processing_fn backoff_fn w).2).
Proof.
  intros Hk. induction fuel as [|fuel IH]; intros w Hq; [split; [reflexivity|exact Hq]|].
  rewrite handle_unfold. cbv zeta.
  destruct (getCurrentSequencer_frame lock key' w Hq) as [Ht1 Hq1].
  destruct (getCurrentSequencer lock w) as [r w1]. cbn [snd] in Ht1, Hq1.
  assert (Hretry : ∀ wb,
    table wb !! key' = table w !! key' → Forall (quiet key') (env wb) →
    table ((call_backoff backoff_fn;;
            handle_notification_if_up_to_date fuel event context lock
              processing_fn backoff_fn) wb).2 !! key' = table w !! key' ∧
    Forall (quiet key')
      (env ((call_backoff backoff_fn;;
             handle_notification_if_up_to_date fuel event context lock
               processing_fn backoff_fn) wb).2)).
  { intros wb Htb Hqb. unfold mbind, M_bind, bind, call_backoff.
    destruct backoff_fn as [[]|e|]; cbn [snd]; [|split; assumption..].
    destruct (IH (log Backoff wb) Hqb) as [Ht Hq']. split; [|exact Hq'].
    rewrite Ht. exact Htb. }
  destruct r as [old|e|]; cbn [snd]; [| |split; assumption].
  2: { destruct e; try (split; assumption). apply Hretry; assumption. }
  destruct (is_older old _); [|split; assumption].
  destruct (lockForSequencer_frame lock old (detail_object_sequencer event) key' w1
              Hk Hq1) as [Ht2 Hq2].
  destruct (lockForSequencer lock old _ w1) as [r2 w2]. cbn [snd] in Ht2, Hq2.
  rewrite Ht1 in Ht2.
  destruct r2 as [[|]|e|]; cbn [negb snd]; [| |split; assumption..].
  2: { apply Hretry; assumption. }
  unfold mbind, M_bind, bind, unlock, unlockAndRollBack.
  destruct (processing_fn event context) as [v|e|]; [| |split; assumption].
  - destruct (update_item_frame (_key lock) key' (unlock_sets lock)
                (log (Processing event) w2) Hk Hq2) as [Ht3 Hq3].
    fold (unlock_sets lock).
    destruct (update_item _ _ _) as [[[]|?|] w3];
      unfold mret, M_ret, ret; cbn [snd table log] in *;
      (split; [rewrite Ht3; exact Ht2|exact Hq3]).
  - destruct (update_item_frame (_key lock) key' (rollback_sets lock old)
                (log (Processing event) w2) Hk Hq2) as [Ht3 Hq3].
    fold (rollback_sets lock old).
    destruct (update_item _ _ _) as [[[]|?|] w3];
      unfold raise; cbn [snd table log] in *;
      (split; [rewrite Ht3; exact Ht2|exact Hq3]).
Qed.

(** X11. An invocation leaves the records of all other keys as they are:
    on any key other than its own that the other clients do not write, the
    table after the invocation is the table before, whatever the outcome
    and however many times the loop went round. *)
Theorem handler_leaves_other_keys fuel event context lock processing_fn
    backoff_fn (key' : string) w :
  key' ≠ _key lock →
  Forall (quiet key') (env w) →
  table (handle_notification_if_up_to_date fuel event context lock
           processing_fn backoff_fn w).2 !! key' = table w !! key'.
Proof. intros Hk Hq. apply handle_frame; assumption. Qed.
End CallsOfARun.

(** ** Deliveries in sequence *)

Lemma ascii_compare_refl (a : Ascii.ascii) : Ascii.compare a a = Eq.
Proof. unfold Ascii.compare. apply N.compare_refl. Qed.

Lemma ascii_compare_Lt_trans (a b c : Ascii.ascii) :
  Ascii.compare a b = Lt → Ascii.compare b c = Lt → Ascii.compare a c = Lt.
Proof.
  unfold Ascii.compare. rewrite !N.compare_lt_iff. apply N.lt_trans.
Qed.

Lemma compare_Lt_trans (a : string) :
  ∀ b c, String.compare a b = Lt → String.compare b c = Lt → String.compare a c = Lt.
Proof.
  induction a as [|a0 a IH]; intros [|b0 b] [|c0 c]; cbn; try discriminate; try reflexivity.
  destruct (Ascii.compare a0 b0) eqn:E1; try discriminate;
    destruct (Ascii.compare b0 c0) eqn:E2; try discriminate.
  - apply Ascii.compare_eq_iff in E1, E2. subst. rewrite ascii_compare_refl. apply IH.
  - apply Ascii.compare_eq_iff in E1. subst. rewrite E2. reflexivity.
  - apply Ascii.compare_eq_iff in E2. subst. rewrite E1. reflexivity.
  - rewrite (ascii_compare_Lt_trans _ _ _ E1 E2). reflexivity.
Qed.

Lemma leb_trans (a b c : string) :
  String.leb a b = true → String.leb b c = true → String.leb a c = true.
Proof.
  unfold String.leb.
  destruct (String.compare a b) eqn:E1; try discriminate;
    destruct (String.compare b c) eqn:E2; try discriminate; intros _ _.
  - apply String.compare_eq_iff in E1. subst. rewrite E2. reflexivity.
  - apply String.compare_eq_iff in E1. subst. rewrite E2. reflexivity.
  - apply String.compare_eq_iff in E2. subst. rewrite E1. reflexivity.
  - rewrite (compare_Lt_trans _ _ _ E1 E2). reflexivity.
Qed.

Lemma seq_le_trans (a b c : option string) : seq_le a b → seq_le b c → seq_le a c.
Proof.
  destruct a as [a|], b as [b|], c as [c|]; cbn; try tauto. apply leb_trans.
Qed.

(** The running maximum is above where it starts and above every
    notification it has seen. *)
Lemma accepted_after_above (events : list Event) :
  ∀ cur, seq_le cur (accepted_after cur events).
Proof.
  induction events as [|event rest IH]; intros cur; [apply seq_le_refl|].
  cbn [accepted_after foldl]. fold (accepted_after
    (if is_older cur (detail_object_sequencer event)
     then Some (detail_object_sequencer event) else cur) rest).
  eapply seq_le_trans; [|apply IH].
  destruct (is_older cur _) eqn:E; [apply is_older_seq_le; exact E|apply seq_le_refl].
Qed.

Lemma accepted_after_covers (events : list Event) :
  ∀ cur event, event ∈ events →
    seq_le (Some (detail_object_sequencer event)) (accepted_after cur events).
Proof.
  induction events as [|e rest IH]; intros cur event Hin.
  - apply elem_of_nil in Hin. contradiction.
  - cbn [accepted_after foldl]. fold (accepted_after
      (if is_older cur (detail_object_sequencer e)
       then Some (detail_object_sequencer e) else cur) rest).
    apply elem_of_cons in Hin as [->|Hin]; [|apply IH; exact Hin].
    eapply seq_le_trans; [|apply accepted_after_above].
    destruct (is_older cur _) eqn:E; [apply leb_refl|].
    destruct cur as [old|]; [|discriminate]. cbn. apply ltb_false_leb. exact E.
Qed.

Section Sequence.
Context {Ctx Value : Type}.
Implicit Types (event : Event) (context : Ctx) (lock : S3Lock)
  (processing_fn : Event → Ctx → Res Value) (backoff_fn : Res ())
  (w : World) (fuel : nat).

Lemma at_rest_ext (t t' : Table) (key : string) (cur : option string) :
  t' !! key = t !! key → at_rest t key cur → at_rest t' key cur.
Proof.
  intros H [[Hn Hc]|[H1 H2]]; [left; split; congruence|right].
  split; rewrite (stored_attribute_ext _ _ _ _ H); assumption.
Qed.

(** One delivery on a key at rest, nobody interfering: the comparison of
    the two sequencers decides. *)
Lemma handle_decides fuel event context lock processing_fn backoff_fn w
    (cur : option string) :
  Forall (quiet (_key lock)) (env w) →
  at_rest (table w) (_key lock) cur →
  ∃ w',
    handle_notification_if_up_to_date (S fuel) event context lock
      processing_fn backoff_fn w
    = (if is_older cur (detail_object_sequencer event) then
         match processing_fn event context with
         | Return v => Return (OUTCOME_PROCESSED, Some v)
         | Raise e => Raise e
         | OutOfFuel => OutOfFuel
         end
       else Return (OUTCOME_OUT_OF_DATE, None), w') ∧
    Forall (quiet (_key lock)) (env w') ∧
    (processing_fn event context ≠ OutOfFuel →
     at_rest (table w') (_key lock)
       (if is_older cur (detail_object_sequencer event) then
          match processing_fn event context with
          | Return _ => Some (detail_object_sequencer event)
          | _ => cur
          end
        else cur)).
Proof.
  intros Hq Hrest. destruct (is_older cur _) eqn:Ho.
  - destruct (handle_uncontended fuel event context lock processing_fn backoff_fn
                w cur Hq Hrest Ho) as (w' & Hh & Hq' & _ & Hrec).
    exists w'. split; [exact Hh|]. split; [exact Hq'|]. intros Hp.
    destruct (processing_fn event context); [right; exact Hrec..|contradiction].
  - destruct cur as [old|]; [|discriminate].
    destruct Hrest as [[_ [=]]|Hun].
    destruct (handle_uncontended_stale fuel event context lock processing_fn
                backoff_fn w old Hq Hun) as (w' & Hh & Hq' & Ht & _).
    { apply ltb_false_leb. exact Ho. }
    exists w'. split; [exact Hh|]. split; [exact Hq'|]. intros _.
    apply (at_rest_ext (table w)); [exact Ht|right; exact Hun].
Qed.

(** Deliveries in sequence, callbacks returning. *)
Lemma deliver_each_runs fuel context lock processing_fn backoff_fn
    (events : list Event) :
  (∀ event, event ∈ events → ∃ v, processing_fn event context = Return v) →
  ∀ w cur,
    Forall (quiet (_key lock)) (env w) →
    at_rest (table w) (_key lock) cur →
    ∃ w',
      deliver_each (S fuel) events context lock processing_fn backoff_fn w
      = (Return (outcomes_after processing_fn context cur events), w') ∧
      Forall (quiet (_key lock)) (env w') ∧
      at_rest (table w') (_key lock) (accepted_after cur events).
Proof.
  induction events as [|event rest IH]; intros Hp w cur Hq Hrest.
  - exists w. repeat split; assumption.
  - destruct (Hp event) as [v Hv]; [apply elem_of_cons; left; reflexivity|].
    destruct (handle_decides fuel event context lock processing_fn backoff_fn w cur
                Hq Hrest) as (w1 & Hh & Hq1 & Hrest1).
    rewrite Hv in Hh, Hrest1. specialize (Hrest1 ltac:(discriminate)).
    destruct (IH (λ e He, Hp e (proj2 (elem_of_cons _ _ _) (or_intror He))) w1 _
                Hq1 Hrest1) as (w' & Hd & Hq' & Hrest').
    exists w'. cbn [deliver_each outcomes_after accepted_after foldl].
    unfold mbind, M_bind, bind. rewrite Hh.
    destruct (is_older cur _); rewrite ?Hv, Hd; repeat split; assumption.
Qed.

(** X12. Notifications delivered one after the other on a key at rest,
    with a callback that returns: a notification is processed exactly when
    its sequencer exceeds every sequencer accepted before it, the others
    are reported out of date, and the key ends at rest with the greatest
    sequencer seen (where it started, if nothing exceeded that). *)
Theorem deliveries_keep_the_running_maximum fuel context lock processing_fn
    backoff_fn (events : list Event) w (cur : option string) :
  (∀ event, event ∈ events → ∃ v, processing_fn event context = Return v) →
  Forall (quiet (_key lock)) (env w) →
  at_rest (table w) (_key lock) cur →
  ∃ w',
    deliver_each (S fuel) events context lock processing_fn backoff_fn w
    = (Return (outcomes_after processing_fn context cur events), w') ∧
    at_rest (table w') (_key lock) (accepted_after cur events) ∧
    seq_le cur (accepted_after cur events) ∧
    (∀ event, event ∈ events →
       seq_le (Some (detail_object_sequencer event)) (accepted_after cur events)).
Proof.
  intros Hp Hq Hrest.
  destruct (deliver_each_runs fuel context lock processing_fn backoff_fn events Hp
              w cur Hq Hrest) as (w' & Hd & _ & Hrest').
  exists w'. split; [exact Hd|]. split; [exact Hrest'|].
  split; [apply accepted_after_above|]. intros event. apply accepted_after_covers.
Qed.

(** X13. Replaying the log is harmless.  After any notifications have been
    delivered in sequence and processed, delivering any one of them again,
    by any invocation on the key, is reported out of date: the callback is
    not called again and the record is not written. *)
Theorem replayed_notification_is_skipped fuel context lock processing_fn
    backoff_fn (events : list Event) w (cur : option string) :
  (∀ event, event ∈ events → ∃ v, processing_fn event context = Return v) →
  Forall (quiet (_key lock)) (env w) →
  at_rest (table w) (_key lock) cur →
  ∃ rvs w',
    deliver_each (S fuel) events context lock processing_fn backoff_fn w
    = (Return rvs, w') ∧
    ∀ event fuel' context' lock'
      (processing_fn' : Event → Ctx → Res Value) backoff_fn',
      event ∈ events →
      _key lock' = _key lock →
      ∃ w'',
        handle_notification_if_up_to_date (S fuel') event context' lock'
          processing_fn' backoff_fn' w'
        = (Return (OUTCOME_OUT_OF_DATE, None), w'') ∧
        table w'' !! _key lock = table w' !! _key lock ∧
        calls_since w' w'' = [GetItem (_key lock)].
Proof.
  intros Hp Hq Hrest.
  destruct (deliver_each_runs fuel context lock processing_fn backoff_fn events Hp
              w cur Hq Hrest) as (w' & Hd & Hq' & Hrest').
  exists (outcomes_after processing_fn context cur events), w'.
  split; [exact Hd|].
  intros event fuel' context' lock' processing_fn' backoff_fn' Hin Hk.
  pose proof (accepted_after_covers events cur event Hin) as Hle.
  destruct (accepted_after cur events) as [last|]; [|contradiction].
  destruct Hrest' as [[_ [=]]|Hun]. cbn in Hle.
  destruct (handle_uncontended_stale fuel' event context' lock' processing_fn'
              backoff_fn' w' last) as (w'' & Hh & _ & Ht & Htr).
  - rewrite Hk. exact Hq'.
  - rewrite Hk. exact Hun.
  - exact Hle.
  - exists w''. split; [exact Hh|]. rewrite Hk in Ht, Htr. split; [exact Ht|].
    apply calls_since_app. exact Htr.
Qed.
End Sequence.

(** ** app.py: lambda_handler *)

Lemma append_inj_l (p a b : string) : (p ++ a = p ++ b)%string → a = b.
Proof. induction p as [|c p IH]; cbn; [auto|]. intros [= H]. auto. Qed.

Lemma append_nil_l (s : string) : ("" ++ s)%string = s.
Proof. reflexivity. Qed.

Lemma append_cons (a : Ascii.ascii) (s r : string) :
  (String a s ++ r)%string = String a (s ++ r)%string.
Proof. reflexivity. Qed.

Lemma occurs_middle (c : Ascii.ascii) (s r : string) :
  occurs c (s ++ String c r)%string = true.
Proof.
  induction s as [|a s IH]; rewrite ?append_nil_l, ?append_cons; cbn [occurs].
  - rewrite Ascii.eqb_refl. reflexivity.
  - rewrite IH. apply orb_true_r.
Qed.

(** Two strings cut at the first occurrence of a character. *)
Lemma split_at_first (c : Ascii.ascii) (s1 : string) :
  ∀ s2 r1 r2,
    occurs c s1 = false → occurs c s2 = false →
    (s1 ++ String c r1 = s2 ++ String c r2)%string → s1 = s2 ∧ r1 = r2.
Proof.
  induction s1 as [|a s1 IH]; intros [|b s2] r1 r2; rewrite ?append_nil_l, ?append_cons; cbn [occurs].
  - intros _ _ [= ->]. auto.
  - intros _ H [= <- _]. rewrite Ascii.eqb_refl in H. discriminate.
  - intros H _ [= -> _]. rewrite Ascii.eqb_refl in H. discriminate.
  - intros H1 H2 [= -> H]. apply orb_false_iff in H1 as [_ H1], H2 as [_ H2].
    destruct (IH _ _ _ H1 H2 H) as [-> ->]. auto.
Qed.

(** Two strings cut at the last occurrence of a character. *)
Lemma split_at_last (c : Ascii.ascii) (r1 : string) :
  ∀ r2 v1 v2,
    occurs c v1 = false → occurs c v2 = false →
    (r1 ++ String c v1 = r2 ++ String c v2)%string → r1 = r2 ∧ v1 = v2.
Proof.
  induction r1 as [|a r1 IH]; intros [|b r2] v1 v2 H1 H2; rewrite ?append_nil_l, ?append_cons; cbn [occurs].
  - intros [= ->]. auto.
  - intros [= _ ->]. rewrite occurs_middle in H1. discriminate.
  - intros [= _ <-]. rewrite occurs_middle in H2. discriminate.
  - intros [= -> H]. destruct (IH _ _ _ H1 H2 H) as [-> ->]. auto.
Qed.

(** X14. The key of the lock record tells objects and versions apart.
    Bucket names hold no [/] and version ids no [#]; then two events get
    the same key only if they name the same bucket, the same object key and
    the same version (an absent version id and an empty one being the
    same). *)
Theorem input_full_key_tells_objects_apart (event1 event2 : LambdaEvent) :
  occurs "/"%char (detail_bucket_name (event_detail event1)) = false →
  occurs "/"%char (detail_bucket_name (event_detail event2)) = false →
  occurs "#"%char (default "" (detail_object_version_id event1)) = false →
  occurs "#"%char (default "" (detail_object_version_id event2)) = false →
  input_full_key event1 = input_full_key event2 →
  detail_bucket_name (event_detail event1) = detail_bucket_name (event_detail event2) ∧
  detail_object_key (event_detail event1) = detail_object_key (event_detail event2) ∧
  default "" (detail_object_version_id event1)
  = default "" (detail_object_version_id event2).
Proof.
  intros Hb1 Hb2 Hv1 Hv2. unfold input_full_key. cbv zeta. intros H.
  apply (split_at_first "/"%char _ _ _ _ Hb1 Hb2) in H as [Hb H].
  apply (split_at_last "#"%char _ _ _ _ Hv1 Hv2) in H as [Hk Hv]. auto.
Qed.

Section AppProperties.
Context {Value : Type}.
Implicit Types (do_work : LambdaEvent → LambdaContext → Res Value)
  (event : LambdaEvent) (context : LambdaContext) (w : World) (fuel : nat).

Lemma same_event_detail event : same_event event (event_detail event) = event.
Proof. destruct event. reflexivity. Qed.

(** With coordination on, the Lambda is the handler on the record of the
    object and version. *)
Lemma lambda_handler_on fuel (coordination : string) do_work event context w :
  coordination ≠ "off" →
  lambda_handler fuel coordination do_work event context w
  = (rv ← handle_notification_if_up_to_date fuel (event_detail event) context
            {| _key := input_full_key event;
               _execution_id := aws_request_id context |}
            (λ detail, do_work (same_event event detail)) _backoff;
     mret rv.2) w.
Proof.
  intros H. unfold lambda_handler.
  destruct (String.eqb_spec coordination "off") as [->|_]; [contradiction|reflexivity].
Qed.

Lemma lambda_handler_on_world fuel (coordination : string) do_work event context w :
  coordination ≠ "off" →
  (lambda_handler fuel coordination do_work event context w).2
  = (handle_notification_if_up_to_date fuel (event_detail event) context
       {| _key := input_full_key event;
          _execution_id := aws_request_id context |}
       (λ detail, do_work (same_event event detail)) _backoff w).2.
Proof.
  intros H. rewrite (lambda_handler_on _ _ _ _ _ _ H).
  unfold mbind, M_bind, bind.
  destruct (handle_notification_if_up_to_date _ _ _ _ _ _ w) as [[rv|e|] w1];
    reflexivity.
Qed.

(** X15. With coordination on, the Lambda returns [None] for a duplicate
    or older notification of an object version, without calling [do_work],
    and otherwise what [do_work] returns or raises; the sequencer of the
    object version is then the one of the notification, unless [do_work]
    raised. *)
Theorem lambda_handler_processes_newer_only fuel (coordination : string) do_work
    event context w (cur : option string) :
  coordination ≠ "off" →
  Forall (quiet (input_full_key event)) (env w) →
  at_rest (table w) (input_full_key event) cur →
  do_work event context ≠ OutOfFuel →
  ∃ w',
    lambda_handler (S fuel) coordination do_work event context w
    = (if is_older cur (detail_object_sequencer (event_detail event)) then
         match do_work event context with
         | Return v => Return (Some v)
         | Raise e => Raise e
         | OutOfFuel => OutOfFuel
         end
       else Return None, w') ∧
    (is_older cur (detail_object_sequencer (event_detail event)) = false →
     filter is_processing (calls_since w w') = []) ∧
    at_rest (table w') (input_full_key event)
      (if is_older cur (detail_object_sequencer (event_detail event)) then
         match do_work event context with
         | Return _ => Some (detail_object_sequencer (event_detail event))
         | _ => cur
         end
       else cur).
Proof.
  intros Hc Hq Hrest Hd. rewrite (lambda_handler_on _ _ _ _ _ _ Hc).
  set (lock := {| _key := input_full_key event;
                  _execution_id := aws_request_id context |}).
  destruct (handle_decides fuel (event_detail event) context lock
              (λ detail, do_work (same_event event detail)) _backoff w cur Hq Hrest)
    as (w' & Hh & _ & Hrest').
  destruct (handle_calls (S fuel) (event_detail event) context lock
              (λ detail, do_work (same_event event detail)) _backoff w)
    as (added & Ha & _ & Hs).
  rewrite same_event_detail in Hh, Hrest'. specialize (Hrest' Hd).
  rewrite Hh in Ha, Hs. cbn [fst snd] in Ha, Hs.
  exists w'. unfold mbind, M_bind, bind. rewrite Hh.
  split; [|split; [|exact Hrest']].
  - destruct (is_older cur _); [|reflexivity].
    destruct (do_work event context); reflexivity.
  - intros Ho. rewrite Ho in Hs. rewrite (calls_since_app _ _ _ Ha).
    destruct Hs as [(_ & Hp & _)|((v & [=] & _) & _)]. exact Hp.
Qed.

(** X16. Each version of an object has its own record: the notifications
    of one version are never judged against the sequencer of another.  If
    nothing is stored for the version of [event2], then after the Lambda
    has handled [event1], for another version of the same object and with
    any sequencer and any outcome, [event2] is processed whatever its own
    sequencer is. *)
Theorem versions_are_coordinated_separately fuel1 fuel2 (coordination : string)
    do_work event1 event2 context1 context2 w :
  coordination ≠ "off" →
  detail_bucket_name (event_detail event1) = detail_bucket_name (event_detail event2) →
  detail_object_key (event_detail event1) = detail_object_key (event_detail event2) →
  default "" (detail_object_version_id event1)
    ≠ default "" (detail_object_version_id event2) →
  Forall (quiet (input_full_key event2)) (env w) →
  table w !! input_full_key event2 = None →
  ∃ w2,
    lambda_handler (S fuel2) coordination do_work event2 context2
      (lambda_handler fuel1 coordination do_work event1 context1 w).2
    = (match do_work event2 context2 with
       | Return v => Return (Some v)
       | Raise e => Raise e
       | OutOfFuel => OutOfFuel
       end, w2).
Proof.
  intros Hc Hb Hk Hv Hq Hn.
  assert (Hkeys : input_full_key event2 ≠ input_full_key event1).
  { unfold input_full_key. cbv zeta. rewrite Hb, Hk. intros H.
    do 4 apply append_inj_l in H. congruence. }
  rewrite (lambda_handler_on_world fuel1 _ _ event1 _ _ Hc).
  rewrite (lambda_handler_on (S fuel2) _ _ event2 _ _ Hc).
  set (lock1 := {| _key := input_full_key event1;
                   _execution_id := aws_request_id context1 |}).
  set (lock2 := {| _key := input_full_key event2;
                   _execution_id := aws_request_id context2 |}).
  destruct (handle_frame fuel1 (event_detail event1) context1 lock1
              (λ detail, do_work (same_event event1 detail)) _backoff
              (input_full_key event2) Hkeys w Hq) as [Ht1 Hq1].
  destruct (handle_decides fuel2 (event_detail event2) context2 lock2
              (λ detail, do_work (same_event event2 detail)) _backoff _ None
              Hq1) as (w2 & Hh & _).
  { left. split; [cbn [_key lock2]; rewrite Ht1; exact Hn|reflexivity]. }
  rewrite same_event_detail in Hh. cbn [is_older] in Hh.
  unfold mbind, M_bind, bind. rewrite Hh.
  destruct (do_work event2 context2); eexists; reflexivity.
Qed.
End AppProperties.

(** ** Several workers: who holds what *)

Section Ownership.
Context {Ctx Value : Type}.
Implicit Types (wk : Worker Ctx Value) (s : System Ctx Value) (w : World).

(** X17. Mutual exclusion among the invocations.  In every reachable
    state, a worker that is between its [lockForSequencer] and its
    [update_item] is the only such worker on its key; the record is locked
    with the sequencer of its notification, which is newer than the one it
    read. *)
Theorem holder_is_alone_on_its_key s i wk (old : option string) :
  reachable s →
  sys_workers s !! i = Some wk →
  holds_lock (wk_pc wk) = Some old →
  locked_with (table (sys_world s)) (key_of wk) (seq_of wk) ∧
  is_older old (seq_of wk) = true ∧
  (∀ j wk' old',
     sys_workers s !! j = Some wk' →
     holds_lock (wk_pc wk') = Some old' →
     key_of wk' = key_of wk → j = i).
Proof.
  intros Hr Hi Hh. pose proof (coordinated_reachable _ Hr) as Hco.
  destruct (co_holder _ Hco _ _ _ Hi Hh) as (Hl & _ & Ho).
  split; [exact Hl|]. split; [exact Ho|].
  intros j wk' old' Hj Hh' Hk.
  exact (co_exclusive _ Hco _ _ _ _ _ _ Hj Hi Hh' Hh Hk).
Qed.

(** The [update_item] that ends an invocation leaves the record unlocked. *)
Lemma release_unlocks wk w pc' w' :
  env w = [] →
  step wk w = (Return pc', w') →
  (∃ old v, wk_pc wk = AtUnlock old v) ∨ (∃ old e, wk_pc wk = AtRollBack old e) →
  stored_attribute (table w') (key_of wk) FIELD_LOCK_STATUS
  = Some (Str LOCK_VALUE_UNLOCKED).
Proof.
  intros Henv Hstep Hpc.
  pose proof (next_fault_empty_env _ Henv) as Hf.
  unfold step, goto in Hstep.
  destruct Hpc as [(old & v & Hpc)|(old & e & Hpc)]; rewrite Hpc in Hstep.
  - rewrite unlock_eq, Hf in Hstep. injection Hstep as _ <-.
    cbn [table with_table]. unfold key_of. rewrite stored_attribute_insert_eq.
    rewrite !lookup_insert_ne by discriminate. apply lookup_insert_eq.
  - rewrite unlockAndRollBack_eq, Hf in Hstep. injection Hstep as _ <-.
    cbn [table with_table]. unfold key_of. rewrite stored_attribute_insert_eq.
    rewrite !lookup_insert_ne by discriminate. apply lookup_insert_eq.
Qed.

Lemma every_lock_is_held_step s s' i :
  coordinated s → every_lock_is_held s → sys_step i s s' → every_lock_is_held s'.
Proof.
  intros Hco Hown [wk pc' w' Hwk Hstep] key.
  cbn [sys_world sys_workers].
  destruct (step_transition _ _ _ _ (co_closed _ Hco) Hstep) as [_ Htr].
  assert (Hkeep : ∀ j wk0 old0,
    j ≠ i → sys_workers s !! j = Some wk0 → holds_lock (wk_pc wk0) = Some old0 →
    key_of wk0 = key →
    ∃ i' wk' old',
      <[i := at_pc wk pc']> (sys_workers s) !! i' = Some wk' ∧
      holds_lock (wk_pc wk') = Some old' ∧ key_of wk' = key).
  { intros j wk0 old0 Hne Hj Hh Hk. exists j, wk0, old0.
    rewrite workers_elsewhere by exact Hne. auto. }
  destruct Htr as [Ht Hh Ha Hl|old Hpc -> Hfree Ht|old v Hpc -> Hother Hex Hss
                  |old e Hpc -> Hother Hex Hss].
  - rewrite Ht. intros Hlocked.
    destruct (Hown key Hlocked) as (j & wk0 & old0 & Hj & Hh0 & Hk).
    destruct (decide (j = i)) as [->|Hne]; [|eapply Hkeep; eassumption].
    assert (wk0 = wk) as -> by congruence.
    exists i, (at_pc wk pc'), old0. rewrite (workers_here _ _ _ _ Hwk).
    cbn. rewrite Hh. auto.
  - intros Hlocked. destruct (decide (key = key_of wk)) as [->|Hk].
    + exists i, (at_pc wk (AtProcessing old)), old.
      rewrite (workers_here _ _ _ _ Hwk). auto.
    + rewrite (stored_attribute_ext (table (sys_world s))) in Hlocked
        by (rewrite Ht; apply lookup_insert_ne; congruence).
      destruct (Hown key Hlocked) as (j & wk0 & old0 & Hj & Hh0 & Hk0).
      destruct (decide (j = i)) as [->|Hne]; [|eapply Hkeep; eassumption].
      assert (wk0 = wk) as -> by congruence. congruence.
  - intros Hlocked. destruct (decide (key = key_of wk)) as [->|Hk].
    + rewrite (release_unlocks _ _ _ _ (co_closed _ Hco) Hstep) in Hlocked
        by (left; eauto). discriminate.
    + rewrite (stored_attribute_ext _ _ _ _ (Hother _ Hk)) in Hlocked.
      destruct (Hown key Hlocked) as (j & wk0 & old0 & Hj & Hh0 & Hk0).
      destruct (decide (j = i)) as [->|Hne]; [|eapply Hkeep; eassumption].
      assert (wk0 = wk) as -> by congruence. congruence.
  - intros Hlocked. destruct (decide (key = key_of wk)) as [->|Hk].
    + rewrite (release_unlocks _ _ _ _ (co_closed _ Hco) Hstep) in Hlocked
        by (right; eauto). discriminate.
    + rewrite (stored_attribute_ext _ _ _ _ (Hother _ Hk)) in Hlocked.
      destruct (Hown key Hlocked) as (j & wk0 & old0 & Hj & Hh0 & Hk0).
      destruct (decide (j = i)) as [->|Hne]; [|eapply Hkeep; eassumption].
      assert (wk0 = wk) as -> by congruence. congruence.
Qed.

Lemma every_lock_is_held_reachable s0 s :
  initial s0 →
  (∀ key, stored_attribute (table (sys_world s0)) key FIELD_LOCK_STATUS
          ≠ Some (Str LOCK_VALUE_LOCKED)) →
  rtc sys_steps s0 s →
  every_lock_is_held s.
Proof.
  intros Hinit Hfree Hrun.
  assert (H : coordinated s ∧ every_lock_is_held s); [|exact (proj2 H)].
  apply (rtc_ind_r (R := sys_steps)
           (λ s, coordinated s ∧ every_lock_is_held s) s0); [| |exact Hrun].
  - split; [apply coordinated_initial; exact Hinit|].
    intros key Hlocked. exfalso. exact (Hfree key Hlocked).
  - intros s1 s2 _ [i Hstep] [Hco Hown]. split.
    + exact (coordinated_step _ _ _ Hco Hstep).
    + exact (every_lock_is_held_step _ _ _ Hco Hown Hstep).
Qed.

(** When nobody else writes, a request finds the table as the worker's
    previous call left it, whether or not the store fails the request. *)
Lemma only_faults_next_table w :
  Forall only_faults (env w) → next_table w = table w.
Proof.
  unfold next_table, arrive. destruct (env w) as [|e rest]; [reflexivity|].
  intros H. apply Forall_cons in H as [H _]. cbn [fst table]. apply H.
Qed.

Lemma only_faults_arrived (c : Call) w :
  Forall only_faults (env w) → Forall only_faults (env (arrived c w)).
Proof.
  rewrite env_arrived. destruct (env w) as [|e rest]; [trivial|].
  intros H. apply Forall_cons in H as [_ H]. exact H.
Qed.

(** What one call of a worker does to the table when the store may fail:
    nothing, in which case a holder stays one unless the store stopped it;
    or it takes the lock of its key; or it releases the record of its key. *)
Lemma step_with_faults wk w pc' w' :
  Forall only_faults (env w) →
  step wk w = (Return pc', w') →
  Forall only_faults (env w') ∧
  ((table w' = table w ∧
    (∀ old, holds_lock (wk_pc wk) = Some old →
       (∃ old', holds_lock pc' = Some old')
       ∨ (∃ f, pc' = Raised (fault_exception f))) ∧
    (∀ f, wk_pc wk = Raised (fault_exception f) →
          pc' = Raised (fault_exception f)))
   ∨ ((∃ old, pc' = AtProcessing old) ∧
      table w' = <[key_of wk := lock_item (wk_lock wk) (seq_of wk)]> (table w))
   ∨ ((∀ key, key ≠ key_of wk → table w' !! key = table w !! key) ∧
      stored_attribute (table w') (key_of wk) FIELD_LOCK_STATUS
      = Some (Str LOCK_VALUE_UNLOCKED))).
Proof.
  intros Henv. pose proof (only_faults_next_table _ Henv) as Ht.
  assert (Hquiet : ∀ c (pc : Pc Value), holds_lock (wk_pc wk) = None →
            (∀ f, wk_pc wk ≠ Raised (fault_exception f)) →
            Forall only_faults (env (arrived c w)) ∧
            ((table (arrived c w) = table w ∧
              (∀ old, holds_lock (wk_pc wk) = Some old →
                 (∃ old', holds_lock pc = Some old')
                 ∨ (∃ f, pc = Raised (fault_exception f))) ∧
              (∀ f, wk_pc wk = Raised (fault_exception f) →
                    pc = Raised (fault_exception f)))
             ∨ ((∃ old, pc = AtProcessing old) ∧
                table (arrived c w)
                = <[key_of wk := lock_item (wk_lock wk) (seq_of wk)]> (table w))
             ∨ ((∀ key, key ≠ key_of wk → table (arrived c w) !! key = table w !! key) ∧
                stored_attribute (table (arrived c w)) (key_of wk) FIELD_LOCK_STATUS
                = Some (Str LOCK_VALUE_UNLOCKED)))).
  { intros c pc Hh Hr. split; [apply only_faults_arrived, Henv|]. left.
    split; [rewrite table_arrived; exact Ht|]. split.
    - intros old Ho. congruence.
    - intros f Hf. destruct (Hr f Hf). }
  unfold step, goto. destruct (wk_pc wk) as [| |old|old|old v|old e|rv|e] eqn:Hpc.
  - (* the read *)
    destruct (getCurrentSequencer (wk_lock wk) w) as [r w1] eqn:Hr.
    assert (w1 = arrived (GetItem (_key (wk_lock wk))) w) as ->.
    { rewrite <- (getCurrentSequencer_world (wk_lock wk) w), Hr. reflexivity. }
    destruct r as [a|e|]; intros [= <- <-]; apply Hquiet;
      solve [reflexivity | discriminate].
  - (* the backoff *)
    unfold call_backoff. destruct (wk_backoff_fn wk) as [[]|e|]; intros [= <- <-];
      (split; [exact Henv|]); left; (split; [reflexivity|]);
      (split; [intros old Ho; discriminate Ho | intros f Hf; discriminate Hf]).
  - (* the conditional write *)
    rewrite lockForSequencer_eq. cbv zeta. rewrite Ht.
    destruct (next_fault w) as [f|].
    + intros [= <- <-]. apply Hquiet; solve [reflexivity | discriminate].
    + destruct (eval_condition _ _); intros [= <- <-]; cbn [negb].
      * split; [apply only_faults_arrived, Henv|]. right. left.
        split; [eexists; reflexivity|]. cbn [table with_table]. reflexivity.
      * apply Hquiet; solve [reflexivity | discriminate].
  - (* the callback *)
    unfold call_processing.
    destruct (wk_processing_fn wk (wk_event wk) (wk_context wk)) as [v|e|];
      intros [= <- <-]; (split; [exact Henv|]); left; (split; [reflexivity|]);
      (split; [intros old' _; left; eexists; reflexivity
              | intros f Hf; discriminate Hf]).
  - (* unlock *)
    rewrite unlock_eq, Ht. destruct (next_fault w) as [f|]; intros [= <- <-].
    + split; [apply only_faults_arrived, Henv|]. left.
      split; [rewrite table_arrived; exact Ht|].
      split; [intros old' _; right; eexists; reflexivity
             | intros f' Hf; discriminate Hf].
    + split; [apply only_faults_arrived, Henv|]. right. right.
      cbn [table with_table]. unfold key_of. split.
      * intros key Hk. apply lookup_insert_ne. congruence.
      * rewrite stored_attribute_insert_eq.
        rewrite !lookup_insert_ne by discriminate. apply lookup_insert_eq.
  - (* roll back *)
    rewrite unlockAndRollBack_eq, Ht. destruct (next_fault w) as [f|]; intros [= <- <-].
    + split; [apply only_faults_arrived, Henv|]. left.
      split; [rewrite table_arrived; exact Ht|].
      split; [intros old' _; right; eexists; reflexivity
             | intros f' Hf; discriminate Hf].
    + split; [apply only_faults_arrived, Henv|]. right. right.
      cbn [table with_table]. unfold key_of. split.
      * intros key Hk. apply lookup_insert_ne. congruence.
      * rewrite stored_attribute_insert_eq.
        rewrite !lookup_insert_ne by discriminate. apply lookup_insert_eq.
  - intros [= <- <-]. split; [exact Henv|]. left. split; [reflexivity|].
    split; [intros old Ho; discriminate Ho | intros f Hf; discriminate Hf].
  - intros [= <- <-]. split; [exact Henv|]. left. split; [reflexivity|].
    split; [intros old Ho; discriminate Ho | intros f Hf; exact Hf].
Qed.

Lemma every_lock_is_accounted_for_step s s' i :
  Forall only_faults (env (sys_world s)) →
  every_lock_is_accounted_for s →
  sys_step i s s' →
  Forall only_faults (env (sys_world s')) ∧ every_lock_is_accounted_for s'.
Proof.
  intros Henv Hacc [wk pc' w' Hwk Hstep].
  destruct (step_with_faults _ _ _ _ Henv Hstep) as [Henv' Hcases].
  split; [exact Henv'|]. intros key. cbn [sys_world sys_workers].
  assert (Hother : (∀ key', key' ≠ key_of wk →
                      table w' !! key' = table (sys_world s) !! key') →
                   key ≠ key_of wk →
                   stored_attribute (table w') key FIELD_LOCK_STATUS
                   = Some (Str LOCK_VALUE_LOCKED) →
                   ∃ j wk0,
                     <[i := at_pc wk pc']> (sys_workers s) !! j = Some wk0 ∧
                     key_of wk0 = key ∧
                     locked_with (table w') key (seq_of wk0) ∧
                     ((∃ old, holds_lock (wk_pc wk0) = Some old)
                      ∨ (∃ f, wk_pc wk0 = Raised (fault_exception f)))).
  { intros Hsame Hk Hlocked.
    rewrite (stored_attribute_ext _ _ _ _ (Hsame _ Hk)) in Hlocked.
    destruct (Hacc key Hlocked) as (j & wk0 & Hj & Hk0 & Hlw & Hor).
    destruct (decide (j = i)) as [->|Hne].
    - assert (wk0 = wk) as -> by congruence. congruence.
    - exists j, wk0. rewrite workers_elsewhere by exact Hne.
      split; [exact Hj|]. split; [exact Hk0|]. split; [|exact Hor].
      exact (locked_with_ext _ _ _ _ (Hsame _ Hk) Hlw). }
  destruct Hcases as [(Ht & Hhold & Hstop)|[((old & ->) & Ht)|(Hsame & Hun)]].
  - rewrite Ht. intros Hlocked.
    destruct (Hacc key Hlocked) as (j & wk0 & Hj & Hk0 & Hlw & Hor).
    destruct (decide (j = i)) as [->|Hne].
    + assert (wk0 = wk) as -> by congruence.
      exists i, (at_pc wk pc'). rewrite (workers_here _ _ _ _ Hwk).
      split; [reflexivity|]. split; [exact Hk0|]. split; [exact Hlw|].
      cbn [wk_pc at_pc]. destruct Hor as [(old & Ho)|(f & Hf)].
      * exact (Hhold old Ho).
      * right. exists f. exact (Hstop f Hf).
    + exists j, wk0. rewrite workers_elsewhere by exact Hne. auto.
  - destruct (decide (key = key_of wk)) as [->|Hk].
    + intros _. exists i, (at_pc wk (AtProcessing old)).
      rewrite (workers_here _ _ _ _ Hwk).
      split; [reflexivity|]. split; [reflexivity|].
      split; [|left; exists old; reflexivity].
      rewrite Ht. apply locked_with_lock_item.
    + apply Hother; [|exact Hk].
      intros key' Hk'. rewrite Ht. apply lookup_insert_ne. congruence.
  - destruct (decide (key = key_of wk)) as [->|Hk].
    + intros Hlocked. rewrite Hun in Hlocked. discriminate.
    + apply Hother; assumption.
Qed.

(** X18. A lock outlives an invocation only through an error of the
    store.  When the workers start on a table in which no record is locked
    and nobody else writes it, then in every state they reach, whichever
    requests the store fails, a locked record is locked for the
    notification of a worker on that key that either holds the lock (it is
    between its [lockForSequencer] and its [update_item]) or has been
    stopped by an error of the store.  When the store fails no request,
    the holder is always there: the paths on which the handler ends (out
    of date, processed, rolled back) give the lock back. *)
Theorem lock_is_held_or_left_by_a_store_error s0 s :
  Forall only_faults (env (sys_world s0)) →
  (∀ key, stored_attribute (table (sys_world s0)) key FIELD_LOCK_STATUS
          ≠ Some (Str LOCK_VALUE_LOCKED)) →
  rtc sys_steps s0 s →
  every_lock_is_accounted_for s ∧
  (initial s0 → every_lock_is_held s).
Proof.
  intros Henv Hfree Hrun. split.
  - assert (H : Forall only_faults (env (sys_world s)) ∧ every_lock_is_accounted_for s);
      [|exact (proj2 H)].
    apply (rtc_ind_r (R := sys_steps)
             (λ s, Forall only_faults (env (sys_world s))
                   ∧ every_lock_is_accounted_for s) s0); [| |exact Hrun].
    + split; [exact Henv|].
      intros key Hlocked. exfalso. exact (Hfree key Hlocked).
    + intros s1 s2 _ [i Hstep] [Henv1 Hacc].
      exact (every_lock_is_accounted_for_step _ _ _ Henv1 Hacc Hstep).
  - intros Hinit. exact (every_lock_is_held_reachable _ _ Hinit Hfree Hrun).
Qed.
End Ownership.

(** ** Instances of the further properties *)

(** [req-1] holds the lock for [1]; [req-2] tries to take it for [2]. *)
Lemma locked_key_refuses_everyone_witness :
  (lockForSequencer (lock_of "req-2") (Some "0") "2" stored_0_locked).1 = Return false ∧
  table (lockForSequencer (lock_of "req-2") (Some "0") "2" stored_0_locked).2
  = next_table stored_0_locked ∧
  (getCurrentSequencer (lock_of "req-2") stored_0_locked).1 = Raise ItemLockedException.
Proof.
  apply (locked_key_refuses_everyone (lock_of "req-1") (lock_of "req-2")
           (Some "0") (Some "0") "1" "2" stored_0_read stored_0_locked);
    reflexivity.
Defined.

Lemma lock_then_unlock_reads_new_witness :
  (getCurrentSequencer (lock_of "req-2") stored_0_unlocked).1 = Return (Some "1") ∧
  lock_is_free (next_table stored_0_unlocked) (_key (lock_of "req-1")) (Some "1").
Proof.
  apply (lock_then_unlock_reads_new (lock_of "req-1") (lock_of "req-2")
           (Some "0") "1" stored_0_read stored_0_locked stored_0_unlocked);
    reflexivity.
Defined.

Lemma lock_then_roll_back_reads_old_witness :
  (getCurrentSequencer (lock_of "req-2") stored_0_rolled_back).1 = Return (Some "0") ∧
  lock_is_free (next_table stored_0_rolled_back) (_key (lock_of "req-1")) (Some "0").
Proof.
  apply (lock_then_roll_back_reads_old (lock_of "req-1") (lock_of "req-2")
           (Some "0") "1" stored_0_read stored_0_locked stored_0_rolled_back);
    reflexivity.
Defined.

Lemma unlock_without_record_leaves_no_sequencer_witness :
  ∃ w1,
    unlock (lock_of "req-1") unseen = (Return (), w1) ∧
    table w1 !! _key (lock_of "req-1") ≠ None ∧
    stored_attribute (table w1) (_key (lock_of "req-1")) FIELD_SEQUENCER = None ∧
    (next_fault w1 = None →
     next_table w1 !! _key (lock_of "req-1") = table w1 !! _key (lock_of "req-1") →
     (getCurrentSequencer (lock_of "req-2") w1).1 = Raise (KeyError FIELD_SEQUENCER) ∧
     (∀ old new, (lockForSequencer (lock_of "req-2") old new w1).1 = Return false) ∧
     (∀ fuel event (context : ()) (processing_fn : Event → () → Res string)
        backoff_fn,
        handle_notification_if_up_to_date (S fuel) event context (lock_of "req-2")
          processing_fn backoff_fn w1
        = (Raise (KeyError FIELD_SEQUENCER),
           arrived (GetItem (_key (lock_of "req-2"))) w1))).
Proof.
  apply (unlock_without_record_leaves_no_sequencer (lock_of "req-1") (lock_of "req-2")
           unseen); reflexivity.
Defined.

Lemma store_error_before_processing_is_raised_witness :
  ∃ w',
    handle_notification_if_up_to_date 1 (notification "10") () (lock_of "req-1")
      says_hello _backoff failing_early = (Raise (fault_exception Throttled), w') ∧
    filter is_processing (calls_since failing_early w') = [] ∧
    filter is_update (calls_since failing_early w') = [] ∧
    (Backoff ∉ calls_since failing_early w') ∧
    (table w' = next_table failing_early ∨
     table w' = next_table (arrived (GetItem (_key (lock_of "req-1"))) failing_early)).
Proof.
  apply (store_error_before_processing_is_raised 0 (notification "10") ()
           (lock_of "req-1") says_hello _backoff failing_early Throttled).
  left. reflexivity.
Defined.

Lemma store_error_after_processing_leaves_key_locked_witness :
  ∃ w3,
    handle_notification_if_up_to_date 1 (notification "1") () (lock_of "req-1")
      says_hello _backoff failing_late
    = (Raise (fault_exception InternalError), w3) ∧
    table w3 = next_table failing_late_locked ∧
    locked_with (table w3) (_key (lock_of "req-1"))
      (detail_object_sequencer (notification "1")).
Proof.
  apply (store_error_after_processing_leaves_key_locked 0 (notification "1") ()
           (lock_of "req-1") says_hello _backoff failing_late failing_late_read
           failing_late_locked (Some "0") InternalError);
    try reflexivity.
  discriminate.
Defined.

(** [test_backs_off_when_locked_getting_sequencer]. *)
Lemma failing_backoff_is_raised_witness :
  handle_notification_if_up_to_date 1 (notification "1") () (lock_of "req-1")
    says_hello backoff_fails locked_10
  = (Raise (OtherException "Exception"), log Backoff locked_10_read) ∧
  filter is_processing (calls_since locked_10 (log Backoff locked_10_read)) = [] ∧
  filter is_update (calls_since locked_10 (log Backoff locked_10_read)) = [].
Proof.
  apply (failing_backoff_is_raised 0 (notification "1") () (lock_of "req-1")
           says_hello backoff_fails locked_10 locked_10_read
           (OtherException "Exception")).
  - left. reflexivity.
  - reflexivity.
Defined.

Lemma locked_forever_never_returns_witness :
  ∃ w',
    handle_notification_if_up_to_date 3 (notification "30") () (lock_of "req-1")
      says_hello (Return ()) locked_10 = (OutOfFuel, w') ∧
    trace w' = trace locked_10 ++ waiting (_key (lock_of "req-1")) 3 ∧
    table w' !! _key (lock_of "req-1") = table locked_10 !! _key (lock_of "req-1").
Proof.
  apply (locked_forever_never_returns 3 (notification "30") () (lock_of "req-1")
           says_hello "10" locked_10).
  - apply Forall_nil_2.
  - split; reflexivity.
Defined.

Lemma handler_leaves_other_keys_witness :
  table (handle_notification_if_up_to_date 2 (notification "10") () (lock_of "req-1")
           says_hello _backoff stored_05).2 !! "bar/other"
  = table stored_05 !! "bar/other".
Proof.
  apply (handler_leaves_other_keys 2 (notification "10") () (lock_of "req-1")
           says_hello _backoff "bar/other" stored_05).
  - discriminate.
  - apply Forall_nil_2.
Defined.

Lemma deliveries_keep_the_running_maximum_witness :
  ∃ w',
    deliver_each 1 three_notifications () (lock_of "req") says_hello _backoff unseen
    = (Return (outcomes_after says_hello () None three_notifications), w') ∧
    at_rest (table w') (_key (lock_of "req")) (accepted_after None three_notifications) ∧
    seq_le None (accepted_after None three_notifications) ∧
    (∀ event, event ∈ three_notifications →
       seq_le (Some (detail_object_sequencer event))
         (accepted_after None three_notifications)).
Proof.
  apply (deliveries_keep_the_running_maximum 0 () (lock_of "req") says_hello _backoff
           three_notifications unseen None).
  - intros event _. exists "hello". reflexivity.
  - apply Forall_nil_2.
  - left. split; reflexivity.
Defined.

Lemma replayed_notification_is_skipped_witness :
  ∃ rvs w',
    deliver_each 1 three_notifications () (lock_of "req") says_hello _backoff unseen
    = (Return rvs, w') ∧
    ∀ event fuel' context' lock'
      (processing_fn' : Event → () → Res string) backoff_fn',
      event ∈ three_notifications →
      _key lock' = _key (lock_of "req") →
      ∃ w'',
        handle_notification_if_up_to_date (S fuel') event context' lock'
          processing_fn' backoff_fn' w'
        = (Return (OUTCOME_OUT_OF_DATE, None), w'') ∧
        table w'' !! _key (lock_of "req") = table w' !! _key (lock_of "req") ∧
        calls_since w' w'' = [GetItem (_key (lock_of "req"))].
Proof.
  apply (replayed_notification_is_skipped 0 () (lock_of "req") says_hello _backoff
           three_notifications unseen None).
  - intros event _. exists "hello". reflexivity.
  - apply Forall_nil_2.
  - left. split; reflexivity.
Defined.

(** Two notifications of the same object version have the same key. *)
Lemma input_full_key_tells_objects_apart_witness :
  detail_bucket_name (event_detail (lambda_event (Some "v1") "10"))
  = detail_bucket_name (event_detail (lambda_event (Some "v1") "20")) ∧
  detail_object_key (event_detail (lambda_event (Some "v1") "10"))
  = detail_object_key (event_detail (lambda_event (Some "v1") "20")) ∧
  default "" (detail_object_version_id (lambda_event (Some "v1") "10"))
  = default "" (detail_object_version_id (lambda_event (Some "v1") "20")).
Proof.
  apply (input_full_key_tells_objects_apart (lambda_event (Some "v1") "10")
           (lambda_event (Some "v1") "20")); reflexivity.
Defined.

Lemma lambda_handler_processes_newer_only_witness :
  ∃ w',
    lambda_handler 1 "on" does_work (lambda_event None "10") (lambda_context "req-1")
      unseen
    = (if is_older None (detail_object_sequencer (event_detail (lambda_event None "10")))
       then
         match does_work (lambda_event None "10") (lambda_context "req-1") with
         | Return v => Return (Some v)
         | Raise e => Raise e
         | OutOfFuel => OutOfFuel
         end
       else Return None, w') ∧
    (is_older None (detail_object_sequencer (event_detail (lambda_event None "10")))
     = false →
     filter is_processing (calls_since unseen w') = []) ∧
    at_rest (table w') (input_full_key (lambda_event None "10"))
      (if is_older None (detail_object_sequencer (event_detail (lambda_event None "10")))
       then
         match does_work (lambda_event None "10") (lambda_context "req-1") with
         | Return _ =>
             Some (detail_object_sequencer (event_detail (lambda_event None "10")))
         | _ => None
         end
       else None).
Proof.
  apply (lambda_handler_processes_newer_only 0 "on" does_work (lambda_event None "10")
           (lambda_context "req-1") unseen None).
  - discriminate.
  - apply Forall_nil_2.
  - left. split; reflexivity.
  - discriminate.
Defined.

(** Version [v1] was handled with sequencer [20]; version [v2] arrives with
    the older sequencer [10]. *)
Lemma versions_are_coordinated_separately_witness :
  ∃ w2,
    lambda_handler 1 "on" does_work (lambda_event (Some "v2") "10")
      (lambda_context "req-2")
      (lambda_handler 1 "on" does_work (lambda_event (Some "v1") "20")
         (lambda_context "req-1") unseen).2
    = (match does_work (lambda_event (Some "v2") "10") (lambda_context "req-2") with
       | Return v => Return (Some v)
       | Raise e => Raise e
       | OutOfFuel => OutOfFuel
       end, w2).
Proof.
  apply (versions_are_coordinated_separately 1 0 "on" does_work
           (lambda_event (Some "v1") "20") (lambda_event (Some "v2") "10")
           (lambda_context "req-1") (lambda_context "req-2") unseen).
  - discriminate.
  - reflexivity.
  - reflexivity.
  - discriminate.
  - apply Forall_nil_2.
  - reflexivity.
Defined.

Lemma holder_is_alone_on_its_key_witness :
  locked_with (table (sys_world before_roll_back)) (key_of rolling_back)
    (seq_of rolling_back) ∧
  is_older None (seq_of rolling_back) = true ∧
  (∀ j wk' old',
     sys_workers before_roll_back !! j = Some wk' →
     holds_lock (wk_pc wk') = Some old' →
     key_of wk' = key_of rolling_back → j = 0%nat).
Proof.
  apply (holder_is_alone_on_its_key before_roll_back 0 rolling_back None).
  - apply run_schedule_reachable, initial_start.
  - reflexivity.
  - reflexivity.
Defined.

(** The store fails the [update_item] of the only invocation. *)
Lemma lock_is_held_or_left_by_a_store_error_witness :
  every_lock_is_accounted_for lock_left_behind ∧
  (initial unlock_will_fail → every_lock_is_held lock_left_behind).
Proof.
  apply (lock_is_held_or_left_by_a_store_error unlock_will_fail lock_left_behind).
  - repeat apply Forall_cons_2; [intros t; reflexivity ..|apply Forall_nil_2].
  - intros key. unfold stored_attribute, lookup_item.
    cbn [unlock_will_fail sys_world table among table_with].
    rewrite lookup_empty. discriminate.
  - apply run_schedule_rtc.
Defined.

(** In that state the record is locked for [10], the invocation has raised
    the error of the store, and nobody holds the lock. *)
Example store_error_leaves_the_lock_behind :
  locked_with (table (sys_world lock_left_behind)) "bar/foo" "10" ∧
  wk_pc <$> sys_workers lock_left_behind = [Raised (fault_exception InternalError)] ∧
  ¬ every_lock_is_held lock_left_behind.
Proof.
  split; [split; reflexivity|]. split; [reflexivity|].
  intros H. destruct (H "bar/foo" eq_refl) as (i & wk & old & Hi & Hh & _).
  destruct i as [|i]; [|destruct i; discriminate Hi].
  injection Hi as <-. discriminate Hh.
Qed.
